(** * A shallow embedding of the SMT-LIB scrambler (scrambler.cpp)

    The development follows the layout of the source file: the
    pseudo-random number generator, the symbol registries, the command
    tree and buffer, the shuffling and sorting passes, the printer, and
    the unsat-core filter.  Unsigned 64-bit quantities ([uint64_t],
    [size_t]) are integers of [Z] with the wrap-around written out. *)

From Stdlib Require Import ZArith QArith String Ascii List Lia.
From Stdlib Require Import Sorting.Sorted Permutation.
From stdpp Require Import base option list strings gmap pretty sorting.
From Equations Require Import Equations.

Local Open Scope Z_scope.
Set Warnings "-register-all,-clear-no-such-hyp".

(** ** Machine integers *)

Definition two64 : Z := 2 ^ 64.

(** Reduction of a mathematical integer to its [uint64_t] value. *)
Definition u64 (x : Z) : Z := x mod two64.

(** ** Pseudo-random number generator *)

Module Prng.

Definition a : Z := 25214903917.
Definition c : Z := 11.

(** [const uint64_t mask = ~(2ULL << 48);] *)
Definition mask : Z := u64 (Z.lnot (Z.shiftl 2 48)).

(** [void set_seed(int s) { seed = s; }]: the [int] is converted to
    [uint64_t]. *)
Definition set_seed (s : Z) : Z := u64 s.

(** The state update of [next_rand_int]:
    [seed = ((seed * a) + c) & mask;] *)
Definition next_seed (seed : Z) : Z :=
  Z.land (u64 (u64 (seed * a) + c)) mask.

(** [size_t next_rand_int(size_t upper_bound)] returns the drawn value and
    the new generator state.  The remainder by [upper_bound = 0] is
    undefined behaviour, rendered as [None]. *)
Definition next_rand_int (upper_bound : Z) (seed : Z) : option (Z * Z) :=
  let seed' := next_seed seed in
  if upper_bound =? 0 then None
  else Some (Z.shiftr seed' 16 mod upper_bound, seed').

(** The update the specification describes, for comparison with
    [next_seed]. *)
Definition lcg48 (seed : Z) : Z := (seed * a + c) mod 2 ^ 48.

End Prng.

(** ** Symbol registries *)

(** [const char *unquote(const char *n)]: [|foo|] and [foo] denote the
    same symbol.  A C string is rendered as a [string]. *)
Definition unquote (n : string) : string :=
  match n with
  | String "|"%char _ =>
      let size := String.length n in
      if ((1 <? size)%nat
          && bool_decide (String.get (size - 1) n = Some "|"%char))%bool
      then String.substring 1 (size - 2) n
      else n
  | _ => n
  end.

(** A registry holds a [Name_ID_Map] together with its next available
    name id.  The program has two of them: [name_ids] with [next_name_id],
    and [name_ids_sorted] with [next_name_id_sorted]. *)
Record registry : Type := Registry {
  name_ids : gmap string Z;
  next_name_id : Z
}.

(** Both maps start empty and both counters start at 1. *)
Definition registry_init : registry := Registry ∅ 1.

(** [void set_new_name(const char *n)] *)
Definition set_new_name (n : string) (r : registry) : registry :=
  let n := unquote n in
  match name_ids r !! n with
  | None => Registry (<[n := next_name_id r]> (name_ids r))
                     (u64 (next_name_id r + 1))
  | Some _ => r
  end.

(** [uint64_t get_name_id(const char *n)]: [name_ids[n]] is
    [operator[]] of [std::unordered_map], which inserts a
    value-initialised entry for a key that is absent. *)
Definition get_name_id (n : string) (r : registry) : Z * registry :=
  let n := unquote n in
  match name_ids r !! n with
  | Some v => (v, r)
  | None => (0, Registry (<[n := 0]> (name_ids r)) (next_name_id r))
  end.

(** [void set_new_name_sorted(const char *n)], on the first-occurrence
    registry. *)
Definition set_new_name_sorted (n : string) (r : registry) : registry :=
  let n := unquote n in
  match name_ids r !! n with
  | None => Registry (<[n := next_name_id r]> (name_ids r))
                     (u64 (next_name_id r + 1))
  | Some _ => r
  end.

(** [uint64_t get_name_id_sorted(const char *n)] *)
Definition get_name_id_sorted (n : string) (r : registry) : Z * registry :=
  let n := unquote n in
  match name_ids r !! n with
  | Some v => (v, r)
  | None => (0, Registry (<[n := 0]> (name_ids r)) (next_name_id r))
  end.

(** A sequence of declarations, in source order. *)
Definition declare_all (names : list string) (r : registry) : registry :=
  foldl (λ r n, set_new_name n r) r names.

(** Operations a client may perform on a registry. *)
Inductive registry_op : Type :=
  | OpDeclare (n : string)
  | OpLookup (n : string).

Definition run_op (r : registry) (op : registry_op) : registry :=
  match op with
  | OpDeclare n => set_new_name n r
  | OpLookup n => (get_name_id n r).2
  end.

Definition run_op_sorted (r : registry) (op : registry_op) : registry :=
  match op with
  | OpDeclare n => set_new_name_sorted n r
  | OpLookup n => (get_name_id_sorted n r).2
  end.

(** The identifier a registry shows for an (unquoted) symbol: 0 stands for
    "not registered". *)
Definition shown_id (r : registry) (s : string) : Z :=
  default 0 (name_ids r !! s).

(** ** The command tree and its buffer *)

(** A [scrambler::node].  The program handles nodes through pointers
    ([node *]): [addr] is the address of the node object, which is what a
    pointer comparison or a pointer-keyed set looks at.  A node owns its
    children. *)
Inductive node : Type := Node {
  addr : Z;
  symbol : string;
  is_name : bool;
  needs_parens : bool;
  children : list node
}.

(** What a C++ call may do besides returning: leave by an exception, or
    run into undefined behaviour (an access outside a vector, a remainder
    by zero).  [OutOfFuel] is the cut-off of a loop rendered with a bound
    on its iterations. *)
Inductive outcome (A : Type) : Type :=
  | Ok (x : A)
  | Throw (what : string)
  | Undefined
  | OutOfFuel.
Arguments Ok {A} x.
Arguments Throw {A} what.
Arguments Undefined {A}.
Arguments OutOfFuel {A}.

(** [v[i]] on a [std::vector], with [i] a [size_t]. *)
Definition at_ {A : Type} (v : list A) (i : Z) : option A :=
  if i <? 0 then None else v !! Z.to_nat i.

(** [std::swap(v[i], v[j])] *)
Definition swap_at {A : Type} (v : list A) (i j : Z) : option (list A) :=
  match at_ v i, at_ v j with
  | Some x, Some y => Some (<[Z.to_nat j := x]> (<[Z.to_nat i := y]> v))
  | _, _ => None
  end.

(** ** Random shuffling of a window of the buffer *)

(** The loop of [shuffle_list]:
    [for (size_t i = n-1; i > 0; --i)
       std::swap(v[i+start], v[next_rand_int(i+1)+start]);]
    The loop counter [i] is the structural argument. *)
Fixpoint shuffle_loop (i : nat) (start : Z) (v : list node) (seed : Z)
  : option (list node * Z) :=
  match i with
  | O => Some (v, seed)
  | S i' =>
      match Prng.next_rand_int (u64 (Z.of_nat i + 1)) seed with
      | None => None
      | Some (r, seed') =>
          match swap_at v (u64 (Z.of_nat i + start)) (u64 (r + start)) with
          | None => None
          | Some v' => shuffle_loop i' start v' seed'
          end
      end
  end.

(** [void shuffle_list(std::vector<node *> *v, size_t start, size_t end)].
    [None] stands for undefined behaviour. *)
Definition shuffle_list (no_scramble : bool) (v : list node)
    (start end_ : Z) (seed : Z) : option (list node * Z) :=
  if no_scramble then Some (v, seed)
  else
    let n := u64 (end_ - start) in
    shuffle_loop (Z.to_nat (u64 (n - 1))) start v seed.

(** ** Sorting with [std::sort] *)

(** A comparator as [std::sort] requires it: a strict weak ordering. *)
Definition strict_weak_order {A : Type} (lt : A → A → bool) : Prop :=
  (∀ x, lt x x = false)
  ∧ (∀ x y z, lt x y = true → lt y z = true → lt x z = true)
  ∧ (∀ x y z, lt x z = true → lt x y = true ∨ lt y z = true).

(** What the C++ standard promises of [std::sort(first, last, comp)]: the
    range is rearranged (a permutation) into non-descending order with
    respect to [comp]; the order of equivalent elements is not
    specified. *)
Definition sort_contract
    (sort : ∀ A : Type, (A → A → bool) → list A → list A) : Prop :=
  ∀ (A : Type) (lt : A → A → bool) (l : list A),
    strict_weak_order lt →
    sort A lt l ≡ₚ l ∧ StronglySorted (λ x y, lt y x = false) (sort A lt l).

(** A [float] rank is rendered as the rational number it denotes; the
    rank reader produces finite values only. *)
Definition float : Type := Q.

(** [a < b] on [float]. *)
Definition float_lt (x y : float) : bool := negb (Qle_bool y x).

(** [operator<] on [std::pair<uint64_t, node *>]: lexicographic, the
    second components compared as pointers. *)
Definition pair_lt (x y : Z * node) : bool :=
  (x.1 <? y.1) || (negb (y.1 <? x.1) && (addr x.2 <? addr y.2)).

(** [v[start + i] = temp[i]] for [i] from [i0] on, along [temp]. *)
Fixpoint write_back (v : list node) (start : Z) (i0 : Z) (temp : list node)
  : option (list node) :=
  match temp with
  | [] => Some v
  | x :: temp' =>
      match at_ v (u64 (start + i0)) with
      | None => None
      | Some _ =>
          write_back (<[Z.to_nat (u64 (start + i0)) := x]> v) start (i0 + 1)
                     temp'
      end
  end.

(** [temp[i] = v[start + indices[i]]] for every [i]. *)
Fixpoint gather (v : list node) (start : Z) (indices : list Z)
  : option (list node) :=
  match indices with
  | [] => Some []
  | k :: indices' =>
      match at_ v (u64 (start + k)), gather v start indices' with
      | Some x, Some temp => Some (x :: temp)
      | _, _ => None
      end
  end.

(** The comparator of the rank sort:
    [[&ranks](size_t i, size_t j) { return ranks[i] < ranks[j]; }].
    A read outside [ranks] is outside the contract of the function and is
    rendered as a read of 0. *)
Definition rank_lt (ranks : list float) (i j : Z) : bool :=
  float_lt (default 0%Q (at_ ranks i)) (default 0%Q (at_ ranks j)).

Section rank_sort.

Variable std_sort : ∀ A : Type, (A → A → bool) → list A → list A.

(** The sorted index vector of the rank-based [shuffle_list]. *)
Definition rank_indices (n : Z) (ranks : list float) : list Z :=
  std_sort Z (rank_lt ranks) (seqZ 0 n).

(** [void shuffle_list(std::vector<node *> *v, size_t start, size_t end,
                       const std::vector<float> &ranks)] *)
Definition shuffle_list_ranks (v : list node) (start end_ : Z)
    (ranks : list float) : option (list node) :=
  let n := u64 (end_ - start) in
  let indices := rank_indices n ranks in
  match gather v start indices with
  | None => None
  | Some temp =>
      if bool_decide (Z.of_nat (length temp) = n)
      then write_back v start 0 temp
      else None
  end.

End rank_sort.

(** ** First-occurrence numbering and the declaration sort *)

(** The test both [assign_num] and [find_var] apply to a child:
    [!new_n->symbol.empty() && new_n->is_name && new_n->symbol != "="]. *)
Definition names_variable (c : node) : bool :=
  negb (String.eqb (symbol c) "") && is_name c
  && negb (String.eqb (symbol c) "=").

(** The guard of the descending loops: [i > 0 || !n->symbol.empty()]. *)
Definition descends (n : node) (i : nat) : bool :=
  (0 <? i)%nat || negb (String.eqb (symbol n) "").

(** [void assign_num(const scrambler::node *n)] *)
Fixpoint assign_num (n : node) (r : registry) : registry :=
  let r1 :=
    foldl (λ r c, if names_variable c then set_new_name_sorted (symbol c) r
                  else r) r (children n) in
  (fix descend (cs : list node) (i : nat) (r : registry) : registry :=
     match cs with
     | [] => r
     | c :: cs' =>
         descend cs' (S i) (if descends n i then assign_num c r else r)
     end) (children n) 0%nat r1.

(** [uint64_t find_var(const scrambler::node *n)].  The second loop
    returns from its first iteration that passes the guard. *)
Fixpoint find_var (n : node) (r : registry) : Z * registry :=
  match List.find names_variable (children n) with
  | Some c => get_name_id_sorted (symbol c) r
  | None =>
      (fix descend (cs : list node) (i : nat) : Z * registry :=
         match cs with
         | [] => (0, r)
         | c :: cs' =>
             if descends n i then find_var c r else descend cs' (S i)
         end) (children n) 0%nat
  end.

(** The first loop of [sort_declarations]:
    [combined_data.push_back(std::make_pair(find_var(v[i]), v[i]))]
    for [i] from [start] up to [end]. *)
Fixpoint tag_commands (v : list node) (indices : list Z) (r : registry)
  : option (list (Z * node) * registry) :=
  match indices with
  | [] => Some ([], r)
  | i :: indices' =>
      match at_ v i with
      | None => None
      | Some c =>
          let '(tag, r1) := find_var c r in
          match tag_commands v indices' r1 with
          | None => None
          | Some (rest, r2) => Some ((tag, c) :: rest, r2)
          end
      end
  end.

Section declaration_sort.

Variable std_sort : ∀ A : Type, (A → A → bool) → list A → list A.

(** [void sort_declarations(std::vector<node *> *v, size_t start,
                            size_t end)].
    The function reads through [v] and writes to [commands]; its only
    caller passes [&commands], so both are the one buffer [v] here.  The
    registry is the first-occurrence one, which [find_var] looks up (and
    may extend).  [None] stands for undefined behaviour. *)
Definition sort_declarations (v : list node) (start end_ : Z)
    (r : registry) : option (list node * registry) :=
  match tag_commands v (seqZ start (end_ - start)) r with
  | None => None
  | Some (combined_data, r') =>
      let sorted := std_sort (Z * node) pair_lt combined_data in
      if bool_decide (Z.of_nat (length sorted) = u64 (end_ - start))
      then
        match write_back v start 0 (sorted.*2) with
        | None => None
        | Some v' => Some (v', r')
        end
      else None
  end.

End declaration_sort.

(** ** The rank file *)

(** [std::vector<float> get_ranks(int size)].  The rank file is given by
    the values that can be read from it one after the other, [None] when
    it cannot be opened.  The diagnostics the function writes to the error
    stream are left out.  [size] is the value of the [int] parameter where
    it is not negative.  The caller passes the length [j - i] of a run, a
    [size_t]: the two agree for a run of fewer than [2^31] commands, and
    the conversion of a longer run's length is not rendered. *)
Definition get_ranks (ranks_file : option (list float)) (size : nat)
  : list float :=
  match ranks_file with
  | None => replicate size 0%Q
  | Some values =>
      if (size <=? length values)%nat then take size values
      else replicate size 0%Q
  end.

(** ** Process state *)

(** [enum annotation_mode { none, pattern, all };] *)
Inductive annotation_mode : Type := none | pattern | all.

(** The option flags, fixed once the command line has been read. *)
Record options : Type := Options {
  no_scramble : bool;
  gen_ucore : bool;
  gen_mval : bool;
  gen_proof : bool;
  ranks_file : option (list float)
}.

(** The mutable globals, and the text sent to the output stream. *)
Record state : Type := State {
  seed : Z;
  names : registry;
  names_sorted : registry;
  annotation_n : Z;
  commands : list node;
  cout : string
}.

(** Assignments to the single globals. *)
Definition set_names_sorted (r : registry) (s : state) : state :=
  State (seed s) (names s) r (annotation_n s) (commands s) (cout s).
Definition set_annotation_n (n : Z) (s : state) : state :=
  State (seed s) (names s) (names_sorted s) n (commands s) (cout s).
Definition set_commands (v : list node) (s : state) : state :=
  State (seed s) (names s) (names_sorted s) (annotation_n s) v (cout s).
Definition set_cout (o : string) (s : state) : state :=
  State (seed s) (names s) (names_sorted s) (annotation_n s) (commands s) o.
Definition set_seed_of (x : Z) (s : state) : state :=
  State x (names s) (names_sorted s) (annotation_n s) (commands s) (cout s).

(** The state at program start: [next_name_id_sorted = 1], the static
    counter of [make_annotation_name] at 1, everything else empty. *)
Definition initial_state : state :=
  State 0 registry_init registry_init 1 [] "".

(** A computation over the process state. *)
Definition M (A : Type) : Type := state → outcome (A * state).

Definition ret {A : Type} (x : A) : M A := λ s, Ok (x, s).
Definition bind {A B : Type} (m : M A) (k : A → M B) : M B :=
  λ s, match m s with
       | Ok (x, s') => k x s'
       | Throw w => Throw w
       | Undefined => Undefined
       | OutOfFuel => OutOfFuel
       end.
Definition throw {A : Type} (what : string) : M A := λ _, Throw what.
Definition undefined {A : Type} : M A := λ _, Undefined.
Definition out_of_fuel {A : Type} : M A := λ _, OutOfFuel.
Definition gets {A : Type} (f : state → A) : M A := λ s, Ok (f s, s).
Definition modify (f : state → state) : M unit := λ s, Ok (tt, f s).
Definition when_ (b : bool) (m : M unit) : M unit := if b then m else ret tt.

Notation "'do' x <- m ; k" := (bind m (λ x, k))
  (at level 60, x name, m at next level, right associativity).

(** [out << s] *)
Definition emit (s : string) : M unit :=
  modify (λ st, set_cout (cout st +:+ s) st).

(** [std::endl] *)
Definition endl : string := String (ascii_of_nat 10) "".

(** ** The printer *)

(** [std::string make_name(uint64_t name_id)] *)
Definition make_name (name_id : Z) : string := "x" +:+ pretty name_id.

(** [std::string make_annotation_name()], with its static counter. *)
Definition make_annotation_name : M string :=
  do n <- gets annotation_n;
  do _ <- modify (set_annotation_n (u64 (n + 1)));
  ret ("smtcomp" +:+ pretty n).

(** [static bool keep_annotation(const node *n, annotation_mode
    keep_annotations)] *)
Definition keep_annotation (n : node) (keep_annotations : annotation_mode)
  : bool :=
  match keep_annotations with
  | none => false
  | all => true
  | pattern =>
      match children n with
      | [_; c1] => String.eqb (symbol c1) ":pattern"
      | _ => false
      end
  end.

(** The call [get_name_id_sorted(n->symbol.c_str())] on the global
    first-occurrence registry. *)
Definition lookup_sorted (sym : string) : M Z :=
  do r <- gets names_sorted;
  let '(id, r') := get_name_id_sorted sym r in
  do _ <- modify (set_names_sorted r');
  ret id.

(** [void print_node_sorted(std::ostream &out, const node *n,
                            annotation_mode keep_annotations)].
    [n->children[0]] on a node without children is undefined
    behaviour. *)
Fixpoint print_node_sorted (o : options) (keep_annotations : annotation_mode)
    (n : node) {struct n} : M unit :=
  if String.eqb (symbol n) "!" && negb (keep_annotation n keep_annotations)
  then
    match children n with
    | [] => undefined
    | c :: _ => print_node_sorted o keep_annotations c
    end
  else
    do _ <- when_ (needs_parens n) (emit "(");
    do _ <- when_ (negb (String.eqb (symbol n) ""))
      (if no_scramble o || negb (is_name n) then emit (symbol n)
       else
         do name_id <- lookup_sorted (symbol n);
         if name_id =? 0 then emit (symbol n)
         else emit (make_name name_id));
    do name <- (if gen_ucore o && String.eqb (symbol n) "assert"
                then make_annotation_name else ret "");
    do _ <- when_ (negb (String.eqb name "")) (emit " (!");
    do _ <- (fix print_children (cs : list node) (i : nat) : M unit :=
               match cs with
               | [] => ret tt
               | c :: cs' =>
                   do _ <- when_ (descends n i) (emit " ");
                   do _ <- print_node_sorted o keep_annotations c;
                   print_children cs' (S i)
               end) (children n) 0%nat;
    do _ <- when_ (negb (String.eqb name ""))
                  (emit (" :named " +:+ name +:+ ")"));
    do _ <- when_ (needs_parens n) (emit ")");
    when_ (String.eqb (symbol n) "check-sat")
      (do _ <- when_ (gen_ucore o) (emit (endl +:+ "(get-unsat-core)"));
       do _ <- when_ (gen_mval o) (emit (endl +:+ "(get-model)"));
       when_ (gen_proof o) (emit (endl +:+ "(get-proof)"))).

(** [void print_command_sorted(std::ostream &out, const node *n,
                               annotation_mode keep_annotations)] *)
Definition print_command_sorted (o : options)
    (keep_annotations : annotation_mode) (n : node) : M unit :=
  do _ <- print_node_sorted o keep_annotations n;
  emit endl.

(** ** The rank-driven print pass *)

(** [s.find(pat) != std::string::npos] *)
Definition contains (pat s : string) : bool :=
  match String.index 0 pat s with
  | Some _ => true
  | None => false
  end.

(** [commands[i]->symbol == "assert"] *)
Definition is_assert (c : node) : bool := String.eqb (symbol c) "assert".

(** The test of the declaration loop: the symbol contains ["declare"] or
    ["define"]. *)
Definition is_declaration (c : node) : bool :=
  contains "declare" (symbol c) || contains "define" (symbol c).

(** The number of leading elements that satisfy [p]: how far the inner
    [while (j < commands.size() && p(commands[j])) ++j;] advances. *)
Fixpoint count_while (p : node → bool) (l : list node) : nat :=
  match l with
  | [] => O
  | c :: l' => if p c then S (count_while p l') else O
  end.

(** Where the run that starts at [i] ends: the value of [j] after the
    inner [while] loop. *)
Definition run_end (p : node → bool) (v : list node) (i : nat) : nat :=
  (i + 1 + count_while p (drop (i + 1) v))%nat.

Section ranked_printing.

Variable std_sort : ∀ A : Type, (A → A → bool) → list A → list A.
Variable o : options.

(** [shuffle_list(&commands, i, j, ranks)] on the global buffer. *)
Definition shuffle_commands (i j : nat) (ranks : list float) : M unit :=
  λ s, match shuffle_list_ranks std_sort (commands s)
               (Z.of_nat i) (Z.of_nat j) ranks with
       | Some v => Ok (tt, set_commands v s)
       | None => Undefined
       end.

(** [sort_declarations(&commands, i, j)] on the global buffer and the
    global first-occurrence registry. *)
Definition sort_commands (i j : nat) : M unit :=
  λ s, match sort_declarations std_sort (commands s)
               (Z.of_nat i) (Z.of_nat j) (names_sorted s) with
       | Some (v, r) => Ok (tt, set_names_sorted r (set_commands v s))
       | None => Undefined
       end.

(** The first loop of [print_ranked], from index [i] on.  [already] is
    declared in the body of the [for] statement, so every iteration
    starts with [already = false].  The loop advances [i] in every
    iteration; [fuel] bounds the number of iterations. *)
Fixpoint rank_pass (fuel : nat) (i : nat) : M unit :=
  do v <- gets commands;
  match v !! i with
  | None => ret tt
  | Some ci =>
      match fuel with
      | O => out_of_fuel
      | S fuel' =>
          let already := false in
          if is_assert ci && negb already then
            let j := run_end is_assert v i in
            let ranks := get_ranks (ranks_file o) (j - i) in
            do _ <- when_ (1 <? j - i)%nat (shuffle_commands i j ranks);
            rank_pass fuel' j
          else if is_assert ci && already then
            throw "assertions in multiple chunks"
          else rank_pass fuel' (S i)
      end
  end.

(** The second loop: [assign_num(commands[i])] for every assertion. *)
Definition assign_pass : M unit :=
  modify (λ s,
    set_names_sorted
      (foldl (λ r c, if is_assert c then assign_num c r else r)
             (names_sorted s) (commands s)) s).

(** The third loop, over runs of declarations and definitions. *)
Fixpoint declaration_pass (fuel : nat) (i : nat) : M unit :=
  do v <- gets commands;
  match v !! i with
  | None => ret tt
  | Some ci =>
      match fuel with
      | O => out_of_fuel
      | S fuel' =>
          let already := false in
          if is_declaration ci && negb already then
            let j := run_end is_declaration v i in
            do _ <- when_ (1 <? j - i)%nat (sort_commands i j);
            declaration_pass fuel' j
          else if is_declaration ci && already then
            throw "declarations and definitions in multiple chunks"
          else declaration_pass fuel' (S i)
      end
  end.

(** The last loop: every command is printed (and its tree deleted). *)
Fixpoint print_all (keep_annotations : annotation_mode) (v : list node)
  : M unit :=
  match v with
  | [] => ret tt
  | n :: v' =>
      do _ <- print_command_sorted o keep_annotations n;
      print_all keep_annotations v'
  end.

(** [void print_ranked(std::ostream &out, annotation_mode
    keep_annotations)] *)
Definition print_ranked (keep_annotations : annotation_mode) : M unit :=
  do v <- gets commands;
  do _ <- rank_pass (length v) 0;
  do _ <- assign_pass;
  do v <- gets commands;
  do _ <- declaration_pass (length v) 0;
  do v <- gets commands;
  do _ <- print_all keep_annotations v;
  modify (set_commands []).

(** The pipeline of one input chunk: the generator is seeded, the parsed
    commands are in the buffer, and [print_ranked] runs. *)
Definition scramble (keep_annotations : annotation_mode) (s : Z)
    (input : list node) (st : state) : outcome (unit * state) :=
  print_ranked keep_annotations
    (set_commands input (set_seed_of (Prng.set_seed s) st)).

End ranked_printing.

(** ** Unsat-core filtering *)

(** The number of nodes of a tree, and of a work list of trees. *)
Fixpoint node_size (n : node) : nat :=
  S ((fix sizes (cs : list node) : nat :=
        match cs with
        | [] => O
        | c :: cs' => (node_size c + sizes cs')%nat
        end) (children n)).

Definition stack_size (l : list node) : nat :=
  foldr (λ n k, (node_size n + k)%nat) O l.

Lemma node_size_children (n : node) :
  node_size n = S (stack_size (children n)).
Proof.
  destruct n as [a s i p cs]. reflexivity.
Qed.

Lemma stack_size_app (l1 l2 : list node) :
  stack_size (l1 ++ l2) = (stack_size l1 + stack_size l2)%nat.
Proof.
  unfold stack_size. induction l1 as [|x l1 IH]; simpl; [done|].
  rewrite IH. lia.
Qed.

Lemma stack_size_rev (l : list node) : stack_size (rev l) = stack_size l.
Proof.
  induction l as [|x l IH]; simpl; [done|].
  rewrite stack_size_app, IH. simpl. lia.
Qed.

(** The inner loop over the attributes of a ["!"] node, from index 1 on:
    the symbol of the first child of the first [":named"] attribute that
    has children. *)
Fixpoint named_attribute (attrs : list node) : option string :=
  match attrs with
  | [] => None
  | attr :: attrs' =>
      match String.eqb (symbol attr) ":named", children attr with
      | true, c :: _ => Some (symbol c)
      | _, _ => named_attribute attrs'
      end
  end.

(** What one iteration of the work-list loop of [get_named_annot] does
    with the node [cur] it has popped (and not seen before): return a
    name, or push nodes.  The work list is kept with its back at the head
    of the list, so pushing the children in order puts the last child
    first. *)
Definition visit (cur : node) (to_process : list node)
  : string + list node :=
  if String.eqb (symbol cur) "!" then
    let pushed :=
      match children cur with
      | [] => to_process
      | c0 :: _ => c0 :: to_process
      end in
    match named_attribute (tail (children cur)) with
    | Some name => inl name
    | None => inr pushed
    end
  else inr (rev (children cur) ++ to_process).

(** A value together with the equation that it is the value of [x]. *)
Definition inspect {A : Type} (x : A) : {y : A | x = y} := exist _ x eq_refl.

(** The [while (!to_process.empty())] loop of [get_named_annot]; [seen]
    holds the addresses of the nodes visited so far. *)
Equations? get_named_annot_loop (to_process : list node) (seen : gset Z)
  : string by wf (stack_size to_process) lt :=
get_named_annot_loop [] seen := "";
get_named_annot_loop (cur :: rest) seen with decide (addr cur ∈ seen) := {
  | left _ := get_named_annot_loop rest seen
  | right _ with inspect (visit cur rest) := {
      | exist _ (inl name) _ := name
      | exist _ (inr to_process') Hvisit :=
          get_named_annot_loop to_process' ({[addr cur]} ∪ seen)
    }
}.
Proof.
  - rewrite node_size_children. lia.
  - rewrite node_size_children. revert Hvisit. unfold visit.
    destruct (String.eqb (symbol cur) "!").
    + destruct (named_attribute (tail (children cur))); [discriminate|].
      intros [= <-]. destruct (children cur) as [|c0 cs]; simpl; lia.
    + intros [= <-]. rewrite stack_size_app, stack_size_rev. lia.
Qed.

(** [std::string get_named_annot(scrambler::node *root)] *)
Definition get_named_annot (root : node) : string :=
  get_named_annot_loop [root] ∅.

(** Whether [filter_named] keeps the command [cur]:
    the value of [keep] at the end of the loop body. *)
Definition keeps (to_keep : gset string) (cur : node) : bool :=
  if is_assert cur then
    let name := get_named_annot cur in
    negb (negb (String.eqb name "") && negb (bool_decide (name ∈ to_keep)))
  else true.

(** The loop of [filter_named], with [todo] iterations to go:
    [for (i = k = 0; i < commands.size(); ++i)]. *)
Fixpoint filter_named_loop (to_keep : gset string) (todo : nat) (i k : nat)
    (v : list node) : nat * list node :=
  match todo with
  | O => (k, v)
  | S todo' =>
      match v !! i with
      | None => (k, v)
      | Some cur =>
          if keeps to_keep cur
          then filter_named_loop to_keep todo' (S i) (S k) (<[k := cur]> v)
          else filter_named_loop to_keep todo' (S i) k v
      end
  end.

(** [void filter_named(const StringSet &to_keep)], on the buffer [v];
    [commands.resize(k)] keeps the first [k] elements. *)
Definition filter_named (to_keep : gset string) (v : list node) : list node :=
  let '(k, v') := filter_named_loop to_keep (length v) 0 0 v in
  take k v'.

(** ** The core file *)

(** An input stream: the characters not yet read and two of the state
    flags of [std::ios_base].  No read error occurs, so [badbit] is never
    set. *)
Record istream : Type := IStream {
  buffer : string;
  eofbit : bool;
  failbit : bool
}.

(** [std::ifstream src(file)]: the stream of a file that cannot be opened
    has [failbit] set. *)
Definition open_file (contents : option string) : istream :=
  match contents with
  | Some text => IStream text false false
  | None => IStream "" false true
  end.

(** [src.good()] and [(bool)src], which is [!src.fail()]. *)
Definition good (src : istream) : bool :=
  negb (eofbit src) && negb (failbit src).
Definition ok (src : istream) : bool := negb (failbit src).

(** [isspace(c)] in the "C" locale, which is also what the stream skips
    as white space. *)
Definition isspace (ch : ascii) : bool :=
  let n := nat_of_ascii ch in
  ((n =? 32) || ((9 <=? n) && (n <=? 13)))%nat.

Fixpoint skip_ws (b : string) : string :=
  match b with
  | String ch b' => if isspace ch then skip_ws b' else b
  | EmptyString => EmptyString
  end.

(** The characters up to the next white space, and the rest. *)
Fixpoint read_word (b : string) : string * string :=
  match b with
  | String ch b' =>
      if isspace ch then (EmptyString, b)
      else let '(w, rest) := read_word b' in (String ch w, rest)
  | EmptyString => (EmptyString, EmptyString)
  end.

(** [src >> name] for a [std::string].  The stream first constructs a
    sentry, which fails (setting [failbit]) when the stream is not good
    or when only white space is left; [name] is erased and assigned only
    after the sentry has succeeded, so a failed extraction leaves [name]
    as it was. *)
Definition extract (name : string) (src : istream) : string * istream :=
  if good src then
    match skip_ws (buffer src) with
    | EmptyString => (name, IStream EmptyString true true)
    | b =>
        let '(w, rest) := read_word b in
        (w, IStream rest (String.eqb rest "") false)
    end
  else (name, IStream (buffer src) (eofbit src) true).

(** [src.get(c)] *)
Definition get_char (c : ascii) (src : istream) : ascii * istream :=
  if good src then
    match buffer src with
    | EmptyString => (c, IStream EmptyString true true)
    | String ch rest => (ch, IStream rest false false)
    end
  else (c, IStream (buffer src) (eofbit src) true).

(** [while (src.get(c) && c != '(') { if (!isspace(c)) return false; }]:
    [inl tt] is the [return false], [inr] the stream after the loop.
    [None] is the cut-off of the bound [fuel] on the iterations. *)
Fixpoint skip_to_paren (fuel : nat) (c : ascii) (src : istream)
  : option (unit + istream) :=
  match fuel with
  | O => None
  | S fuel' =>
      let '(c, src) := get_char c src in
      if ok src && negb (Ascii.eqb c "(") then
        if negb (isspace c) then Some (inl tt)
        else skip_to_paren fuel' c src
      else Some (inr src)
  end.

(** The last character of a non-empty string is [')']. *)
Definition ends_with_paren (name : string) : bool :=
  bool_decide (String.get (String.length name - 1) name = Some ")"%char).

(** [while (src && !done) { ... }] of [parse_core]. *)
Fixpoint read_names (fuel : nat) (name : string) (done : bool)
    (src : istream) (out : gset string) : option (bool * gset string) :=
  if ok src && negb done then
    match fuel with
    | O => None
    | S fuel' =>
        let '(name, src) := extract name src in
        if String.eqb name "" then Some (false, out)
        else
          let closes := ends_with_paren name in
          let name :=
            if closes then String.substring 0 (String.length name - 1) name
            else name in
          let done := if closes then true else done in
          let out := if String.eqb name "" then out else {[name]} ∪ out in
          read_names fuel' name done src out
    end
  else Some (true, out).

(** [bool parse_core(std::istream &src, StringSet &out)]: the result and
    the final contents of [out].  Each loop iteration consumes a character
    or sets [failbit], which bounds the iterations by the length of the
    input.  The line that reports the parsed names is left out. *)
Definition parse_core (src : istream) (out : gset string)
  : option (bool * gset string) :=
  let fuel := S (S (String.length (buffer src))) in
  let '(name, src) := extract "" src in
  if negb (ok src) || negb (String.eqb name "unsat") then Some (false, out)
  else
    match skip_to_paren fuel "000"%char src with
    | None => None
    | Some (inl _) => Some (false, out)
    | Some (inr src) =>
        if negb (ok src) then Some (false, out)
        else read_names fuel name false src out
    end.

(** ** Notions used to state the properties *)

(** A sorting function that meets [sort_contract]: it instantiates the
    statements that hold for every implementation of [std::sort]. *)
Definition ref_sort (A : Type) (lt : A → A → bool) (l : list A) : list A :=
  @merge_sort A (λ x y, lt y x = false) (λ x y, bool_eq_dec (lt y x) false) l.

(** The [float] values nearest to 0.9 and 0.1. *)
Definition float_0_9 : float := (15099494 # 16777216)%Q.
Definition float_0_1 : float := (13421773 # 134217728)%Q.

(** The rank the comparator reads at index [i]. *)
Definition rank_of (ranks : list float) (i : Z) : float :=
  default 0%Q (at_ ranks i).

(** The window [start, end) of a buffer. *)
Definition window {A : Type} (v : list A) (start end_ : Z) : list A :=
  take (Z.to_nat (end_ - start)) (drop (Z.to_nat start) v).

(** Some node strictly below [n] passes [names_variable]. *)
Fixpoint mentions_variable (n : node) : bool :=
  (fix some (cs : list node) : bool :=
     match cs with
     | [] => false
     | c :: cs' => names_variable c || mentions_variable c || some cs'
     end) (children n).

(** The tag [sort_declarations] gives a command when its calls of
    [find_var] start from the registry [r]. *)
Definition tag_of (r : registry) (c : node) : Z := (find_var c r).1.

(** The node the specification tags a command with, for comparison with
    [find_var]: the first node below [n], in depth-first order, that
    passes [names_variable]. *)
Fixpoint spec_first_variable (n : node) : option node :=
  (fix first (cs : list node) : option node :=
     match cs with
     | [] => None
     | c :: cs' =>
         if names_variable c then Some c
         else match spec_first_variable c with
              | Some x => Some x
              | None => first cs'
              end
     end) (children n).

(** The tag the specification describes: the identifier of that node, 0
    when there is none. *)
Definition spec_tag (r : registry) (n : node) : Z :=
  match spec_first_variable n with
  | Some c => shown_id r (unquote (symbol c))
  | None => 0
  end.

(** The order of [pair_lt] on tagged commands, as a non-strict relation:
    ascending tags, and ascending addresses among equal tags. *)
Definition tag_addr_le (r : registry) (x y : node) : Prop :=
  tag_of r x < tag_of r y
  ∨ (tag_of r x = tag_of r y ∧ addr x ≤ addr y).

(** The ways a call can fail to return. *)
Inductive signal : Type := SigThrow | SigUndefined | SigOutOfFuel.

(** The outcome is the failure [sig]. *)
Definition raises {A : Type} (sig : signal) (r : outcome A) : bool :=
  match sig, r with
  | SigThrow, Throw _ => true
  | SigUndefined, Undefined => true
  | SigOutOfFuel, OutOfFuel => true
  | _, _ => false
  end.

(** The outcome is an exception. *)
Definition throws {A : Type} (r : outcome A) : bool := raises SigThrow r.

(** The outcome is the cut-off of a loop bound. *)
Definition out_of_bound {A : Type} (r : outcome A) : bool :=
  raises SigOutOfFuel r.

(** The text printed and the generator state of a finished run. *)
Definition printed (r : outcome (unit * state)) : option string :=
  match r with
  | Ok (_, s) => Some (cout s)
  | _ => None
  end.

Definition final_seed (r : outcome (unit * state)) : option Z :=
  match r with
  | Ok (_, s) => Some (seed s)
  | _ => None
  end.

(** The outcome with the generator state of its final state replaced. *)
Definition reseed (x : Z) {A : Type} (r : outcome (A * state))
  : outcome (A * state) :=
  match r with
  | Ok (y, s) => Ok (y, set_seed_of x s)
  | Throw w => Throw w
  | Undefined => Undefined
  | OutOfFuel => OutOfFuel
  end.

(** The state of the registry after the declarations [names]: [syms] are
    the unquoted symbols in declaration order. *)
Definition registry_inv (r : registry) (syms : list string) : Prop :=
  next_name_id r = 1 + Z.of_nat (size (list_to_set syms : gset string))
  ∧ (∀ s, s ∉ syms → name_ids r !! s = None)
  ∧ (∀ i s, syms !! i = Some s → s ∉ take i syms →
       name_ids r !! s
       = Some (1 + Z.of_nat (size (list_to_set (take i syms) : gset string)))).

(** [v'] differs from [v] by a rearrangement inside the window
    [start, end) only. *)
Definition rearranged_within (start end_ : nat) (v v' : list node) : Prop :=
  length v' = length v
  ∧ take start v' = take start v
  ∧ drop end_ v' = drop end_ v
  ∧ take (end_ - start) (drop start v') ≡ₚ take (end_ - start) (drop start v).

(** Two registries that show the same identifiers. *)
Definition same_shown (r1 r2 : registry) : Prop :=
  ∀ s, shown_id r1 s = shown_id r2 s.

(** A computation that never fails in the way [sig]. *)
Definition never {A : Type} (sig : signal) (m : M A) : Prop :=
  ∀ s, raises sig (m s) = false.

(** A computation that neither reads nor writes the generator state:
    started with another generator state it does the same, and leaves that
    other generator state behind. *)
Definition seed_blind {A : Type} (m : M A) : Prop :=
  ∀ x s, m (set_seed_of x s) = reseed x (m s).

(** A buffer whose assertions, and whose declarations, come in two runs
    each: [(declare-fun f () Int) (assert p) (declare-fun g () Int)
    (assert q) (check-sat)]. *)
Definition split_runs : list node :=
  [ Node 100 "declare-fun" false true
      [ Node 101 "f" true false []; Node 102 "" false true [];
        Node 103 "Int" false false [] ];
    Node 200 "assert" false true [Node 201 "p" false false []];
    Node 300 "declare-fun" false true
      [ Node 301 "g" true false []; Node 302 "" false true [];
        Node 303 "Int" false false [] ];
    Node 400 "assert" false true [Node 401 "q" false false []];
    Node 500 "check-sat" false true [] ].

(** The lines [print_ranked] prints for [split_runs]. *)
Definition split_runs_text : string :=
  "(declare-fun f () Int)" +:+ endl +:+ "(assert p)" +:+ endl
  +:+ "(declare-fun g () Int)" +:+ endl +:+ "(assert q)" +:+ endl
  +:+ "(check-sat)" +:+ endl.

(** ** Notions for further properties of the registries *)

(** A symbol between quote markers: [|s|]. *)
Definition quoted (s : string) : string := "|" +:+ s +:+ "|".

(** What the comment on the registry calls a bijection, as far as it
    goes: every identifier is below the next available one, and no two
    symbols share an identifier other than 0. *)
Definition registry_sound (r : registry) : Prop :=
  1 ≤ next_name_id r
  ∧ (∀ s v, name_ids r !! s = Some v → 0 ≤ v < next_name_id r)
  ∧ (∀ s1 s2 v, name_ids r !! s1 = Some v → name_ids r !! s2 = Some v →
       v ≠ 0 → s1 = s2).

(** ** Notions for further properties of the unsat-core filter *)

(** The tree contains an annotation node (symbol ["!"]), the root
    included. *)
Fixpoint has_annotation (n : node) : bool :=
  String.eqb (symbol n) "!"
  || (fix some (cs : list node) : bool :=
        match cs with
        | [] => false
        | c :: cs' => has_annotation c || some cs'
        end) (children n).

(** An assertion whose formula is wrapped in an annotation:
    [(assert (! body attrs))], the two nodes at the addresses [a] and
    [b]. *)
Definition annotated_assertion (a b : Z) (body : node) (attrs : list node)
  : node :=
  Node a "assert" false true [Node b "!" false true (body :: attrs)].

(** ** Notions for further properties of the core file *)

(** Every character of the string is white space. *)
Fixpoint all_space (s : string) : bool :=
  match s with
  | EmptyString => true
  | String ch s' => isspace ch && all_space s'
  end.

(** No character of the string is white space. *)
Fixpoint no_space (s : string) : bool :=
  match s with
  | EmptyString => true
  | String ch s' => negb (isspace ch) && no_space s'
  end.

(** The string is empty or begins with white space: a token can end in
    front of it. *)
Definition starts_blank (s : string) : bool :=
  match s with
  | EmptyString => true
  | String ch _ => isspace ch
  end.

(** A name as a core file lists it: not empty, without white space, and
    not ending in a closing parenthesis. *)
Definition core_name (n : string) : Prop :=
  n ≠ ""%string ∧ no_space n = true ∧ ends_with_paren n = false.

(** The names separated by spaces, the closing parenthesis after the
    last one: [a b c)]. *)
Fixpoint core_list (names : list string) : string :=
  match names with
  | [] => ")"
  | n :: ns =>
      match ns with
      | [] => n +:+ ")"
      | _ :: _ => n +:+ " " +:+ core_list ns
      end
  end.

(** A core file as a solver prints it: [unsat], a line break, the
    parenthesised list, and whatever follows. *)
Definition core_file (names : list string) (rest : string) : string :=
  "unsat" +:+ endl +:+ "(" +:+ core_list names +:+ rest.

(** ** Notions for further properties of the print pass *)

(** Every annotation node (symbol ["!"]) of the tree has a child: the
    term it annotates. *)
Fixpoint annotations_have_body (n : node) : bool :=
  (negb (String.eqb (symbol n) "!")
   || match children n with [] => false | _ :: _ => true end)
  && (fix every (cs : list node) : bool :=
        match cs with
        | [] => true
        | c :: cs' => annotations_have_body c && every cs'
        end) (children n).

(** [v'] holds the commands of [v] in another order, in which every
    command that does not satisfy [p] has kept its place, and no command
    has moved across such a command. *)
Definition same_places (p : node → bool) (v v' : list node) : Prop :=
  v' ≡ₚ v
  ∧ ∀ k c, v !! k = Some c → p c = false →
      v' !! k = Some c ∧ take k v' ≡ₚ take k v.

(** The registry after the second loop of [print_ranked] over the buffer
    [v]: the names of the assertions, numbered by first occurrence. *)
Definition first_occurrences (v : list node) (r : registry) : registry :=
  foldl (λ r c, if is_assert c then assign_num c r else r) r v.

(** What the printer leaves alone: the generator, the declaration
    registry and the buffer stay, the output only grows by [text], the
    first-occurrence registry shows what it showed and its counter stays;
    the counter of annotation names moves only with [gen_ucore] set, and
    the first-occurrence registry is not touched at all with
    [no_scramble] set. *)
Definition printer_frame (o : options) (s s' : state) : Prop :=
  seed s' = seed s
  ∧ names s' = names s
  ∧ commands s' = commands s
  ∧ (∃ text, cout s' = cout s +:+ text)
  ∧ same_shown (names_sorted s') (names_sorted s)
  ∧ next_name_id (names_sorted s') = next_name_id (names_sorted s)
  ∧ (gen_ucore o = false → annotation_n s' = annotation_n s)
  ∧ (no_scramble o = true → names_sorted s' = names_sorted s).

(** The computation [m], started in [s], returns, in a state related to
    [s] by [R]. *)
Definition returns_with {A : Type} (R : state → state → Prop) (m : M A)
    (s : state) : Prop :=
  ∃ x s', m s = Ok (x, s') ∧ R s s'.

(** ** Notions for further properties of the generator and the ids *)

(** [void shuffle_list(std::vector<node *> *v)]: the whole vector. *)
Definition shuffle_list_all (no_scramble : bool) (v : list node) (seed : Z)
  : option (list node * Z) :=
  shuffle_list no_scramble v 0 (Z.of_nat (length v)) seed.

(** From a sound registry [r] to [r'], which is sound again, at most [k]
    identifiers have been handed out, and every entry of [r] is still in
    [r']. *)
Definition extends_by (k : Z) (r r' : registry) : Prop :=
  registry_sound r →
  registry_sound r'
  ∧ next_name_id r ≤ next_name_id r' ≤ next_name_id r + k
  ∧ (∀ s v, name_ids r !! s = Some v → name_ids r' !! s = Some v).

(** ** Node construction *)

(** The children a constructor pushes for an argument that may be
    [NULL]. *)
Definition pushed (n : option node) : list node :=
  match n with
  | Some c => [c]
  | None => []
  end.

(** [node *make_node(const char *s, node *n1, node *n2)]; [fresh] is the
    address [new node] returns.  Calls with fewer arguments pass [NULL]
    for the others. *)
Definition make_node (fresh : Z) (s : option string) (n1 n2 : option node)
  : node :=
  let symbol_ := default "" s in
  let children_ := pushed n1 ++ pushed n2 in
  let needs_parens_ :=
    if negb (String.eqb symbol_ "")
       && match children_ with [] => true | _ :: _ => false end
    then false else true in
  Node fresh symbol_ false needs_parens_ children_.

(** ** The benchmark's logic *)

(** How a call of the functions below ends: it returns, the process
    leaves through [exit(status)], an [assert] fails, or the behaviour is
    undefined.  [Unfinished] is no behaviour of the program: it marks a
    loop of the embedding that has used up the iterations it was
    given. *)
Inductive result (A : Type) : Type :=
  | Returns (x : A)
  | Exits (status : Z)
  | Aborts
  | Faults
  | Unfinished.
Arguments Returns {A} x.
Arguments Exits {A} status.
Arguments Aborts {A}.
Arguments Faults {A}.
Arguments Unfinished {A}.

(** The global [logic] and the [static int result] of each of the four
    queries.  The diagnostics written to the error stream are left
    out. *)
Record logic_state : Type := LogicState {
  logic : string;
  result_dl : Z;
  result_arith : Z;
  result_bv : Z;
  result_fp : Z
}.

(** At program start: no logic, every [result] at -1. *)
Definition logic_init : logic_state := LogicState "" (-1) (-1) (-1) (-1).

(** A computation over a state of type [S] that ends in a [result]. *)
Definition run (S A : Type) : Type := S → result (A * S).

Definition rret {S A : Type} (x : A) : run S A := λ st, Returns (x, st).
Definition rbind {S A B : Type} (m : run S A) (k : A → run S B) : run S B :=
  λ st, match m st with
        | Returns (x, st') => k x st'
        | Exits status => Exits status
        | Aborts => Aborts
        | Faults => Faults
        | Unfinished => Unfinished
        end.
Definition rabort {S A : Type} : run S A := λ _, Aborts.
Definition rfault {S A : Type} : run S A := λ _, Faults.

Notation "'call' x <- m ; k" := (rbind m (λ x, k))
  (at level 60, x name, m at next level, right associativity).

(** A computation over the logic state. *)
Definition L (A : Type) : Type := run logic_state A.

(** [void set_logic(const std::string &l)] *)
Definition set_logic (l : string) : L unit :=
  λ st,
    if negb (String.eqb (logic st) "") then Exits 1
    else Returns (tt, LogicState l (result_dl st) (result_arith st)
                        (result_bv st) (result_fp st)).

(** The body the four queries share: [result] is read through [get] and
    written through [put], and [found] is the test on the logic's
    name. *)
Definition logic_query (get : logic_state → Z)
    (put : Z → logic_state → logic_state) (found : string → bool)
  : L bool :=
  λ st,
    if get st =? -1 then
      if String.eqb (logic st) "" then Exits 1
      else
        let result_ := if found (logic st) then 1 else 0 in
        Returns (result_ =? 1, put result_ st)
    else Returns (get st =? 1, st).

(** [bool logic_is_dl()] *)
Definition logic_is_dl : L bool :=
  logic_query result_dl
    (λ x st, LogicState (logic st) x (result_arith st) (result_bv st)
               (result_fp st))
    (λ l, contains "IDL" l || contains "RDL" l).

(** [bool logic_is_arith()] *)
Definition logic_is_arith : L bool :=
  logic_query result_arith
    (λ x st, LogicState (logic st) (result_dl st) x (result_bv st)
               (result_fp st))
    (λ l, contains "IA" l || contains "RA" l).

(** [bool logic_is_bv()] *)
Definition logic_is_bv : L bool :=
  logic_query result_bv
    (λ x st, LogicState (logic st) (result_dl st) (result_arith st) x
               (result_fp st))
    (λ l, contains "BV" l).

(** [bool logic_is_fp()] *)
Definition logic_is_fp : L bool :=
  logic_query result_fp
    (λ x st, LogicState (logic st) (result_dl st) (result_arith st)
               (result_bv st) x)
    (λ l, contains "FP" l).

(** The prologue [is_commutative] and [flip_antisymm] share: the symbol
    of the node, or of its first child when the node is a qualified
    identifier [(as identifier sort)], with the two [assert]s. *)
Definition operator_symbol (n : node) : L string :=
  call s <- (if String.eqb (symbol n) "as" then
               match children n with
               | [] => rabort
               | c :: _ => rret (symbol c)
               end
             else rret (symbol n));
  if String.eqb s "" then rabort else rret s.

(** Membership of [s] in a list of operator names: a chain of
    [s == "..."] joined by [||]. *)
Definition one_of (names_ : list string) (s : string) : bool :=
  existsb (String.eqb s) names_.

(** [int is_commutative(const node *n)] *)
Definition is_commutative (n : node) : L Z :=
  call s <- operator_symbol n;
  if one_of ["and"; "or"; "xor"; "distinct"] s then rret 0
  else
    call dl <- logic_is_dl;
    if negb dl && String.eqb s "=" then rret 0
    else
      call arith <- logic_is_arith;
      if arith && one_of ["*"; "+"] s then rret 0
      else
        call bv <- logic_is_bv;
        if bv && one_of ["bvand"; "bvor"; "bvxor"; "bvnand"; "bvnor";
                         "bvcomp"; "bvadd"; "bvmul"] s
        then rret 0
        else
          call fp <- logic_is_fp;
          if fp && String.eqb s "fp.eq" then rret 0
          else if fp && one_of ["fp.add"; "fp.mul"] s then rret 1
          else rret (-1).

(** The [if ... else if ...] chains of [flip_antisymm]: the operator
    with its arguments exchanged. *)
Definition flip_arith (s : string) : option string :=
  if String.eqb s "<" then Some ">"
  else if String.eqb s ">" then Some "<"
  else if String.eqb s "<=" then Some ">="
  else if String.eqb s ">=" then Some "<="
  else None.

Definition flip_bv (s : string) : option string :=
  if String.eqb s "bvslt" then Some "bvsgt"
  else if String.eqb s "bvsle" then Some "bvsge"
  else if String.eqb s "bvult" then Some "bvugt"
  else if String.eqb s "bvule" then Some "bvuge"
  else if String.eqb s "bvsgt" then Some "bvslt"
  else if String.eqb s "bvsge" then Some "bvsle"
  else if String.eqb s "bvugt" then Some "bvult"
  else if String.eqb s "bvuge" then Some "bvule"
  else None.

Definition flip_fp (s : string) : option string :=
  if String.eqb s "fp.leq" then Some "fp.geq"
  else if String.eqb s "fp.lt" then Some "fp.gt"
  else if String.eqb s "fp.geq" then Some "fp.leq"
  else if String.eqb s "fp.gt" then Some "fp.lt"
  else None.

(** [bool flip_antisymm(const node *n, node ** const out_n)].  The
    result is [Some m] for the return value [true] with [m] stored in
    [out_n], and [None] for the return value [false], which leaves
    [out_n] as it is; it comes with the generator state after the call.
    [fresh] is the address of the node [make_node] allocates. *)
Definition flip_antisymm (no_scramble_ : bool) (fresh : Z) (n : node)
    (seed_ : Z) : L (option node * Z) :=
  if no_scramble_ then rret (None, seed_)
  else
    match Prng.next_rand_int 2 seed_ with
    | None => λ _, Faults
    | Some (r, seed') =>
        if r =? 0 then rret (None, seed')
        else
          call s <- operator_symbol n;
          let out s' := rret (Some (make_node fresh (Some s') None None),
                              seed') in
          call arith <- logic_is_arith;
          match (if arith then flip_arith s else None) with
          | Some s' => out s'
          | None =>
              call bv <- logic_is_bv;
              match (if bv then flip_bv s else None) with
              | Some s' => out s'
              | None =>
                  call fp <- logic_is_fp;
                  match (if fp then flip_fp s else None) with
                  | Some s' => out s'
                  | None => rret (None, seed')
                  end
              end
          end
    end.

(** The calls a client may make on the logic state, and a run of them
    that stops at the first call that does not return. *)
Inductive logic_call : Type :=
  | SetLogic (l : string)
  | IsDl
  | IsArith
  | IsBv
  | IsFp.

Definition run_call (c : logic_call) : L (option bool) :=
  match c with
  | SetLogic l => call _ <- set_logic l; rret None
  | IsDl => call b <- logic_is_dl; rret (Some b)
  | IsArith => call b <- logic_is_arith; rret (Some b)
  | IsBv => call b <- logic_is_bv; rret (Some b)
  | IsFp => call b <- logic_is_fp; rret (Some b)
  end.

Fixpoint run_calls (cs : list logic_call) : L (list (option bool)) :=
  match cs with
  | [] => rret []
  | c :: cs' =>
      call x <- run_call c;
      call xs <- run_calls cs';
      rret (x :: xs)
  end.

(** What a query answers in the logic [l]. *)
Definition answer_in (l : string) (c : logic_call) : option bool :=
  match c with
  | SetLogic _ => None
  | IsDl => Some (contains "IDL" l || contains "RDL" l)
  | IsArith => Some (contains "IA" l || contains "RA" l)
  | IsBv => Some (contains "BV" l)
  | IsFp => Some (contains "FP" l)
  end.

(** A call of [set_logic] that sets nothing, or sets [l]. *)
Definition sets_only (l : string) (c : logic_call) : Prop :=
  match c with
  | SetLogic l' => l' = "" ∨ l' = l
  | _ => True
  end.

(** The [result] of a query is not yet computed, or it is the answer for
    the logic [l], which is set. *)
Definition cached (found : string → bool) (l : string) (x : Z) : Prop :=
  x = -1 ∨ (l ≠ "" ∧ x = if found l then 1 else 0).

(** No [result] holds an answer for another logic than the current
    one. *)
Definition results_current (st : logic_state) : Prop :=
  cached (λ l, contains "IDL" l || contains "RDL" l) (logic st)
         (result_dl st)
  ∧ cached (λ l, contains "IA" l || contains "RA" l) (logic st)
           (result_arith st)
  ∧ cached (contains "BV") (logic st) (result_bv st)
  ∧ cached (contains "FP") (logic st) (result_fp st).

(** The operator [flip_antisymm] exchanges [s] for, when the queries
    answer [arith], [bv] and [fp]. *)
Definition flipped_by (arith bv fp : bool) (s : string) : option string :=
  match (if arith then flip_arith s else None) with
  | Some s' => Some s'
  | None =>
      match (if bv then flip_bv s else None) with
      | Some s' => Some s'
      | None => if fp then flip_fp s else None
      end
  end.

(** The same in the logic [l]. *)
Definition flipped_in (l : string) (s : string) : option string :=
  flipped_by (contains "IA" l || contains "RA" l) (contains "BV" l)
             (contains "FP" l) s.

(** The answer of [is_commutative] for the operator [s] when the queries
    answer [dl], [arith], [bv] and [fp]. *)
Definition commutative_by (dl arith bv fp : bool) (s : string) : Z :=
  if one_of ["and"; "or"; "xor"; "distinct"] s then 0
  else if negb dl && String.eqb s "=" then 0
  else if arith && one_of ["*"; "+"] s then 0
  else if bv && one_of ["bvand"; "bvor"; "bvxor"; "bvnand"; "bvnor";
                        "bvcomp"; "bvadd"; "bvmul"] s then 0
  else if fp && String.eqb s "fp.eq" then 0
  else if fp && one_of ["fp.add"; "fp.mul"] s then 1
  else -1.

(** The same in the logic [l]. *)
Definition commutative_in (l : string) (s : string) : Z :=
  commutative_by (contains "IDL" l || contains "RDL" l)
                 (contains "IA" l || contains "RA" l) (contains "BV" l)
                 (contains "FP" l) s.

(** ** The random permutation of name ids *)

(** The loop of [print_scrambled] that appends the new name ids:
    [for (size_t i = old_size; i < next_name_id; ++i) {
       permuted_name_ids.push_back(i);
       assert(permuted_name_ids[i] == i); }],
    with [k] iterations to go. *)
Fixpoint push_ids (k : nat) (i : Z) (table : list Z) : result (list Z) :=
  match k with
  | O => Returns table
  | S k' =>
      let table' := table ++ [i] in
      match at_ table' i with
      | None => Faults
      | Some x => if x =? i then push_ids k' (u64 (i + 1)) table' else Aborts
      end
  end.

(** The Knuth shuffle of [print_scrambled]:
    [for (size_t i = old_size; i < next_name_id - 1; ++i) {
       size_t j = i + next_rand_int(next_name_id - i);
       std::swap(permuted_name_ids[i], permuted_name_ids[j]); }],
    with [k] iterations to go. *)
Fixpoint knuth_shuffle (k : nat) (i : Z) (next_name_id_ : Z)
    (table : list Z) (seed_ : Z) : result (list Z * Z) :=
  match k with
  | O => Returns (table, seed_)
  | S k' =>
      match Prng.next_rand_int (u64 (next_name_id_ - i)) seed_ with
      | None => Faults
      | Some (r, seed') =>
          match swap_at table i (u64 (i + r)) with
          | None => Faults
          | Some table' =>
              knuth_shuffle k' (u64 (i + 1)) next_name_id_ table' seed'
          end
      end
  end.

(** The block of [print_scrambled] that extends [permuted_name_ids] by
    the name ids declared since the last call, and shuffles the new
    part.  It returns the table and the generator state. *)
Definition extend_permutation (table : list Z) (next_name_id_ : Z)
    (seed_ : Z) : result (list Z * Z) :=
  let old_size := Z.of_nat (length table) in
  if negb (old_size <=? next_name_id_) then Aborts
  else if old_size <? next_name_id_ then
    match push_ids (Z.to_nat (next_name_id_ - old_size)) old_size table with
    | Returns table1 =>
        if negb (Z.of_nat (length table1) =? next_name_id_) then Aborts
        else
          let old_size := if old_size =? 0 then 1 else old_size in
          knuth_shuffle (Z.to_nat (u64 (next_name_id_ - 1) - old_size))
                        old_size next_name_id_ table1 seed_
    | Exits status => Exits status
    | Aborts => Aborts
    | Faults => Faults
    | Unfinished => Unfinished
    end
  else Returns (table, seed_).

(** What [permuted_name_ids] is meant to be: a permutation of the
    indices it has, which leaves index 0 alone. *)
Definition permutation_table (table : list Z) : Prop :=
  table ≡ₚ seqZ 0 (Z.of_nat (length table))
  ∧ (table = [] ∨ table !! 0%nat = Some 0).

(** ** The scrambling print pass *)

Module Scrambled.

(** The globals [print_scrambled] and its callees work on, and the text
    sent to the output stream.  [names] is [name_ids] with
    [next_name_id]. *)
Record state : Type := State {
  seed : Z;
  names : registry;
  permuted_name_ids : list Z;
  annotation_n : Z;
  commands : list node;
  cout : string
}.

Definition set_seed_and_commands (x : Z) (v : list node) (s : state)
  : state :=
  State x (names s) (permuted_name_ids s) (annotation_n s) v (cout s).
Definition set_names (r : registry) (s : state) : state :=
  State (seed s) r (permuted_name_ids s) (annotation_n s) (commands s)
        (cout s).
Definition set_table (x : Z) (table : list Z) (s : state) : state :=
  State x (names s) table (annotation_n s) (commands s) (cout s).
Definition set_annotation_n (n : Z) (s : state) : state :=
  State (seed s) (names s) (permuted_name_ids s) n (commands s) (cout s).
Definition set_commands (v : list node) (s : state) : state :=
  State (seed s) (names s) (permuted_name_ids s) (annotation_n s) v (cout s).

Definition gets {A : Type} (f : state → A) : run state A :=
  λ s, Returns (f s, s).
Definition modify (f : state → state) : run state unit :=
  λ s, Returns (tt, f s).
Definition when_ (b : bool) (m : run state unit) : run state unit :=
  if b then m else rret tt.

(** [out << s] *)
Definition emit (s : string) : run state unit :=
  modify (λ st, State (seed st) (names st) (permuted_name_ids st)
                  (annotation_n st) (commands st) (cout st +:+ s)).

(** [std::string make_annotation_name()], with its static counter. *)
Definition make_annotation_name : run state string :=
  call n <- gets annotation_n;
  call _ <- modify (set_annotation_n (u64 (n + 1)));
  rret ("smtcomp" +:+ pretty n).

(** The call [get_name_id(n->symbol.c_str())] on the global registry. *)
Definition lookup (sym : string) : run state Z :=
  call r <- gets names;
  let '(id, r') := get_name_id sym r in
  call _ <- modify (set_names r');
  rret id.

(** [assert(name_id < permuted_name_ids.size());
     out << make_name(permuted_name_ids[name_id]);] *)
Definition emit_permuted (name_id : Z) : run state unit :=
  call table <- gets permuted_name_ids;
  if negb (name_id <? Z.of_nat (length table)) then rabort
  else
    match at_ table name_id with
    | None => rfault
    | Some x => emit (make_name x)
    end.

(** [void print_node(std::ostream &out, const scrambler::node *n,
                     annotation_mode keep_annotations)].
    [n->children[0]] on a node without children is undefined
    behaviour. *)
Fixpoint print_node (o : options) (keep_annotations : annotation_mode)
    (n : node) {struct n} : run state unit :=
  if String.eqb (symbol n) "!" && negb (keep_annotation n keep_annotations)
  then
    match children n with
    | [] => rfault
    | c :: _ => print_node o keep_annotations c
    end
  else
    call _ <- when_ (needs_parens n) (emit "(");
    call _ <- when_ (negb (String.eqb (symbol n) ""))
      (if no_scramble o || negb (is_name n) then emit (symbol n)
       else
         call name_id <- lookup (symbol n);
         if name_id =? 0 then emit (symbol n)
         else emit_permuted name_id);
    call name <- (if gen_ucore o && String.eqb (symbol n) "assert"
                  then make_annotation_name else rret "");
    call _ <- when_ (negb (String.eqb name "")) (emit " (!");
    call _ <- (fix print_children (cs : list node) (i : nat)
                 : run state unit :=
                 match cs with
                 | [] => rret tt
                 | c :: cs' =>
                     call _ <- when_ (descends n i) (emit " ");
                     call _ <- print_node o keep_annotations c;
                     print_children cs' (S i)
                 end) (children n) 0%nat;
    call _ <- when_ (negb (String.eqb name ""))
                    (emit (" :named " +:+ name +:+ ")"));
    call _ <- when_ (needs_parens n) (emit ")");
    when_ (String.eqb (symbol n) "check-sat")
      (call _ <- when_ (gen_ucore o) (emit (endl +:+ "(get-unsat-core)"));
       call _ <- when_ (gen_mval o) (emit (endl +:+ "(get-model)"));
       when_ (gen_proof o) (emit (endl +:+ "(get-proof)"))).

(** [void print_command(std::ostream &out, const scrambler::node *n,
                        annotation_mode keep_annotations)] *)
Definition print_command (o : options) (keep_annotations : annotation_mode)
    (n : node) : run state unit :=
  call _ <- print_node o keep_annotations n;
  emit endl.

(** [commands[i]->symbol == "declare-fun"] *)
Definition is_declare_fun (c : node) : bool :=
  String.eqb (symbol c) "declare-fun".

(** [shuffle_list(&commands, i, j)] on the global buffer and the global
    generator. *)
Definition shuffle_commands (o : options) (i j : nat) : run state unit :=
  λ s, match shuffle_list (no_scramble o) (commands s)
               (Z.of_nat i) (Z.of_nat j) (seed s) with
       | Some (v, x) => Returns (tt, set_seed_and_commands x v s)
       | None => Faults
       end.

(** The two loops of [print_scrambled] that shuffle runs of consecutive
    commands with the same symbol, from index [i] on; [p] is the test on
    the command, and [fuel] bounds the number of iterations, which
    advance [i] every time. *)
Fixpoint shuffle_runs (o : options) (p : node → bool) (fuel : nat) (i : nat)
  : run state unit :=
  call v <- gets commands;
  match v !! i with
  | None => rret tt
  | Some ci =>
      match fuel with
      | O => λ _, Unfinished
      | S fuel' =>
          if p ci then
            let j := run_end p v i in
            call _ <- when_ (1 <? j - i)%nat (shuffle_commands o i j);
            shuffle_runs o p fuel' j
          else shuffle_runs o p fuel' (S i)
      end
  end.

(** The block that extends the table, on the globals. *)
Definition extend_table : run state unit :=
  λ s, match extend_permutation (permuted_name_ids s)
               (next_name_id (names s)) (seed s) with
       | Returns (table, x) => Returns (tt, set_table x table s)
       | Exits status => Exits status
       | Aborts => Aborts
       | Faults => Faults
       | Unfinished => Unfinished
       end.

(** The last loop: every command is printed (and its tree deleted). *)
Fixpoint print_all (o : options) (keep_annotations : annotation_mode)
    (v : list node) : run state unit :=
  match v with
  | [] => rret tt
  | n :: v' =>
      call _ <- print_command o keep_annotations n;
      print_all o keep_annotations v'
  end.

(** [void print_scrambled(std::ostream &out, annotation_mode
    keep_annotations)] *)
Definition print_scrambled (o : options) (keep_annotations : annotation_mode)
  : run state unit :=
  call _ <- when_ (negb (no_scramble o))
    (call v <- gets commands;
     call _ <- shuffle_runs o is_declare_fun (length v) 0;
     call v <- gets commands;
     call _ <- shuffle_runs o is_assert (length v) 0;
     extend_table);
  call v <- gets commands;
  call _ <- print_all o keep_annotations v;
  modify (set_commands []).

End Scrambled.

(** ** Notions for the scrambling print pass *)

(** The computation [m], started in [s], returns, in a state related to
    [s] by [R]. *)
Definition run_returns {S A : Type} (R : S → S → Prop) (m : run S A)
    (s : S) : Prop :=
  ∃ x s', m s = Returns (x, s') ∧ R s s'.

(** The table has an entry for every name id the registry can show. *)
Definition table_covers (o : options) (s : Scrambled.state) : Prop :=
  no_scramble o = true
  ∨ (registry_sound (Scrambled.names s)
     ∧ next_name_id (Scrambled.names s)
       ≤ Z.of_nat (length (Scrambled.permuted_name_ids s))).

(** What [print_node] leaves alone: the generator, the table and the
    buffer stay, the output only grows, the registry shows what it
    showed, hands out no identifier and stays sound; the counter of
    annotation names moves only with [gen_ucore] set, and the registry is
    not touched at all with [no_scramble] set. *)
Definition scrambled_frame (o : options) (s s' : Scrambled.state) : Prop :=
  Scrambled.seed s' = Scrambled.seed s
  ∧ Scrambled.permuted_name_ids s' = Scrambled.permuted_name_ids s
  ∧ Scrambled.commands s' = Scrambled.commands s
  ∧ (∃ text, Scrambled.cout s' = Scrambled.cout s +:+ text)
  ∧ same_shown (Scrambled.names s') (Scrambled.names s)
  ∧ next_name_id (Scrambled.names s') = next_name_id (Scrambled.names s)
  ∧ (registry_sound (Scrambled.names s) →
     registry_sound (Scrambled.names s'))
  ∧ (gen_ucore o = false →
     Scrambled.annotation_n s' = Scrambled.annotation_n s)
  ∧ (no_scramble o = true → Scrambled.names s' = Scrambled.names s).

(** ** The command line *)

Module Main.

(** What the loop over the arguments in [main] sets: the locals
    [keep_annotations], [create_core] and [core_file], the generator
    state, and the option flags. *)
Record settings : Type := Settings {
  keep_annotations : annotation_mode;
  create_core : bool;
  core_file : string;
  seed : Z;
  no_scramble : bool;
  gen_incremental : bool;
  gen_ucore : bool;
  gen_mval : bool;
  gen_proof : bool;
  support_non_smtcomp : bool;
  support_z3 : bool;
  count_asrts : bool;
  ranks_file_name : string
}.

(** The conversion of a [time_t] (64 bits, signed) to the [int] parameter
    of [set_seed]: the value is kept when it fits 32 bits and is reduced
    modulo [2^32] otherwise. *)
Definition int_of_time (now : Z) : Z := (now + 2 ^ 31) mod 2 ^ 32 - 2 ^ 31.

(** Before the loop: [keep_annotations = all], [create_core = false],
    the generator seeded by [set_seed(time(0))], every flag as
    initialised.  [now] is what [time(0)] returns. *)
Definition initial (now : Z) : settings :=
  Settings all false "" (Prng.set_seed (int_of_time now)) false false false
           false false false false false "".

(** The two ways the loop ends the process, both with status 1:
    [return 1] after the message about the seed, and [usage], before
    which [digit] is written to the error stream. *)
Inductive failure : Type :=
  | InvalidSeed (value : string)
  | Usage (digit : string).

(** The value of a flag:
    [if (strcmp(argv[i+1], "true") == 0) flag = true;
     else if (strcmp(argv[i+1], "false") == 0) flag = false;
     else { std::cerr << digit << std::endl; usage(argv[0]); }] *)
Definition read_flag (digit value : string) (set : bool → settings)
  : failure + settings :=
  if String.eqb value "true" then inr (set true)
  else if String.eqb value "false" then inr (set false)
  else inl (Usage digit).

Section arguments.

(** [std::istringstream s(text); int x; s >> x]: the [int] read, when the
    extraction succeeds. *)
Variable read_int : string → option Z.

(** One iteration of the loop with [i + 1 < argc]: the option [argv[i]]
    and its value [argv[i+1]].  The line written to the error stream for
    [-ranks] is left out. *)
Definition option_step (opt value : string) (st : settings)
  : failure + settings :=
  let '(Settings ka cc cf sd ns gi gu gm gp sn sz ca rf) := st in
  if String.eqb opt "-seed" then
    match read_int value with
    | Some x =>
        if 0 <=? x then
          if 0 <? x
          then inr (Settings ka cc cf (Prng.set_seed x) ns gi gu gm gp sn sz
                             ca rf)
          else inr (Settings ka cc cf sd true gi gu gm gp sn sz ca rf)
        else inl (InvalidSeed value)
    | None => inl (InvalidSeed value)
    end
  else if String.eqb opt "-term_annot" then
    if String.eqb value "true"
    then inr (Settings all cc cf sd ns gi gu gm gp sn sz ca rf)
    else if String.eqb value "pattern"
    then inr (Settings pattern cc cf sd ns gi gu gm gp sn sz ca rf)
    else if String.eqb value "false"
    then inr (Settings none cc cf sd ns gi gu gm gp sn sz ca rf)
    else inl (Usage "1")
  else if String.eqb opt "-core" then
    inr (Settings ka true value sd ns gi gu gm gp sn sz ca rf)
  else if String.eqb opt "-incremental" then
    read_flag "2" value
      (λ b, Settings ka cc cf sd ns b gu gm gp sn sz ca rf)
  else if String.eqb opt "-gen-unsat-core" then
    read_flag "3" value
      (λ b, Settings ka cc cf sd ns gi b gm gp sn sz ca rf)
  else if String.eqb opt "-gen-model-val" then
    read_flag "4" value
      (λ b, Settings ka cc cf sd ns gi gu b gp sn sz ca rf)
  else if String.eqb opt "-gen-proof" then
    read_flag "5" value
      (λ b, Settings ka cc cf sd ns gi gu gm b sn sz ca rf)
  else if String.eqb opt "-support-non-smtcomp" then
    read_flag "6" value
      (λ b, Settings ka cc cf sd ns gi gu gm gp b sz ca rf)
  else if String.eqb opt "-support-z3" then
    read_flag "7" value
      (λ b, Settings ka cc cf sd ns gi gu gm gp sn b ca rf)
  else if String.eqb opt "-count-asserts" then
    read_flag "8" value
      (λ b, Settings ka cc cf sd ns gi gu gm gp sn sz b rf)
  else if String.eqb opt "-ranks" then
    inr (Settings ka cc cf sd ns gi gu gm gp sn sz ca value)
  else inl (Usage "9").

(** The loop [for (int i = 1; i < argc; )] over [argv[1..]].  With one
    argument left no test [i + 1 < argc] holds, which leads to
    [usage]. *)
Fixpoint parse_arguments (args : list string) (st : settings)
  : failure + settings :=
  match args with
  | [] => inr st
  | [_] => inl (Usage "9")
  | opt :: value :: rest =>
      match option_step opt value st with
      | inl e => inl e
      | inr st' => parse_arguments rest st'
      end
  end.

End arguments.

(** The names of the options. *)
Definition option_names : list string :=
  ["-seed"; "-term_annot"; "-core"; "-incremental"; "-gen-unsat-core";
   "-gen-model-val"; "-gen-proof"; "-support-non-smtcomp"; "-support-z3";
   "-count-asserts"; "-ranks"].

(** The arguments come in pairs of an option and a value: the option,
    value and position of each pair. *)
Definition pair_at (args : list string) (k : nat) (opt value : string)
  : Prop :=
  args !! (2 * k)%nat = Some opt ∧ args !! (2 * k + 1)%nat = Some value.

End Main.

(** The shape of a core file [parse_core] accepts: white space, [unsat],
    white space (at least one character), an opening parenthesis, and
    anything after it. *)
Definition core_shape (file : string) : Prop :=
  ∃ ws0 ws rest,
    file = ws0 +:+ "unsat" +:+ ws +:+ "(" +:+ rest
    ∧ all_space ws0 = true ∧ all_space ws = true ∧ ws ≠ ""%string.

(** [k] calls of [make_annotation_name], one after the other, and the
    names they return. *)
Fixpoint annotation_names (k : nat) : M (list string) :=
  match k with
  | O => ret []
  | S k' =>
      do name <- make_annotation_name;
      do names_ <- annotation_names k';
      ret (name :: names_)
  end.

(** A second sorting function that meets [sort_contract]: it sorts the
    reversed range. *)
Definition rev_sort (A : Type) (lt : A → A → bool) (l : list A) : list A :=
  ref_sort A lt (rev l).

(** The symbol [s] (unquoted) is the symbol of a node below [n] that
    passes [names_variable]. *)
Fixpoint occurs_below (s : string) (n : node) : bool :=
  (fix some (cs : list node) : bool :=
     match cs with
     | [] => false
     | c :: cs' =>
         (names_variable c && String.eqb (unquote (symbol c)) s)
         || occurs_below s c || some cs'
     end) (children n).

(** ** Notions for the placement of the commands in memory *)

(** The command [n] with every node object of its tree placed at the
    address [f] gives for its own: the same command, laid out elsewhere in
    memory. *)
Fixpoint relocate (f : Z → Z) (n : node) : node :=
  Node (f (addr n)) (symbol n) (is_name n) (needs_parens n)
       (relocate f <$> children n).

(** [f] keeps the order of the addresses [places]. *)
Definition same_order (f : Z → Z) (places : list Z) : Prop :=
  Forall (λ a, Forall (λ b, (f a <? f b) = (a <? b)) places) places.

(** The commands of [v] are distinct objects, and [f] keeps the order of
    their addresses: what the comparison of two [node *] sees is the same
    before and after the commands are moved by [f]. *)
Definition placed_alike (f : Z → Z) (v : list node) : Prop :=
  ∀ a b, a ∈ v → b ∈ v →
    (f (addr a) <? f (addr b)) = (addr a <? addr b)
    ∧ (addr a = addr b → a = b).

(** The state with the commands of its buffer moved by [f], and an
    outcome with its final state changed so. *)
Definition relocated (f : Z → Z) (s : state) : state :=
  set_commands (relocate f <$> commands s) s.

Definition relocated_outcome {A : Type} (f : Z → Z)
    (r : outcome (A * state)) : outcome (A * state) :=
  match r with
  | Ok (x, s) => Ok (x, relocated f s)
  | Throw what => Throw what
  | Undefined => Undefined
  | OutOfFuel => OutOfFuel
  end.

(** A computation that does not look at the buffer: started with the
    commands moved by [f] it does the same, and leaves them moved. *)
Definition moves_along (f : Z → Z) {A : Type} (m : M A) : Prop :=
  ∀ s, m (relocated f s) = relocated_outcome f (m s).

(** The symbols [print_node_sorted] does more for than print them: the
    empty symbol, the annotation marker, and the two commands after which
    it may add text. *)
Definition special_word (sym : string) : bool :=
  String.eqb sym "" || String.eqb sym "!" || String.eqb sym "assert"
  || String.eqb sym "check-sat".

(** * Properties *)

(** ** The generator *)

Lemma mask_value : Prng.mask = two64 - 1 - 2 ^ 49.
Proof. reflexivity. Qed.

Lemma set_seed_value (s : Z) : 0 ≤ s < two64 → Prng.set_seed s = s.
Proof. intros H. unfold Prng.set_seed, u64. by apply Z.mod_small. Qed.

(** One call advances the state once and returns
    [(state >> 16) mod bound] of the new state. *)
Lemma next_rand_int_draw (bound seed : Z) :
  0 < bound →
  Prng.next_rand_int bound seed
  = Some (Z.shiftr (Prng.next_seed seed) 16 mod bound, Prng.next_seed seed).
Proof.
  intros Hb. unfold Prng.next_rand_int.
  destruct (Z.eqb_spec bound 0) as [->|_]; [lia|done].
Qed.

Lemma next_rand_int_range (bound seed r seed' : Z) :
  0 < bound →
  Prng.next_rand_int bound seed = Some (r, seed') →
  0 ≤ r < bound.
Proof.
  intros Hb. rewrite next_rand_int_draw by done. intros [= <- _].
  by apply Z.mod_pos_bound.
Qed.

Lemma mask_testbit (k : Z) :
  0 ≤ k < 64 → Z.testbit Prng.mask k = negb (k =? 49).
Proof.
  intros Hk. unfold Prng.mask, u64, two64.
  rewrite Z.mod_pow2_bits_low by lia.
  rewrite Z.lnot_spec by lia.
  change (Z.shiftl 2 48) with (2 ^ 49).
  rewrite Z.pow2_bits_eqb by lia. by rewrite Z.eqb_sym.
Qed.

(** The new state keeps every bit of the 64-bit sum except bit 49. *)
Lemma next_seed_bits (seed : Z) (k : Z) :
  0 ≤ k →
  Z.testbit (Prng.next_seed seed) k
  = Z.testbit (u64 (u64 (seed * Prng.a) + Prng.c)) k && negb (k =? 49).
Proof.
  intros Hk. unfold Prng.next_seed. rewrite Z.land_spec.
  destruct (Z_lt_le_dec k 64) as [Hlt|Hge].
  - by rewrite mask_testbit by lia.
  - unfold u64 at 1 3, two64. by rewrite !Z.mod_pow2_bits_high by lia.
Qed.

(** C2: failing input. Seeded with 12345, the first call leaves the state
    311277988855376, which has bit 48 set, where a reduction modulo 2^48
    gives 29803012144720; the value returned for the bound 3 is 2 where the
    48-bit state gives 1. *)
Theorem next_rand_int_not_48_bit :
  Prng.next_rand_int 3 (Prng.set_seed 12345) = Some (2, 311277988855376)
  ∧ Prng.lcg48 (Prng.set_seed 12345) = 29803012144720
  ∧ Z.shiftr (Prng.lcg48 (Prng.set_seed 12345)) 16 mod 3 = 1
  ∧ 2 ^ 48 ≤ 311277988855376.
Proof. repeat split; vm_compute; congruence. Qed.

(** ** The symbol registries *)

(** The first-occurrence registry runs the same code as the declaration
    registry. *)
Lemma set_new_name_sorted_same : set_new_name_sorted = set_new_name.
Proof. reflexivity. Qed.

Lemma get_name_id_sorted_same : get_name_id_sorted = get_name_id.
Proof. reflexivity. Qed.

Lemma run_op_sorted_same : run_op_sorted = run_op.
Proof. reflexivity. Qed.

Lemma set_new_name_keeps (n s : string) (v : Z) (r : registry) :
  name_ids r !! s = Some v → name_ids (set_new_name n r) !! s = Some v.
Proof.
  intros Hs. unfold set_new_name.
  destruct (name_ids r !! unquote n) eqn:Hn; [done|]. simpl.
  rewrite lookup_insert_ne; [done|]. congruence.
Qed.

Lemma set_new_name_idempotent (n : string) (r : registry) :
  set_new_name n (set_new_name n r) = set_new_name n r.
Proof.
  unfold set_new_name at 2 3.
  destruct (name_ids r !! unquote n) eqn:Hn.
  - unfold set_new_name. by rewrite Hn.
  - unfold set_new_name. simpl. by rewrite lookup_insert_eq.
Qed.

Lemma get_name_id_value (n : string) (r : registry) :
  (get_name_id n r).1 = shown_id r (unquote n).
Proof.
  unfold get_name_id, shown_id. by destruct (name_ids r !! unquote n).
Qed.

(** A lookup may add an entry, but what the registry shows stays. *)
Lemma get_name_id_shown (n s : string) (r : registry) :
  shown_id (get_name_id n r).2 s = shown_id r s.
Proof.
  unfold get_name_id, shown_id.
  destruct (name_ids r !! unquote n) eqn:Hn; [done|]. simpl.
  destruct (decide (unquote n = s)) as [<-|Hne].
  - by rewrite lookup_insert_eq, Hn.
  - by rewrite lookup_insert_ne.
Qed.

Lemma get_name_id_keeps (n s : string) (v : Z) (r : registry) :
  name_ids r !! s = Some v → name_ids (get_name_id n r).2 !! s = Some v.
Proof.
  intros Hs. unfold get_name_id.
  destruct (name_ids r !! unquote n) eqn:Hn; [done|]. simpl.
  rewrite lookup_insert_ne; [done|]. congruence.
Qed.

Lemma run_op_keeps (op : registry_op) (s : string) (v : Z) (r : registry) :
  name_ids r !! s = Some v → name_ids (run_op r op) !! s = Some v.
Proof.
  destruct op; simpl; auto using set_new_name_keeps, get_name_id_keeps.
Qed.

Lemma run_ops_keep (ops : list registry_op) (s : string) (v : Z)
    (r : registry) :
  name_ids r !! s = Some v → name_ids (foldl run_op r ops) !! s = Some v.
Proof.
  revert r. induction ops as [|op ops IH]; intros r Hs; simpl; [done|].
  apply IH. by apply run_op_keeps.
Qed.

Lemma size_list_to_set_le (l : list string) :
  (size (list_to_set l : gset string) ≤ length l)%nat.
Proof.
  induction l as [|x l IH]; simpl; [done|].
  rewrite size_union_alt, size_singleton.
  assert (Hsub : list_to_set l ∖ {[x]} ⊆ (list_to_set l : gset string))
    by set_solver.
  apply subseteq_size in Hsub. lia.
Qed.

Lemma registry_inv_member (r : registry) (syms : list string) (s : string) :
  registry_inv r syms → s ∈ syms → is_Some (name_ids r !! s).
Proof.
  intros (_ & _ & H3). revert s.
  induction syms as [|x syms IH] using rev_ind; intros s Hs.
  - by apply elem_of_nil in Hs.
  - destruct (decide (s ∈ syms)) as [Hin|Hnin].
    + apply IH; [|done]. intros i s' Hi Hfresh.
      assert (Hlt : (i < length syms)%nat) by (by eapply lookup_lt_Some).
      specialize (H3 i s').
      rewrite lookup_app_l, take_app_le in H3 by lia. by apply H3.
    + apply elem_of_app in Hs as [Hs|Hs]; [done|].
      apply list_elem_of_singleton in Hs as ->.
      specialize (H3 (length syms) x).
      rewrite lookup_app_r, Nat.sub_diag, take_app_length in H3 by lia.
      rewrite H3; [by eexists|done|done].
Qed.

Lemma declare_all_snoc (names : list string) (n : string) (r : registry) :
  declare_all (names ++ [n]) r = set_new_name n (declare_all names r).
Proof. unfold declare_all. by rewrite foldl_app. Qed.

Lemma declare_all_inv (names : list string) :
  Z.of_nat (length names) < two64 - 1 →
  registry_inv (declare_all names registry_init) (unquote <$> names).
Proof.
  induction names as [|n names IH] using rev_ind; intros Hlen.
  - split; [|split]; simpl.
    + reflexivity.
    + intros s _. apply lookup_empty.
    + intros i s Hi. by rewrite lookup_nil in Hi.
  - rewrite length_app in Hlen. simpl in Hlen.
    specialize (IH ltac:(lia)).
    rewrite declare_all_snoc, fmap_app. simpl.
    set (r := declare_all names registry_init) in *.
    set (syms := unquote <$> names) in *.
    pose proof (size_list_to_set_le syms) as Hsz.
    assert (Hlen' : length syms = length names) by apply length_fmap.
    destruct IH as (I1 & I2 & I3).
    unfold set_new_name.
    destruct (name_ids r !! unquote n) eqn:Hn.
    + assert (Hin : unquote n ∈ syms).
      { destruct (decide (unquote n ∈ syms)) as [|Hnin]; [done|].
        rewrite I2 in Hn by done. discriminate. }
      split; [|split].
      * rewrite I1. do 3 f_equal. apply set_eq. intros s.
        rewrite list_to_set_app, elem_of_union, !elem_of_list_to_set.
        simpl. set_solver.
      * intros s Hs. apply I2. set_solver.
      * intros i s Hi Hfresh.
        destruct (decide (i < length syms)%nat) as [Hlt|Hge].
        -- rewrite lookup_app_l in Hi by done.
           rewrite take_app_le in Hfresh |- * by lia. by apply I3.
        -- apply lookup_lt_Some in Hi as Hb. rewrite length_app in Hb.
           simpl in Hb. assert (i = length syms) as -> by lia.
           rewrite lookup_app_r, Nat.sub_diag in Hi by lia.
           injection Hi as <-. rewrite take_app_length in Hfresh. done.
    + assert (Hnin : unquote n ∉ syms).
      { intros Hin.
        destruct (registry_inv_member r syms (unquote n)) as [v Hv];
          [by repeat split|done|congruence]. }
      assert (Hsize : size (list_to_set (syms ++ [unquote n]) : gset string)
                      = S (size (list_to_set syms : gset string))).
      { rewrite list_to_set_app_L. simpl. rewrite union_empty_r_L.
        rewrite size_union, size_singleton by set_solver. lia. }
      split; [|split]; simpl.
      * rewrite Hsize, I1. unfold u64, two64 in *. rewrite Z.mod_small; lia.
      * intros s Hs. rewrite lookup_insert_ne by set_solver.
        apply I2. set_solver.
      * intros i s Hi Hfresh.
        destruct (decide (i < length syms)%nat) as [Hlt|Hge].
        -- rewrite lookup_app_l in Hi by done.
           rewrite take_app_le in Hfresh |- * by lia.
           rewrite lookup_insert_ne.
           ++ by apply I3.
           ++ intros <-. apply Hnin. by eapply list_elem_of_lookup_2.
        -- apply lookup_lt_Some in Hi as Hb. rewrite length_app in Hb.
           simpl in Hb. assert (i = length syms) as -> by lia.
           rewrite lookup_app_r, Nat.sub_diag in Hi by lia.
           injection Hi as <-. rewrite take_app_length.
           by rewrite lookup_insert_eq, I1.
Qed.

(** C8: after any sequence of declarations from the initial registry, a
    symbol first declared at position [i] carries the identifier one more
    than the number of distinct symbols declared before it (so the
    identifiers are 1, 2, 3, ... in first-declaration order), symbols
    never declared have no entry, a declaration never changes or removes
    an existing assignment, declaring is idempotent, and a lookup unquotes
    its argument and returns the registered identifier, or 0 when there is
    none. *)
Theorem registry_first_declaration_order (names : list string) :
  Z.of_nat (length names) < two64 - 1 →
  let r := declare_all names registry_init in
  let syms := unquote <$> names in
  (∀ i s, syms !! i = Some s → s ∉ take i syms →
     name_ids r !! s
     = Some (1 + Z.of_nat (size (list_to_set (take i syms) : gset string))))
  ∧ (∀ s, s ∉ syms → name_ids r !! s = None)
  ∧ (∀ n r0 s v, name_ids r0 !! s = Some v →
       name_ids (set_new_name n r0) !! s = Some v)
  ∧ (∀ n r0, set_new_name n (set_new_name n r0) = set_new_name n r0)
  ∧ (∀ n v, name_ids r !! unquote n = Some v → (get_name_id n r).1 = v)
  ∧ (∀ n, name_ids r !! unquote n = None → (get_name_id n r).1 = 0).
Proof.
  intros Hlen r syms.
  destruct (declare_all_inv names Hlen) as (_ & I2 & I3).
  split; [exact I3|]. split; [exact I2|].
  split; [intros n r0 s v; apply set_new_name_keeps|].
  split; [apply set_new_name_idempotent|].
  split.
  - intros n v Hv. rewrite get_name_id_value. unfold shown_id. by rewrite Hv.
  - intros n Hv. rewrite get_name_id_value. unfold shown_id. by rewrite Hv.
Qed.

Lemma registry_first_declaration_order_witness :
  let names := ["b"; "|a|"; "b"; "a"; "c"]%string in
  let r := declare_all names registry_init in
  name_ids r !! "b"%string = Some 1
  ∧ name_ids r !! "a"%string = Some 2
  ∧ name_ids r !! "c"%string = Some 3
  ∧ (get_name_id "|c|" r).1 = 3
  ∧ (get_name_id "d" r).1 = 0.
Proof.
  intros names r.
  destruct (registry_first_declaration_order names) as (H1 & H2 & _ & _ & H5 & H6).
  { vm_compute. reflexivity. }
  split; [exact (H1 0%nat "b"%string eq_refl ltac:(vm_compute; apply not_elem_of_nil))|].
  split; [apply (H1 1%nat "a"%string eq_refl); vm_compute; set_solver|].
  split; [apply (H1 4%nat "c"%string eq_refl); vm_compute; set_solver|].
  split.
  - apply H5. apply (H1 4%nat "c"%string eq_refl). vm_compute. set_solver.
  - apply H6. apply H2. vm_compute. set_solver.
Defined.

(** C10: a lookup of a symbol that has no entry returns 0 and inserts the
    symbol with identifier 0; a later declaration of the symbol then
    changes nothing (no fresh identifier is handed out), and after any
    further declarations and lookups a lookup of the symbol still returns
    0.  The first-occurrence registry behaves the same. *)
Theorem lookup_before_declare_pins_zero (n : string) (r : registry) :
  name_ids r !! unquote n = None →
  ((get_name_id n r).1 = 0
   ∧ name_ids (get_name_id n r).2 !! unquote n = Some 0
   ∧ set_new_name n (get_name_id n r).2 = (get_name_id n r).2
   ∧ ∀ ops, (get_name_id n (foldl run_op (get_name_id n r).2 ops)).1 = 0)
  ∧ ((get_name_id_sorted n r).1 = 0
     ∧ name_ids (get_name_id_sorted n r).2 !! unquote n = Some 0
     ∧ set_new_name_sorted n (get_name_id_sorted n r).2
       = (get_name_id_sorted n r).2
     ∧ ∀ ops,
         (get_name_id_sorted n
            (foldl run_op_sorted (get_name_id_sorted n r).2 ops)).1 = 0).
Proof.
  intros Hn.
  rewrite set_new_name_sorted_same, get_name_id_sorted_same,
    run_op_sorted_same.
  assert (Hzero : name_ids (get_name_id n r).2 !! unquote n = Some 0).
  { unfold get_name_id. rewrite Hn. simpl. apply lookup_insert_eq. }
  assert (H : (get_name_id n r).1 = 0
   ∧ name_ids (get_name_id n r).2 !! unquote n = Some 0
   ∧ set_new_name n (get_name_id n r).2 = (get_name_id n r).2
   ∧ ∀ ops, (get_name_id n (foldl run_op (get_name_id n r).2 ops)).1 = 0).
  { split; [|split; [|split]].
    - unfold get_name_id. by rewrite Hn.
    - exact Hzero.
    - unfold set_new_name. by rewrite Hzero.
    - intros ops. rewrite get_name_id_value. unfold shown_id.
      by rewrite (run_ops_keep ops _ 0 _ Hzero). }
  by split.
Qed.

Lemma lookup_before_declare_pins_zero_witness :
  (get_name_id "x" registry_init).1 = 0
  ∧ set_new_name "x" (get_name_id "x" registry_init).2
    = (get_name_id "x" registry_init).2
  ∧ (get_name_id "x"
       (foldl run_op (get_name_id "x" registry_init).2
          [OpDeclare "x"; OpDeclare "y"; OpLookup "x"; OpDeclare "|x|"])).1 = 0.
Proof.
  destruct (lookup_before_declare_pins_zero "x" registry_init)
    as ((H1 & _ & H3 & H4) & _).
  { apply lookup_empty. }
  split; [exact H1|]. split; [exact H3|]. apply H4.
Defined.

(** ** Random shuffling *)

Lemma rearranged_within_refl (start end_ : nat) (v : list node) :
  rearranged_within start end_ v v.
Proof. by repeat split. Qed.

Lemma rearranged_within_trans (start end_ : nat) (v1 v2 v3 : list node) :
  rearranged_within start end_ v1 v2 →
  rearranged_within start end_ v2 v3 →
  rearranged_within start end_ v1 v3.
Proof.
  intros (L1 & T1 & D1 & P1) (L2 & T2 & D2 & P2).
  repeat split; [congruence..|]. by rewrite P2.
Qed.

Lemma at_Some {A : Type} (v : list A) (i : Z) (x : A) :
  at_ v i = Some x ↔ 0 ≤ i ∧ v !! Z.to_nat i = Some x.
Proof.
  unfold at_. destruct (Z.ltb_spec i 0) as [Hneg|Hpos].
  - split; [done|]. intros [? _]. lia.
  - split; [done|]. by intros [_ ?].
Qed.

Lemma at_in_range {A : Type} (v : list A) (i : Z) :
  0 ≤ i < Z.of_nat (length v) → is_Some (at_ v i).
Proof.
  intros Hi. unfold at_. destruct (Z.ltb_spec i 0); [lia|].
  apply lookup_lt_is_Some. lia.
Qed.

Lemma swap_at_within (start end_ : nat) (v v' : list node) (i j : Z) :
  (end_ ≤ length v)%nat →
  Z.of_nat start ≤ i < Z.of_nat end_ →
  Z.of_nat start ≤ j < Z.of_nat end_ →
  swap_at v i j = Some v' →
  rearranged_within start end_ v v'.
Proof.
  intros Hend Hi Hj. unfold swap_at.
  destruct (at_ v i) as [x|] eqn:Hx; [|done].
  destruct (at_ v j) as [y|] eqn:Hy; [|done].
  intros [= <-].
  apply at_Some in Hx as [_ Hx]. apply at_Some in Hy as [_ Hy].
  set (a := Z.to_nat i) in *. set (b := Z.to_nat j) in *.
  assert (Ha : (start ≤ a < end_)%nat) by lia.
  assert (Hb : (start ≤ b < end_)%nat) by lia.
  split; [by rewrite !length_insert|].
  split; [by rewrite !take_insert_ge by lia|].
  split; [by rewrite !drop_insert_lt by lia|].
  rewrite !drop_insert_ge by lia.
  rewrite !take_insert_lt by lia.
  apply Permutation_insert_swap.
  - rewrite lookup_take_lt, lookup_drop by lia.
    by replace (start + (a - start))%nat with a by lia.
  - rewrite lookup_take_lt, lookup_drop by lia.
    by replace (start + (b - start))%nat with b by lia.
Qed.

Lemma swap_at_defined {A : Type} (v : list A) (i j : Z) :
  0 ≤ i < Z.of_nat (length v) → 0 ≤ j < Z.of_nat (length v) →
  is_Some (swap_at v i j).
Proof.
  intros Hi Hj. unfold swap_at.
  destruct (at_in_range v i Hi) as [x ->].
  destruct (at_in_range v j Hj) as [y ->]. by eexists.
Qed.

Lemma u64_small (x : Z) : 0 ≤ x < two64 → u64 x = x.
Proof. intros H. unfold u64. by apply Z.mod_small. Qed.

Lemma shuffle_loop_within (i : nat) (start end_ : nat) (v : list node)
    (seed : Z) :
  (start + i < end_)%nat → (end_ ≤ length v)%nat →
  Z.of_nat (length v) < two64 →
  ∃ v' seed',
    shuffle_loop i (Z.of_nat start) v seed = Some (v', seed')
    ∧ rearranged_within start end_ v v'.
Proof.
  revert v seed. induction i as [|i IH]; intros v seed Hi Hend Hsize.
  - exists v, seed. split; [done|]. apply rearranged_within_refl.
  - cbn [shuffle_loop].
    rewrite (u64_small (Z.of_nat (S i) + 1)) by lia.
    rewrite next_rand_int_draw by lia.
    set (r := Z.shiftr (Prng.next_seed seed) 16 mod (Z.of_nat (S i) + 1)).
    assert (Hr : 0 ≤ r < Z.of_nat (S i) + 1) by (apply Z.mod_pos_bound; lia).
    rewrite (u64_small (Z.of_nat (S i) + Z.of_nat start)) by lia.
    rewrite (u64_small (r + Z.of_nat start)) by lia.
    destruct (swap_at_defined v (Z.of_nat (S i) + Z.of_nat start)
                (r + Z.of_nat start)) as [v1 Hswap]; [lia..|].
    rewrite Hswap.
    assert (Hw : rearranged_within start end_ v v1).
    { eapply swap_at_within; [exact Hend| | |exact Hswap]; lia. }
    destruct Hw as (L & T & D & P).
    destruct (IH v1 (Prng.next_seed seed)) as (v' & seed' & Hloop & Hw');
      [lia|lia|lia|].
    exists v', seed'. split; [done|].
    eapply rearranged_within_trans; [|exact Hw']. by repeat split.
Qed.

(** C6: on a window [start, end) with at least one element inside the
    vector, [shuffle_list] returns, the window then holds a permutation of
    what it held, and what lies outside the window is unchanged; with
    [no_scramble] set the call changes nothing, the generator state
    included. *)
Theorem shuffle_list_permutes_window (v : list node) (start end_ seed : Z) :
  0 ≤ start < end_ →
  end_ ≤ Z.of_nat (length v) →
  Z.of_nat (length v) < two64 →
  (∃ v' seed',
     shuffle_list false v start end_ seed = Some (v', seed')
     ∧ window v' start end_ ≡ₚ window v start end_
     ∧ take (Z.to_nat start) v' = take (Z.to_nat start) v
     ∧ drop (Z.to_nat end_) v' = drop (Z.to_nat end_) v
     ∧ length v' = length v)
  ∧ shuffle_list true v start end_ seed = Some (v, seed).
Proof.
  intros Hse Hend Hsize. split; [|done].
  unfold shuffle_list.
  rewrite (u64_small (end_ - start)) by lia.
  rewrite (u64_small (end_ - start - 1)) by lia.
  destruct (shuffle_loop_within (Z.to_nat (end_ - start - 1))
              (Z.to_nat start) (Z.to_nat end_) v seed)
    as (v' & seed' & Hloop & L & T & D & P); [lia..|].
  rewrite Z2Nat.id in Hloop by lia.
  exists v', seed'. split; [done|]. unfold window.
  replace (Z.to_nat (end_ - start)) with (Z.to_nat end_ - Z.to_nat start)%nat
    by lia.
  done.
Qed.

Lemma shuffle_list_permutes_window_witness :
  let a := Node 1 "a" false false [] in
  let b := Node 2 "b" false false [] in
  let c := Node 3 "c" false false [] in
  let d := Node 4 "d" false false [] in
  ∃ v' seed',
    shuffle_list false [a; b; c; d] 1 4 (Prng.set_seed 7) = Some (v', seed')
    ∧ window v' 1 4 ≡ₚ [b; c; d]
    ∧ take 1 v' = [a]
    ∧ shuffle_list true [a; b; c; d] 1 4 (Prng.set_seed 7)
      = Some ([a; b; c; d], Prng.set_seed 7).
Proof.
  intros a b c d.
  destruct (shuffle_list_permutes_window [a; b; c; d] 1 4 (Prng.set_seed 7))
    as ((v' & seed' & H1 & H2 & H3 & _ & _) & H6).
  - lia.
  - simpl. lia.
  - vm_compute. reflexivity.
  - exists v', seed'. repeat split; assumption.
Defined.

(** ** Unsat-core filtering *)


(** The loop invariant of [filter_named]: the first [k] slots hold what is
    kept of the first [i] commands, and the slots from [i] on are
    untouched. *)
Lemma filter_named_loop_spec (to_keep : gset string) (v0 : list node)
    (todo i k : nat) (v : list node) :
  (i + todo)%nat = length v0 →
  length v = length v0 →
  (k ≤ i)%nat →
  take k v = List.filter (keeps to_keep) (take i v0) →
  drop i v = drop i v0 →
  take (filter_named_loop to_keep todo i k v).1
       (filter_named_loop to_keep todo i k v).2
  = List.filter (keeps to_keep) v0.
Proof.
  revert i k v. induction todo as [|todo IH]; intros i k v Hi Hlen Hk Ht Hd.
  - simpl. rewrite Ht. f_equal. apply take_ge. lia.
  - cbn [filter_named_loop].
    assert (Hlt : (i < length v0)%nat) by lia.
    destruct (lookup_lt_is_Some_2 v0 i Hlt) as [cur Hcur].
    assert (Hvi : v !! i = Some cur).
    { rewrite <- (Nat.add_0_r i), <- lookup_drop, Hd, lookup_drop.
      by rewrite Nat.add_0_r. }
    rewrite Hvi.
    assert (Hd' : drop (S i) v = drop (S i) v0).
    { replace (S i) with (i + 1)%nat by lia. by rewrite <- !drop_drop, Hd. }
    assert (Hf : List.filter (keeps to_keep) (take (S i) v0)
                 = List.filter (keeps to_keep) (take i v0)
                   ++ (if keeps to_keep cur then [cur] else [])).
    { rewrite (take_S_r _ _ _ Hcur), List.filter_app. simpl.
      by destruct (keeps to_keep cur). }
    destruct (keeps to_keep cur) eqn:Hkeep.
    + apply IH.
      * lia.
      * by rewrite length_insert.
      * lia.
      * rewrite Hf.
        assert (Hkv : (<[k:=cur]> v) !! k = Some cur)
          by (apply list_lookup_insert_eq; lia).
        rewrite (take_S_r _ _ _ Hkv), take_insert_ge by lia. by rewrite Ht.
      * rewrite drop_insert_lt by lia. exact Hd'.
    + apply IH; [lia|done|lia| |exact Hd'].
      rewrite Hf, Ht. by rewrite app_nil_r.
Qed.


(** ** Sorting *)

Lemma strict_weak_order_asym {A : Type} (lt : A → A → bool) (x y : A) :
  strict_weak_order lt → lt x y = true → lt y x = false.
Proof.
  intros (Hirr & Htrans & _) Hxy.
  destruct (lt y x) eqn:Hyx; [|done].
  by rewrite <- (Hirr x), (Htrans x y x Hxy Hyx).
Qed.

(** The reference sort meets the contract of [std::sort]. *)
Lemma ref_sort_contract : sort_contract ref_sort.
Proof.
  intros A lt l Hswo. unfold ref_sort. split.
  - apply merge_sort_Permutation.
  - apply @StronglySorted_merge_sort.
    + intros x y z Hxy Hyz. destruct Hswo as (_ & _ & Hneg).
      destruct (lt z x) eqn:Hzx; [|done].
      destruct (Hneg z y x Hzx); congruence.
    + intros x y. destruct (lt y x) eqn:Hyx; [|by left].
      right. by apply strict_weak_order_asym.
Qed.

Lemma float_lt_iff (x y : float) : float_lt x y = true ↔ (x < y)%Q.
Proof.
  unfold float_lt. rewrite negb_true_iff.
  destruct (Qle_bool y x) eqn:Hle.
  - apply Qle_bool_iff in Hle. split; [done|].
    intros Hlt. by apply Qlt_not_le in Hlt.
  - split; [|done]. intros _. apply Qnot_le_lt. intros Hyx.
    apply Qle_bool_iff in Hyx. congruence.
Qed.

Lemma float_lt_false_iff (x y : float) : float_lt x y = false ↔ (y <= x)%Q.
Proof.
  rewrite <- not_true_iff_false, float_lt_iff. split.
  - apply Qnot_lt_le.
  - intros Hle Hlt. by apply Qlt_not_le in Hlt.
Qed.

Lemma rank_lt_strict_weak_order (ranks : list float) :
  strict_weak_order (rank_lt ranks).
Proof.
  unfold rank_lt. split; [|split].
  - intros x. apply float_lt_false_iff. apply Qle_refl.
  - intros x y z. rewrite !float_lt_iff. apply Qlt_trans.
  - intros x y z. rewrite !float_lt_iff. intros Hxz.
    destruct (Qlt_le_dec (default 0%Q (at_ ranks x))
                         (default 0%Q (at_ ranks y))) as [Hlt|Hle];
      [by left|right].
    eapply Qle_lt_trans; eassumption.
Qed.

Lemma pair_lt_iff (x y : Z * node) :
  pair_lt x y = true
  ↔ x.1 < y.1 ∨ (x.1 = y.1 ∧ addr x.2 < addr y.2).
Proof.
  unfold pair_lt.
  rewrite orb_true_iff, andb_true_iff, negb_true_iff, !Z.ltb_lt, Z.ltb_ge.
  lia.
Qed.

Lemma pair_lt_false_iff (x y : Z * node) :
  pair_lt y x = false
  ↔ x.1 < y.1 ∨ (x.1 = y.1 ∧ addr x.2 ≤ addr y.2).
Proof. rewrite <- not_true_iff_false, pair_lt_iff. lia. Qed.

Lemma pair_lt_strict_weak_order : strict_weak_order pair_lt.
Proof.
  split; [|split].
  - intros x. apply not_true_iff_false. rewrite pair_lt_iff. lia.
  - intros x y z. rewrite !pair_lt_iff. lia.
  - intros x y z. rewrite !pair_lt_iff. lia.
Qed.

Lemma StronglySorted_map_impl {A B : Type} (R : A → A → Prop)
    (R' : B → B → Prop) (f : A → B) (l : list A) :
  (∀ x y, x ∈ l → y ∈ l → R x y → R' (f x) (f y)) →
  StronglySorted R l → StronglySorted R' (f <$> l).
Proof.
  intros Himp Hs. induction Hs as [|x l Hs IH Hall]; simpl; constructor.
  - apply IH. intros y z Hy Hz. apply Himp; by right.
  - apply Forall_fmap. apply Forall_forall. intros y Hy.
    rewrite Forall_forall in Hall. apply Himp; [by left|by right|auto].
Qed.

(** Writing [temp] back over a range that lies inside the vector. *)
Lemma write_back_spec (temp v : list node) (start i0 : nat) :
  (start + i0 + length temp ≤ length v)%nat →
  Z.of_nat (length v) < two64 →
  write_back v (Z.of_nat start) (Z.of_nat i0) temp
  = Some (take (start + i0) v ++ temp
          ++ drop (start + i0 + length temp) v).
Proof.
  revert v i0. induction temp as [|x temp IH]; intros v i0 Hlen Hsize.
  - simpl. by rewrite Nat.add_0_r, take_drop.
  - cbn [write_back]. simpl in Hlen.
    rewrite (u64_small (Z.of_nat start + Z.of_nat i0)) by lia.
    destruct (at_in_range v (Z.of_nat start + Z.of_nat i0)) as [y Hy]; [lia|].
    rewrite Hy.
    replace (Z.to_nat (Z.of_nat start + Z.of_nat i0)) with (start + i0)%nat
      by lia.
    replace (Z.of_nat i0 + 1) with (Z.of_nat (S i0)) by lia.
    rewrite IH by (rewrite length_insert; lia).
    f_equal.
    assert (Hx : (<[(start + i0)%nat:=x]> v) !! (start + i0)%nat = Some x)
      by (apply list_lookup_insert_eq; lia).
    replace (start + S i0)%nat with (S (start + i0)) by lia.
    rewrite (take_S_r _ _ _ Hx), take_insert_ge by lia.
    rewrite drop_insert_lt by lia. rewrite <- app_assoc. simpl.
    by replace (S (start + i0 + length temp))
      with (start + i0 + S (length temp))%nat by lia.
Qed.

Lemma gather_spec (v : list node) (start : nat) (indices : list Z) :
  Forall (λ k, 0 ≤ k ∧ Z.of_nat start + k < Z.of_nat (length v)) indices →
  Z.of_nat (length v) < two64 →
  ∃ temp,
    gather v (Z.of_nat start) indices = Some temp
    ∧ Forall2 (λ k x, at_ v (Z.of_nat start + k) = Some x) indices temp.
Proof.
  intros Hall Hsize. induction Hall as [|k indices [Hk0 Hk] Hall IH].
  - exists []. by split.
  - destruct IH as (temp & Hg & Hf).
    destruct (at_in_range v (Z.of_nat start + k)) as [x Hx]; [lia|].
    exists (x :: temp). cbn [gather].
    rewrite (u64_small (Z.of_nat start + k)) by lia.
    rewrite Hx, Hg. split; [done|by constructor].
Qed.

Section std_sort_properties.

Variable std_sort : ∀ A : Type, (A → A → bool) → list A → list A.
Hypothesis std_sort_ok : sort_contract std_sort.

Lemma rank_indices_spec (n : Z) (ranks : list float) :
  rank_indices std_sort n ranks ≡ₚ seqZ 0 n
  ∧ StronglySorted (λ i j, (rank_of ranks i <= rank_of ranks j)%Q)
      (rank_indices std_sort n ranks).
Proof.
  unfold rank_indices.
  destruct (std_sort_ok Z (rank_lt ranks) (seqZ 0 n)
              (rank_lt_strict_weak_order ranks)) as [Hperm Hsorted].
  split; [done|].
  rewrite <- (list_fmap_id (std_sort Z _ _)).
  eapply StronglySorted_map_impl; [|exact Hsorted].
  intros i j _ _ Hij. simpl. unfold rank_lt in Hij.
  by apply float_lt_false_iff in Hij.
Qed.

(** C3: on a window inside the vector, with one rank per element of the
    window, the rank-based [shuffle_list] returns, and the window then
    holds the elements at the window's indices [0 .. k-1] taken in an
    order in which their ranks ascend; the rest of the vector is
    unchanged.  In particular two assertions [A], [B] with the ranks 0.9
    and 0.1 come out as [B], [A]. *)
Theorem rank_shuffle_orders_by_rank (v : list node) (start end_ : Z)
    (ranks : list float) :
  0 ≤ start ≤ end_ →
  end_ ≤ Z.of_nat (length v) →
  Z.of_nat (length v) < two64 →
  Z.of_nat (length ranks) = end_ - start →
  (∃ indices temp,
     indices ≡ₚ seqZ 0 (end_ - start)
     ∧ StronglySorted (λ i j, (rank_of ranks i <= rank_of ranks j)%Q) indices
     ∧ Forall2 (λ i x, at_ v (start + i) = Some x) indices temp
     ∧ shuffle_list_ranks std_sort v start end_ ranks
       = Some (take (Z.to_nat start) v ++ temp ++ drop (Z.to_nat end_) v))
  ∧ ∀ A B : node,
      shuffle_list_ranks std_sort [A; B] 0 2 [float_0_9; float_0_1]
      = Some [B; A].
Proof.
  intros Hse Hend Hsize Hranks. split.
  - unfold shuffle_list_ranks.
    rewrite (u64_small (end_ - start)) by lia.
    destruct (rank_indices_spec (end_ - start) ranks) as [Hperm Hsorted].
    set (indices := rank_indices std_sort (end_ - start) ranks) in *.
    destruct (gather_spec v (Z.to_nat start) indices) as (temp & Hg & Hf).
    { apply Forall_forall. intros k Hk. rewrite Hperm in Hk.
      apply elem_of_seqZ in Hk. lia. }
    { done. }
    rewrite Z2Nat.id in Hg, Hf by lia.
    exists indices, temp. split; [done|]. split; [done|]. split; [done|].
    rewrite Hg.
    assert (Hlen : Z.of_nat (length temp) = end_ - start).
    { rewrite <- (Forall2_length _ _ _ Hf), Hperm, length_seqZ. lia. }
    rewrite bool_decide_true by done.
    pose proof (write_back_spec temp v (Z.to_nat start) 0) as Hw.
    rewrite Z2Nat.id in Hw by lia. change (Z.of_nat 0) with 0 in Hw.
    rewrite Hw by lia. rewrite Nat.add_0_r.
    by replace (Z.to_nat start + length temp)%nat with (Z.to_nat end_) by lia.
  - intros A B. unfold shuffle_list_ranks.
    change (u64 (2 - 0)) with 2.
    destruct (rank_indices_spec 2 [float_0_9; float_0_1]) as [Hperm Hsorted].
    set (indices := rank_indices std_sort 2 [float_0_9; float_0_1]) in *.
    change (seqZ 0 2) with [0; 1] in Hperm. symmetry in Hperm.
    apply Permutation_length_2_inv in Hperm as [Heq|Heq]; rewrite Heq in *.
    + exfalso. inversion Hsorted as [|? ? _ Hall]; subst.
      inversion Hall as [|? ? Hle _]; subst.
      vm_compute in Hle. by apply Hle.
    + reflexivity.
Qed.

End std_sort_properties.

Lemma rank_shuffle_orders_by_rank_witness :
  let A := Node 10 "assert" false true [] in
  let B := Node 20 "assert" false true [] in
  let C := Node 30 "check-sat" false true [] in
  (∃ indices temp,
     indices ≡ₚ [0; 1]
     ∧ Forall2 (λ i x, at_ [A; B; C] (0 + i) = Some x) indices temp
     ∧ shuffle_list_ranks ref_sort [A; B; C] 0 2 [float_0_9; float_0_1]
       = Some (temp ++ [C]))
  ∧ shuffle_list_ranks ref_sort [A; B] 0 2 [float_0_9; float_0_1]
    = Some [B; A].
Proof.
  intros A B C.
  destruct (rank_shuffle_orders_by_rank ref_sort ref_sort_contract
              [A; B; C] 0 2 [float_0_9; float_0_1])
    as [(indices & temp & H1 & _ & H3 & H4) H5].
  - lia.
  - simpl. lia.
  - vm_compute. reflexivity.
  - reflexivity.
  - split; [|apply H5]. exists indices, temp. repeat split; assumption.
Defined.

(** ** The declaration sort *)

(** Induction on a tree, with the property available for every child. *)
Lemma node_tree_ind (P : node → Prop) :
  (∀ a s i p cs, Forall P cs → P (Node a s i p cs)) → ∀ n, P n.
Proof.
  intros H. fix IH 1. intros [a s i p cs]. apply H.
  induction cs as [|c cs IHcs]; constructor; [apply IH|exact IHcs].
Qed.

Lemma get_name_id_sorted_same_shown (sym : string) (r1 r2 : registry) :
  same_shown r1 r2 →
  (get_name_id_sorted sym r1).1 = (get_name_id_sorted sym r2).1
  ∧ same_shown (get_name_id_sorted sym r1).2 r2.
Proof.
  intros Hs. rewrite get_name_id_sorted_same. split.
  - rewrite !get_name_id_value. apply Hs.
  - intros s. rewrite get_name_id_shown. apply Hs.
Qed.

(** [find_var] reads the registry only through what it shows, and leaves
    what it shows as it was. *)
Lemma find_var_same_shown (n : node) :
  ∀ r1 r2, same_shown r1 r2 →
    (find_var n r1).1 = (find_var n r2).1
    ∧ same_shown (find_var n r1).2 r2.
Proof.
  induction n as [a s i p cs IH] using node_tree_ind. intros r1 r2 Hs.
  cbn [find_var children].
  destruct (List.find names_variable cs) as [c|].
  - by apply get_name_id_sorted_same_shown.
  - generalize (descends (Node a s i p cs)). intros g. generalize 0%nat.
    induction IH as [|c cs Hc _ IHcs]; intros k; [done|].
    destruct (g k).
    + by apply Hc.
    + apply IHcs.
Qed.

Lemma find_var_shown (n : node) (r : registry) :
  same_shown (find_var n r).2 r.
Proof. by apply find_var_same_shown. Qed.

(** With a direct child that names a variable, the tag is what the
    registry shows for the first such child. *)
Lemma tag_of_direct_child (r : registry) (n c : node) :
  List.find names_variable (children n) = Some c →
  tag_of r n = shown_id r (unquote (symbol c)).
Proof.
  intros Hfind. unfold tag_of. destruct n as [a s i p cs].
  cbn [find_var children] in *. rewrite Hfind.
  by rewrite get_name_id_sorted_same, get_name_id_value.
Qed.

(** Without any node below that names a variable, the tag is 0. *)
Lemma tag_of_no_variable (r : registry) (n : node) :
  mentions_variable n = false → tag_of r n = 0.
Proof.
  unfold tag_of. revert r.
  induction n as [a s i p cs IH] using node_tree_ind. intros r Hm.
  cbn [find_var children]. cbn [mentions_variable children] in Hm.
  assert (Hfind : List.find names_variable cs = None).
  { clear IH. induction cs as [|c cs IHcs]; [done|]. simpl.
    apply orb_false_iff in Hm as [Hc Hm].
    apply orb_false_iff in Hc as [-> _]. by apply IHcs. }
  rewrite Hfind. clear Hfind.
  generalize (descends (Node a s i p cs)). intros g.
  generalize 0%nat.
  induction IH as [|c cs Hc _ IHcs]; intros k; [done|].
  apply orb_false_iff in Hm as [Hcm Hm].
  apply orb_false_iff in Hcm as [_ Hcm].
  destruct (g k).
  - by apply Hc.
  - by apply IHcs.
Qed.

Lemma tag_commands_spec (v : list node) (r0 : registry) (indices : list Z)
    (cs : list node) :
  Forall2 (λ i c, at_ v i = Some c) indices cs →
  ∀ r, same_shown r r0 →
    ∃ r', tag_commands v indices r = Some ((λ c, (tag_of r0 c, c)) <$> cs, r')
          ∧ same_shown r' r0.
Proof.
  induction 1 as [|i c indices cs Hi _ IH]; intros r Hr.
  - exists r. by split.
  - cbn [tag_commands]. rewrite Hi.
    destruct (find_var_same_shown c r r0 Hr) as [Htag Hr1].
    destruct (find_var c r) as [tag r1] eqn:Hfv. simpl in Htag, Hr1.
    destruct (IH r1 Hr1) as (r' & -> & Hr').
    exists r'. split; [|done]. simpl. unfold tag_of. by rewrite Htag.
Qed.

Lemma window_elements (v : list node) (start end_ : Z) :
  0 ≤ start ≤ end_ → end_ ≤ Z.of_nat (length v) →
  Forall2 (λ i c, at_ v i = Some c) (seqZ start (end_ - start))
          (window v start end_).
Proof.
  intros Hse Hend. apply Forall2_same_length_lookup_2.
  - unfold window. rewrite length_seqZ, length_take, length_drop. lia.
  - intros k i c Hi Hc. apply lookup_seqZ in Hi as [-> Hk].
    unfold window in Hc. apply lookup_take_Some in Hc as [Hc _].
    rewrite lookup_drop in Hc. apply at_Some. split; [lia|].
    by replace (Z.to_nat (start + Z.of_nat k)) with (Z.to_nat start + k)%nat
      by lia.
Qed.

Section declaration_sort_properties.

Variable std_sort : ∀ A : Type, (A → A → bool) → list A → list A.
Hypothesis std_sort_ok : sort_contract std_sort.

(** C4, as amended: on a window inside the vector [sort_declarations]
    returns, the window then holds a permutation of what it held, ordered
    by ascending tag and, among equal tags, by ascending node address; the
    rest of the vector is unchanged and the first-occurrence registry
    shows what it showed.  The tag of a command with a direct child that
    names a variable (other than the equality symbol) is what the registry
    shows for the first such child (0 when it is not registered), and the
    tag of a command with no such node anywhere below it is 0. *)
Theorem sort_declarations_by_tag_and_address (v : list node)
    (start end_ : Z) (r : registry) :
  0 ≤ start ≤ end_ →
  end_ ≤ Z.of_nat (length v) →
  Z.of_nat (length v) < two64 →
  (∃ sorted r',
     sort_declarations std_sort v start end_ r
     = Some (take (Z.to_nat start) v ++ sorted ++ drop (Z.to_nat end_) v, r')
     ∧ sorted ≡ₚ window v start end_
     ∧ StronglySorted (tag_addr_le r) sorted
     ∧ ∀ s, shown_id r' s = shown_id r s)
  ∧ (∀ n c, List.find names_variable (children n) = Some c →
       tag_of r n = shown_id r (unquote (symbol c)))
  ∧ (∀ n, mentions_variable n = false → tag_of r n = 0).
Proof.
  intros Hse Hend Hsize.
  split; [|split; [apply tag_of_direct_child|apply tag_of_no_variable]].
  unfold sort_declarations.
  destruct (tag_commands_spec v r _ _ (window_elements v start end_ Hse Hend)
              r (λ _, eq_refl)) as (r' & -> & Hr').
  set (combined := (λ c, (tag_of r c, c)) <$> window v start end_).
  destruct (std_sort_ok _ pair_lt combined pair_lt_strict_weak_order)
    as [Hperm Hsorted].
  set (sorted := std_sort (Z * node) pair_lt combined) in *.
  assert (Hlen : length sorted = Z.to_nat (end_ - start)).
  { rewrite Hperm. unfold combined, window.
    rewrite length_fmap, length_take, length_drop. lia. }
  rewrite (u64_small (end_ - start)) by lia.
  rewrite bool_decide_true by lia.
  pose proof (write_back_spec (sorted.*2) v (Z.to_nat start) 0) as Hw.
  rewrite Z2Nat.id in Hw by lia. change (Z.of_nat 0) with 0 in Hw.
  rewrite length_fmap, Nat.add_0_r in Hw. rewrite Hw by lia.
  replace (Z.to_nat start + length sorted)%nat with (Z.to_nat end_) by lia.
  exists (sorted.*2), r'. split; [done|]. split; [|split; [|exact Hr']].
  - rewrite Hperm. unfold combined. rewrite <- list_fmap_compose.
    by rewrite list_fmap_id.
  - eapply StronglySorted_map_impl; [|exact Hsorted].
    intros x y Hx Hy Hxy. apply pair_lt_false_iff in Hxy.
    assert (Htag : ∀ z, z ∈ sorted → z.1 = tag_of r z.2).
    { intros z Hz. rewrite Hperm in Hz. unfold combined in Hz.
      apply list_elem_of_fmap in Hz as (c & -> & _). done. }
    unfold tag_addr_le. rewrite <- (Htag x Hx), <- (Htag y Hy). exact Hxy.
Qed.

End declaration_sort_properties.

Lemma sort_declarations_by_tag_and_address_witness :
  let f := Node 200 "declare-fun" false true [Node 201 "f" true false []] in
  let g := Node 100 "declare-fun" false true [Node 101 "g" true false []] in
  let q := Node 300 "check-sat" false true [] in
  let r := declare_all ["g"; "f"] registry_init in
  ∃ sorted r',
    sort_declarations ref_sort [f; g; q] 0 2 r = Some (sorted ++ [q], r')
    ∧ sorted ≡ₚ [f; g]
    ∧ StronglySorted (tag_addr_le r) sorted
    ∧ tag_of r f = 2.
Proof.
  intros f g q r.
  destruct (sort_declarations_by_tag_and_address ref_sort ref_sort_contract
              [f; g; q] 0 2 r)
    as [(sorted & r' & H1 & H2 & H3 & _) [H5 _]].
  - lia.
  - simpl. lia.
  - vm_compute. reflexivity.
  - exists sorted, r'. split; [exact H1|]. split; [exact H2|].
    split; [exact H3|].
    exact (H5 f (Node 201 "f" true false []) eq_refl).
Defined.

(** C4, counterexample.  In a registry that shows [y] as 1 and [f] as 2:
    two declarations of unregistered symbols both have tag 0, and every
    [std::sort] puts the one at the lower address first although it is
    second in the input; a command whose second child is the name [f] and
    whose first child contains the name [y] has tag 2 although [y] comes
    first in depth-first order; and a command whose first child is a
    plain symbol has tag 0 although [y] occurs below its second child. *)
Lemma sort_declarations_not_stable_depth_first :
  let r := declare_all ["y"; "f"] registry_init in
  let a := Node 200 "declare-fun" false true [Node 201 "a" true false []] in
  let b := Node 100 "declare-fun" false true [Node 101 "b" true false []] in
  let y := Node 11 "y" true false [] in
  let f := Node 12 "f" true false [] in
  let n1 := Node 10 "define-fun" false true
              [Node 13 "" false true [y]; f] in
  let n2 := Node 20 "define-fun" false true
              [Node 21 "Int" false false []; Node 22 "" false true [y]] in
  (tag_of r a = 0 ∧ tag_of r b = 0 ∧ spec_tag r a = 0 ∧ spec_tag r b = 0
   ∧ ∀ std_sort, sort_contract std_sort →
       fst <$> sort_declarations std_sort [a; b] 0 2 r = Some [b; a])
  ∧ (spec_first_variable n1 = Some y ∧ spec_tag r n1 = 1 ∧ tag_of r n1 = 2)
  ∧ (spec_first_variable n2 = Some y ∧ spec_tag r n2 = 1 ∧ tag_of r n2 = 0).
Proof.
  intros r a b y f n1 n2.
  split; [|split; vm_compute; done].
  split; [reflexivity|]. split; [reflexivity|].
  split; [reflexivity|]. split; [reflexivity|].
  intros std_sort Hsort. unfold sort_declarations.
  change (tag_commands [a; b] (seqZ 0 (2 - 0)) r)
    with (Some ([(0, a); (0, b)], (find_var b (find_var a r).2).2)).
  cbv beta iota.
  destruct (Hsort _ pair_lt [(0, a); (0, b)] pair_lt_strict_weak_order)
    as [Hperm Hsorted].
  symmetry in Hperm.
  apply Permutation_length_2_inv in Hperm as [Heq|Heq]; rewrite Heq in *.
  - exfalso. inversion Hsorted as [|? ? _ Hall]; subst.
    inversion Hall as [|? ? Hlt _]; subst. vm_compute in Hlt. discriminate.
  - reflexivity.
Qed.

(** ** Computations over the process state *)

Create HintDb never.
Create HintDb seed_blind.

Section never_closure.

Variable sig : signal.

Lemma never_ret {A : Type} (x : A) : never sig (ret x).
Proof. intros s. by destruct sig. Qed.

Lemma never_bind {A B : Type} (m : M A) (k : A → M B) :
  never sig m → (∀ x, never sig (k x)) → never sig (bind m k).
Proof.
  intros Hm Hk s. unfold bind. specialize (Hm s).
  destruct (m s) as [[x s']| | |]; try done. apply Hk.
Qed.

Lemma never_gets {A : Type} (f : state → A) : never sig (gets f).
Proof. intros s. by destruct sig. Qed.

Lemma never_modify (f : state → state) : never sig (modify f).
Proof. intros s. by destruct sig. Qed.

Lemma never_throw {A : Type} (w : string) :
  sig ≠ SigThrow → never sig (@throw A w).
Proof. intros Hsig s. by destruct sig. Qed.

Lemma never_undefined {A : Type} :
  sig ≠ SigUndefined → never sig (@undefined A).
Proof. intros Hsig s. by destruct sig. Qed.

Lemma never_out_of_fuel {A : Type} :
  sig ≠ SigOutOfFuel → never sig (@out_of_fuel A).
Proof. intros Hsig s. by destruct sig. Qed.

Lemma never_when (b : bool) (m : M unit) :
  never sig m → never sig (when_ b m).
Proof. intros Hm. destruct b; [done|apply never_ret]. Qed.

Lemma never_emit (s : string) : never sig (emit s).
Proof. apply never_modify. Qed.

End never_closure.

#[local] Hint Resolve never_ret never_gets never_modify never_throw
  never_undefined never_out_of_fuel never_when never_emit : never.
#[local] Hint Extern 1 (_ ≠ _) => discriminate : never.

Lemma seed_blind_ret {A : Type} (x : A) : seed_blind (ret x).
Proof. by intros y s. Qed.

Lemma seed_blind_bind {A B : Type} (m : M A) (k : A → M B) :
  seed_blind m → (∀ x, seed_blind (k x)) → seed_blind (bind m k).
Proof.
  intros Hm Hk y s. unfold bind. rewrite Hm.
  destruct (m s) as [[x s']| | |]; try done. apply Hk.
Qed.

Lemma seed_blind_gets {A : Type} (f : state → A) :
  (∀ x s, f (set_seed_of x s) = f s) → seed_blind (gets f).
Proof. intros Hf y s. unfold gets. by rewrite Hf. Qed.

Lemma seed_blind_modify (f : state → state) :
  (∀ x s, f (set_seed_of x s) = set_seed_of x (f s)) →
  seed_blind (modify f).
Proof. intros Hf y s. unfold modify. by rewrite Hf. Qed.

Lemma seed_blind_throw {A : Type} (w : string) : seed_blind (@throw A w).
Proof. by intros y s. Qed.

Lemma seed_blind_undefined {A : Type} : seed_blind (@undefined A).
Proof. by intros y s. Qed.

Lemma seed_blind_out_of_fuel {A : Type} : seed_blind (@out_of_fuel A).
Proof. by intros y s. Qed.

Lemma seed_blind_when (b : bool) (m : M unit) :
  seed_blind m → seed_blind (when_ b m).
Proof. intros Hm. destruct b; [done|apply seed_blind_ret]. Qed.

Lemma seed_blind_emit (s : string) : seed_blind (emit s).
Proof. by apply seed_blind_modify. Qed.

#[local] Hint Resolve seed_blind_ret seed_blind_throw seed_blind_undefined
  seed_blind_out_of_fuel seed_blind_when seed_blind_emit : seed_blind.
#[local] Hint Extern 1 (seed_blind (gets _)) =>
  apply seed_blind_gets; intros; reflexivity : seed_blind.
#[local] Hint Extern 1 (seed_blind (modify _)) =>
  apply seed_blind_modify; intros; reflexivity : seed_blind.

(** Takes a computation apart along its binds and its case
    distinctions, closing the leaves with [leaf]. *)
Ltac step_monad bind_lemma leaf :=
  repeat first
    [ progress leaf
    | apply bind_lemma; [|intros]
    | apply never_when
    | apply seed_blind_when
    | match goal with
      | |- _ (if ?b then _ else _) => destruct b
      | |- _ (let '(_, _) := ?p in _) => destruct p
      end ].

Ltac step_never := step_monad @never_bind ltac:(eauto with never).
Ltac step_seed_blind :=
  step_monad @seed_blind_bind ltac:(eauto with seed_blind).

Lemma never_make_annotation_name (sig : signal) :
  never sig make_annotation_name.
Proof. unfold make_annotation_name. step_never. Qed.

Lemma never_lookup_sorted (sig : signal) (sym : string) :
  never sig (lookup_sorted sym).
Proof. unfold lookup_sorted. step_never. Qed.

Lemma seed_blind_make_annotation_name : seed_blind make_annotation_name.
Proof. unfold make_annotation_name. step_seed_blind. Qed.

Lemma seed_blind_lookup_sorted (sym : string) :
  seed_blind (lookup_sorted sym).
Proof. unfold lookup_sorted. step_seed_blind. Qed.

#[local] Hint Resolve never_make_annotation_name never_lookup_sorted : never.
#[local] Hint Resolve seed_blind_make_annotation_name
  seed_blind_lookup_sorted : seed_blind.

(** The printer throws nothing and has no loop bound to exceed. *)
Lemma never_print_node_sorted (sig : signal) (o : options)
    (keep : annotation_mode) (n : node) :
  sig ≠ SigUndefined → never sig (print_node_sorted o keep n).
Proof.
  intros Hsig. induction n as [a s i p cs IH] using node_tree_ind.
  cbn [print_node_sorted children symbol is_name needs_parens].
  destruct (String.eqb s "!" && negb (keep_annotation _ keep)).
  - destruct IH; [by apply never_undefined|done].
  - step_never.
    generalize (descends (Node a s i p cs)). intros g. generalize 0%nat.
    induction IH as [|c cs Hc _ IHcs]; intros k; [apply never_ret|].
    step_never.
Qed.

Lemma seed_blind_print_node_sorted (o : options) (keep : annotation_mode)
    (n : node) :
  seed_blind (print_node_sorted o keep n).
Proof.
  induction n as [a s i p cs IH] using node_tree_ind.
  cbn [print_node_sorted children symbol is_name needs_parens].
  destruct (String.eqb s "!" && negb (keep_annotation _ keep)).
  - destruct IH; [apply seed_blind_undefined|done].
  - step_seed_blind.
    generalize (descends (Node a s i p cs)). intros g. generalize 0%nat.
    induction IH as [|c cs Hc _ IHcs]; intros k; [apply seed_blind_ret|].
    step_seed_blind.
Qed.

#[local] Hint Resolve never_print_node_sorted : never.
#[local] Hint Resolve seed_blind_print_node_sorted : seed_blind.

Lemma write_back_length (temp v v' : list node) (start i0 : Z) :
  write_back v start i0 temp = Some v' → length v' = length v.
Proof.
  revert v i0. induction temp as [|x temp IH]; intros v i0; simpl.
  - by intros [= ->].
  - destruct (at_ v (u64 (start + i0))); [|done].
    intros Hw. apply IH in Hw. by rewrite length_insert in Hw.
Qed.

Lemma run_end_gt (p : node → bool) (v : list node) (i : nat) :
  (i < run_end p v i)%nat.
Proof. unfold run_end. lia. Qed.

Section ranked_printing_properties.

Variable std_sort : ∀ A : Type, (A → A → bool) → list A → list A.
Variable o : options.

Lemma never_shuffle_commands (sig : signal) (i j : nat)
    (ranks : list float) :
  sig ≠ SigUndefined → never sig (shuffle_commands std_sort i j ranks).
Proof.
  intros Hsig s. unfold shuffle_commands.
  destruct (shuffle_list_ranks _ _ _ _ _); by destruct sig.
Qed.

Lemma never_sort_commands (sig : signal) (i j : nat) :
  sig ≠ SigUndefined → never sig (sort_commands std_sort i j).
Proof.
  intros Hsig s. unfold sort_commands.
  destruct (sort_declarations _ _ _ _ _) as [[v r]|]; by destruct sig.
Qed.

Lemma seed_blind_shuffle_commands (i j : nat) (ranks : list float) :
  seed_blind (shuffle_commands std_sort i j ranks).
Proof.
  intros x s. unfold shuffle_commands. cbn [set_seed_of commands].
  by destruct (shuffle_list_ranks _ _ _ _ _).
Qed.

Lemma seed_blind_sort_commands (i j : nat) :
  seed_blind (sort_commands std_sort i j).
Proof.
  intros x s. unfold sort_commands. cbn [set_seed_of commands names_sorted].
  by destruct (sort_declarations _ _ _ _ _) as [[v r]|].
Qed.

Hint Resolve never_shuffle_commands never_sort_commands : never.
Hint Resolve seed_blind_shuffle_commands seed_blind_sort_commands
  : seed_blind.

Lemma shuffle_commands_length (i j : nat) (ranks : list float)
    (s s' : state) :
  shuffle_commands std_sort i j ranks s = Ok (tt, s') →
  length (commands s') = length (commands s).
Proof.
  unfold shuffle_commands, shuffle_list_ranks.
  destruct (gather _ _ _) as [temp|]; [|done].
  destruct (bool_decide _); [|done].
  destruct (write_back _ _ _ _) as [v'|] eqn:Hw; [|done].
  intros [= <-]. simpl. by eapply write_back_length.
Qed.

Lemma sort_commands_length (i j : nat) (s s' : state) :
  sort_commands std_sort i j s = Ok (tt, s') →
  length (commands s') = length (commands s).
Proof.
  unfold sort_commands, sort_declarations.
  destruct (tag_commands _ _ _) as [[combined r]|]; [|done].
  destruct (bool_decide _); [|done].
  destruct (write_back _ _ _ _) as [v'|] eqn:Hw; [|done].
  intros [= <-]. simpl. by eapply write_back_length.
Qed.

(** The branch that throws is guarded by [already], which is [false] in
    every iteration. *)
Lemma never_throw_rank_pass (fuel i : nat) :
  never SigThrow (rank_pass std_sort o fuel i).
Proof.
  revert i. induction fuel as [|fuel IH]; intros i; cbn [rank_pass].
  - apply never_bind; [apply never_gets|]. intros v.
    destruct (v !! i); eauto with never.
  - apply never_bind; [apply never_gets|]. intros v.
    destruct (v !! i) as [ci|]; [|apply never_ret].
    rewrite andb_false_r, andb_true_r.
    destruct (is_assert ci); [|apply IH].
    step_never.
Qed.

Lemma never_throw_declaration_pass (fuel i : nat) :
  never SigThrow (declaration_pass std_sort fuel i).
Proof.
  revert i. induction fuel as [|fuel IH]; intros i; cbn [declaration_pass].
  - apply never_bind; [apply never_gets|]. intros v.
    destruct (v !! i); eauto with never.
  - apply never_bind; [apply never_gets|]. intros v.
    destruct (v !! i) as [ci|]; [|apply never_ret].
    rewrite andb_false_r, andb_true_r.
    destruct (is_declaration ci); [|apply IH].
    step_never.
Qed.

(** A pass started with as many iterations allowed as there are commands
    left does not run into its bound. *)
Lemma rank_pass_in_bound (fuel i : nat) (s : state) :
  (length (commands s) - i ≤ fuel)%nat →
  out_of_bound (rank_pass std_sort o fuel i s) = false.
Proof.
  revert i s. induction fuel as [|fuel IH]; intros i s Hfuel;
    cbn [rank_pass]; unfold bind at 1, gets.
  - destruct (commands s !! i) eqn:Hi; [|done].
    apply lookup_lt_Some in Hi. lia.
  - destruct (commands s !! i) as [ci|] eqn:Hi; [|done].
    rewrite andb_false_r, andb_true_r.
    destruct (is_assert ci); [|apply IH; lia].
    pose proof (run_end_gt is_assert (commands s) i) as Hj.
    unfold bind. destruct (1 <? _)%nat; simpl.
    + match goal with
      | |- context [shuffle_commands ?f ?a ?b ?c s] =>
          pose proof (never_shuffle_commands SigOutOfFuel a b c
                        ltac:(discriminate) s) as Hn;
          destruct (shuffle_commands f a b c s) as [[[] s']| | |] eqn:Hs;
          try done
      end.
      apply IH. apply shuffle_commands_length in Hs. lia.
    + apply IH. lia.
Qed.

Lemma declaration_pass_in_bound (fuel i : nat) (s : state) :
  (length (commands s) - i ≤ fuel)%nat →
  out_of_bound (declaration_pass std_sort fuel i s) = false.
Proof.
  revert i s. induction fuel as [|fuel IH]; intros i s Hfuel;
    cbn [declaration_pass]; unfold bind at 1, gets.
  - destruct (commands s !! i) eqn:Hi; [|done].
    apply lookup_lt_Some in Hi. lia.
  - destruct (commands s !! i) as [ci|] eqn:Hi; [|done].
    rewrite andb_false_r, andb_true_r.
    destruct (is_declaration ci); [|apply IH; lia].
    pose proof (run_end_gt is_declaration (commands s) i) as Hj.
    unfold bind. destruct (1 <? _)%nat; simpl.
    + match goal with
      | |- context [sort_commands ?f ?a ?b s] =>
          pose proof (never_sort_commands SigOutOfFuel a b
                        ltac:(discriminate) s) as Hn;
          destruct (sort_commands f a b s) as [[[] s']| | |] eqn:Hs;
          try done
      end.
      apply IH. apply sort_commands_length in Hs. lia.
    + apply IH. lia.
Qed.

Lemma never_print_all (sig : signal) (keep : annotation_mode)
    (v : list node) :
  sig ≠ SigUndefined → never sig (print_all o keep v).
Proof.
  intros Hsig.
  induction v as [|n v IH]; cbn [print_all]; [apply never_ret|].
  unfold print_command_sorted. step_never.
Qed.

Lemma never_throw_print_ranked (keep : annotation_mode) :
  never SigThrow (print_ranked std_sort o keep).
Proof.
  unfold print_ranked, assign_pass.
  pose proof never_throw_rank_pass. pose proof never_throw_declaration_pass.
  pose proof never_print_all.
  step_never.
Qed.

(** [print_ranked] does not run into the bounds of its loops. *)
Lemma print_ranked_in_bound (keep : annotation_mode) (s : state) :
  out_of_bound (print_ranked std_sort o keep s) = false.
Proof.
  unfold print_ranked. unfold bind at 1, gets. unfold bind at 1.
  pose proof (rank_pass_in_bound (length (commands s)) 0 s ltac:(lia)) as H1.
  destruct (rank_pass _ _ _ _ s) as [[[] s1]| | |]; try done.
  unfold bind at 1, assign_pass, modify. unfold bind at 1, gets.
  unfold bind at 1.
  set (s2 := set_names_sorted _ s1).
  pose proof (declaration_pass_in_bound (length (commands s2)) 0 s2
                ltac:(lia)) as H2.
  destruct (declaration_pass _ _ _ s2) as [[[] s3]| | |]; try done.
  unfold bind at 1, gets. unfold bind.
  pose proof (never_print_all SigOutOfFuel keep (commands s3)
                ltac:(discriminate) s3) as H3.
  by destruct (print_all _ _ _ s3) as [[[] s4]| | |].
Qed.

Lemma seed_blind_rank_pass (fuel i : nat) :
  seed_blind (rank_pass std_sort o fuel i).
Proof.
  revert i. induction fuel as [|fuel IH]; intros i; cbn [rank_pass].
  - apply seed_blind_bind; [eauto with seed_blind|]. intros v.
    destruct (v !! i); eauto with seed_blind.
  - apply seed_blind_bind; [eauto with seed_blind|]. intros v.
    destruct (v !! i) as [ci|]; [|apply seed_blind_ret].
    rewrite andb_false_r, andb_true_r.
    destruct (is_assert ci); [|apply IH].
    step_seed_blind.
Qed.

Lemma seed_blind_declaration_pass (fuel i : nat) :
  seed_blind (declaration_pass std_sort fuel i).
Proof.
  revert i. induction fuel as [|fuel IH]; intros i; cbn [declaration_pass].
  - apply seed_blind_bind; [eauto with seed_blind|]. intros v.
    destruct (v !! i); eauto with seed_blind.
  - apply seed_blind_bind; [eauto with seed_blind|]. intros v.
    destruct (v !! i) as [ci|]; [|apply seed_blind_ret].
    rewrite andb_false_r, andb_true_r.
    destruct (is_declaration ci); [|apply IH].
    step_seed_blind.
Qed.

Lemma seed_blind_print_all (keep : annotation_mode) (v : list node) :
  seed_blind (print_all o keep v).
Proof.
  induction v as [|n v IH]; cbn [print_all]; [apply seed_blind_ret|].
  unfold print_command_sorted. step_seed_blind.
Qed.

Lemma seed_blind_print_ranked (keep : annotation_mode) :
  seed_blind (print_ranked std_sort o keep).
Proof.
  unfold print_ranked, assign_pass.
  pose proof seed_blind_rank_pass. pose proof seed_blind_declaration_pass.
  pose proof seed_blind_print_all.
  step_seed_blind.
Qed.

End ranked_printing_properties.

(** ** The print pass as a whole *)

Lemma set_seed_of_seed (s : state) : set_seed_of (seed s) s = s.
Proof. by destruct s. Qed.

Lemma printed_reseed (x : Z) (r : outcome (unit * state)) :
  printed (reseed x r) = printed r.
Proof. by destruct r as [[[] s]| | |]. Qed.

Lemma final_seed_reseed (x : Z) (r : outcome (unit * state)) :
  final_seed (reseed x r) = Some x ∨ final_seed (reseed x r) = None.
Proof. destruct r as [[[] s]| | |]; simpl; auto. Qed.

Section pipeline_properties.

Variable std_sort : ∀ A : Type, (A → A → bool) → list A → list A.
Variable o : options.
Variable keep_annotations : annotation_mode.

(** C5: failing input.  [print_ranked] never leaves by an exception; on
    the buffer [split_runs], where the assertions and the declarations
    each come in two runs, it prints every command and returns. *)
Theorem print_ranked_accepts_split_runs :
  (∀ st, throws (print_ranked std_sort o keep_annotations st) = false)
  ∧ printed (scramble std_sort (Options false false false false None) all 1
               split_runs initial_state)
    = Some split_runs_text.
Proof.
  split; [apply never_throw_print_ranked|]. vm_compute. reflexivity.
Qed.

End pipeline_properties.

(** ** Commands placed elsewhere in memory *)

Lemma relocate_unfold (f : Z → Z) (n : node) :
  relocate f n
  = Node (f (addr n)) (symbol n) (is_name n) (needs_parens n)
         (relocate f <$> children n).
Proof. by destruct n. Qed.

Lemma relocate_symbol (f : Z → Z) (n : node) :
  symbol (relocate f n) = symbol n.
Proof. by destruct n. Qed.

Lemma relocate_addr (f : Z → Z) (n : node) :
  addr (relocate f n) = f (addr n).
Proof. by destruct n. Qed.

Lemma is_assert_relocate (f : Z → Z) (n : node) :
  is_assert (relocate f n) = is_assert n.
Proof. by destruct n. Qed.

Lemma is_declaration_relocate (f : Z → Z) (n : node) :
  is_declaration (relocate f n) = is_declaration n.
Proof. by destruct n. Qed.

Lemma names_variable_relocate (f : Z → Z) (n : node) :
  names_variable (relocate f n) = names_variable n.
Proof. by destruct n. Qed.

Lemma assign_num_relocate (f : Z → Z) (n : node) :
  ∀ r, assign_num (relocate f n) r = assign_num n r.
Proof.
  induction n as [a s i p cs IH] using node_tree_ind. intros r.
  rewrite relocate_unfold. cbn [addr symbol is_name needs_parens children].
  cbn [assign_num children].
  assert (Hfirst : ∀ r0,
    foldl (λ r c, if names_variable c then set_new_name_sorted (symbol c) r
                  else r) r0 (relocate f <$> cs)
    = foldl (λ r c, if names_variable c then set_new_name_sorted (symbol c) r
                    else r) r0 cs).
  { clear. induction cs as [|c cs IHcs]; intros r0; [done|].
    cbn [fmap list_fmap foldl].
    by rewrite names_variable_relocate, relocate_symbol, <- IHcs. }
  rewrite Hfirst. set (r1 := foldl _ r cs). clearbody r1. clear Hfirst r.
  revert r1.
  change (descends (Node (f a) s i p (relocate f <$> cs)))
    with (descends (Node a s i p cs)).
  generalize (descends (Node a s i p cs)). intros g. generalize 0%nat.
  induction IH as [|c cs Hc _ IHcs]; intros k r1; [done|].
  cbn [fmap list_fmap]. rewrite Hc. apply IHcs.
Qed.

Lemma find_relocate (f : Z → Z) (cs : list node) :
  List.find names_variable (relocate f <$> cs)
  = relocate f <$> List.find names_variable cs.
Proof.
  induction cs as [|c cs IH]; [done|]. cbn [fmap list_fmap List.find].
  rewrite names_variable_relocate. by destruct (names_variable c).
Qed.

Lemma find_var_relocate (f : Z → Z) (n : node) :
  ∀ r, find_var (relocate f n) r = find_var n r.
Proof.
  induction n as [a s i p cs IH] using node_tree_ind. intros r.
  rewrite relocate_unfold. cbn [addr symbol is_name needs_parens children].
  cbn [find_var children]. rewrite find_relocate.
  destruct (List.find names_variable cs) as [c|];
    cbn [fmap option_fmap option_map].
  { by rewrite relocate_symbol. }
  change (descends (Node (f a) s i p (relocate f <$> cs)))
    with (descends (Node a s i p cs)).
  generalize (descends (Node a s i p cs)). intros g. generalize 0%nat.
  induction IH as [|c cs Hc _ IHcs]; intros k; [done|].
  cbn [fmap list_fmap]. rewrite Hc. by rewrite IHcs.
Qed.

Lemma bind_ext {A B : Type} (m1 m2 : M A) (k1 k2 : A → M B) (s : state) :
  m1 s = m2 s → (∀ x s', k1 x s' = k2 x s') → bind m1 k1 s = bind m2 k2 s.
Proof.
  intros Hm Hk. unfold bind. rewrite Hm.
  destruct (m2 s) as [[x s']| | |]; auto.
Qed.

Lemma keep_annotation_relocate (f : Z → Z) (a a' : Z) (s : string)
    (i p : bool) (cs : list node) (keep : annotation_mode) :
  keep_annotation (Node a' s i p (relocate f <$> cs)) keep
  = keep_annotation (Node a s i p cs) keep.
Proof.
  destruct keep; try done. cbn [keep_annotation children].
  destruct cs as [|c0 [|c1 [|c2 cs]]]; try done.
  cbn [fmap list_fmap]. by rewrite relocate_symbol.
Qed.

(** The printer does not look at addresses. *)
Lemma print_node_sorted_relocate (o : options) (keep : annotation_mode)
    (f : Z → Z) (n : node) :
  ∀ s, print_node_sorted o keep (relocate f n) s
       = print_node_sorted o keep n s.
Proof.
  induction n as [a sym i p cs IH] using node_tree_ind. intros s.
  rewrite relocate_unfold. cbn [addr symbol is_name needs_parens children].
  cbn [print_node_sorted children symbol is_name needs_parens].
  rewrite (keep_annotation_relocate f a).
  destruct (String.eqb sym "!" && negb (keep_annotation _ keep)).
  - destruct IH as [|c cs Hc _]; [done|]. apply Hc.
  - do 4 (apply bind_ext; [done|intros ? ?]).
    apply bind_ext; [|done]. clear s. revert s'2.
    change (descends (Node (f a) sym i p (relocate f <$> cs)))
      with (descends (Node a sym i p cs)).
    generalize (descends (Node a sym i p cs)). intros g. generalize 0%nat.
    induction IH as [|c cs Hc _ IHcs]; intros k s; [done|].
    cbn [fmap list_fmap].
    apply bind_ext; [done|intros ? ?].
    apply bind_ext; [apply Hc|intros ? ?]. apply IHcs.
Qed.

Lemma print_all_relocate (o : options) (keep : annotation_mode)
    (f : Z → Z) (v : list node) :
  ∀ s, print_all o keep (relocate f <$> v) s = print_all o keep v s.
Proof.
  induction v as [|n v IH]; intros s; [done|].
  cbn [fmap list_fmap print_all]. unfold print_command_sorted.
  apply bind_ext; [|intros ? ?; apply IH].
  apply bind_ext; [apply print_node_sorted_relocate|done].
Qed.

Lemma at_fmap {A B : Type} (g : A → B) (v : list A) (i : Z) :
  at_ (g <$> v) i = g <$> at_ v i.
Proof. unfold at_. destruct (i <? 0); [done|]. by rewrite list_lookup_fmap. Qed.

Lemma gather_fmap (g : node → node) (v : list node) (start : Z)
    (indices : list Z) :
  gather (g <$> v) start indices = fmap (M:=list) g <$> gather v start indices.
Proof.
  induction indices as [|k indices IH]; [done|]. cbn [gather].
  rewrite at_fmap, IH. destruct (at_ v _); [|done].
  cbn [fmap option_fmap option_map]. by destruct (gather v start indices).
Qed.

Lemma write_back_fmap (g : node → node) (temp : list node) :
  ∀ v start i0,
    write_back (g <$> v) start i0 (g <$> temp)
    = fmap (M:=list) g <$> write_back v start i0 temp.
Proof.
  induction temp as [|x temp IH]; intros v start i0; [done|].
  cbn [fmap list_fmap write_back]. rewrite at_fmap.
  destruct (at_ v _); [|done]. cbn [fmap option_fmap option_map].
  rewrite <- list_fmap_insert. apply IH.
Qed.

Lemma count_while_fmap (p : node → bool) (g : node → node) (l : list node) :
  (∀ x, p (g x) = p x) → count_while p (g <$> l) = count_while p l.
Proof.
  intros Hp. induction l as [|x l IH]; [done|].
  cbn [fmap list_fmap count_while]. rewrite Hp, IH. done.
Qed.

Lemma run_end_fmap (p : node → bool) (g : node → node) (v : list node)
    (i : nat) :
  (∀ x, p (g x) = p x) → run_end p (g <$> v) i = run_end p v i.
Proof.
  intros Hp. unfold run_end. by rewrite <- fmap_drop, count_while_fmap.
Qed.

Lemma bind_gets {A B : Type} (h : state → A) (k : A → M B) (s : state) :
  bind (gets h) k s = k (h s) s.
Proof. reflexivity. Qed.

Section relocation.

Variable std_sort : ∀ A : Type, (A → A → bool) → list A → list A.
Variable o : options.
Variable f : Z → Z.

(** The rank sort orders indices by rank: it does not see the nodes. *)
Lemma shuffle_list_ranks_fmap (g : node → node) (v : list node)
    (start end_ : Z) (ranks : list float) :
  shuffle_list_ranks std_sort (g <$> v) start end_ ranks
  = fmap (M:=list) g <$> shuffle_list_ranks std_sort v start end_ ranks.
Proof.
  unfold shuffle_list_ranks. rewrite gather_fmap.
  destruct (gather v start _) as [temp|]; [|done].
  cbn [fmap option_fmap option_map]. rewrite length_fmap.
  destruct (bool_decide _); [|done]. apply write_back_fmap.
Qed.

Lemma shuffle_commands_relocated (i j : nat) (ranks : list float)
    (s : state) :
  shuffle_commands std_sort i j ranks (relocated f s)
  = relocated_outcome f (shuffle_commands std_sort i j ranks s).
Proof.
  unfold shuffle_commands, relocated. cbn [commands set_commands].
  rewrite shuffle_list_ranks_fmap.
  by destruct (shuffle_list_ranks _ _ _ _ _).
Qed.

Lemma rank_pass_relocated (fuel : nat) :
  ∀ i s, rank_pass std_sort o fuel i (relocated f s)
         = relocated_outcome f (rank_pass std_sort o fuel i s).
Proof.
  induction fuel as [|fuel IH]; intros i s; cbn [rank_pass];
    rewrite !bind_gets; cbn [relocated commands set_commands];
    rewrite list_lookup_fmap.
  - by destruct (commands s !! i).
  - destruct (commands s !! i) as [ci|]; [|done].
    cbn [fmap option_fmap option_map].
    rewrite is_assert_relocate, andb_false_r, andb_true_r.
    destruct (is_assert ci); [|apply IH].
    rewrite (run_end_fmap _ _ _ _ (is_assert_relocate f)).
    set (j := run_end is_assert (commands s) i).
    unfold bind. destruct (1 <? j - i)%nat; cbn [when_].
    + fold (relocated f s). rewrite shuffle_commands_relocated.
      destruct (shuffle_commands _ _ _ _ s) as [[[] s']| | |]; try done.
      apply IH.
    + apply IH.
Qed.

End relocation.

Lemma tag_commands_relocate (f : Z → Z) (v : list node) (indices : list Z) :
  ∀ r, tag_commands (relocate f <$> v) indices r
       = (λ lr : list (Z * node) * registry,
            (prod_map id (relocate f) <$> lr.1, lr.2))
         <$> tag_commands v indices r.
Proof.
  induction indices as [|k indices IH]; intros r; [done|].
  cbn [tag_commands]. rewrite at_fmap.
  destruct (at_ v k) as [c|]; [|done]. cbn [fmap option_fmap option_map].
  rewrite find_var_relocate. destruct (find_var c r) as [tag r1].
  rewrite IH. by destruct (tag_commands v indices r1) as [[rest r2]|].
Qed.

Lemma tag_commands_elements (v : list node) (indices : list Z) :
  ∀ r combined r',
    tag_commands v indices r = Some (combined, r') →
    ∀ p, p ∈ combined → p.2 ∈ v.
Proof.
  induction indices as [|k indices IH]; intros r combined r'.
  - intros [= <- _] p Hp. by apply elem_of_nil in Hp.
  - cbn [tag_commands]. destruct (at_ v k) as [c|] eqn:Hc; [|done].
    destruct (find_var c r) as [tag r1].
    destruct (tag_commands v indices r1) as [[rest r2]|] eqn:Hrest; [|done].
    intros [= <- _] p Hp. apply elem_of_cons in Hp as [->|Hp].
    + unfold at_ in Hc. destruct (k <? 0); [done|].
      by eapply list_elem_of_lookup_2.
    + by eapply IH.
Qed.

Lemma elem_of_insert_inv {A : Type} (l : list A) (i : nat) (x y : A) :
  x ∈ <[i := y]> l → x = y ∨ x ∈ l.
Proof.
  intros Hx. apply list_elem_of_lookup in Hx as [j Hj].
  apply list_lookup_insert_Some in Hj as [(_ & -> & _)|[_ Hj]]; [by left|].
  right. by eapply list_elem_of_lookup_2.
Qed.

Lemma write_back_elements (temp : list node) :
  ∀ v start i0 v',
    write_back v start i0 temp = Some v' →
    ∀ x, x ∈ v' → x ∈ v ∨ x ∈ temp.
Proof.
  induction temp as [|y temp IH]; intros v start i0 v'.
  - intros [= <-] x Hx. by left.
  - cbn [write_back]. destruct (at_ v _); [|done].
    intros Hw x Hx. destruct (IH _ _ _ _ Hw x Hx) as [Hin|Hin].
    + apply elem_of_insert_inv in Hin as [->|Hin];
        [right; by left|by left].
    + right. by right.
Qed.

Lemma gather_elements (v : list node) (start : Z) (indices : list Z) :
  ∀ temp, gather v start indices = Some temp →
    ∀ x, x ∈ temp → x ∈ v.
Proof.
  induction indices as [|k indices IH]; intros temp.
  - intros [= <-] x Hx. by apply elem_of_nil in Hx.
  - cbn [gather]. destruct (at_ v _) as [c|] eqn:Hc; [|done].
    destruct (gather v start indices) as [rest|]; [|done].
    intros [= <-] x Hx. apply elem_of_cons in Hx as [->|Hx].
    + unfold at_ in Hc. destruct (_ <? 0); [done|].
      by eapply list_elem_of_lookup_2.
    + by eapply IH.
Qed.

(** A list has at most one arrangement in non-descending order when the
    order is antisymmetric on its elements. *)
Lemma sorted_permutation_unique {A : Type} (R : A → A → Prop)
    (l1 l2 : list A) :
  (∀ x y, x ∈ l1 → y ∈ l1 → R x y → R y x → x = y) →
  StronglySorted R l1 → StronglySorted R l2 → l1 ≡ₚ l2 → l1 = l2.
Proof.
  intros Hanti Hs1. revert l2.
  induction Hs1 as [|x l1 Hs1 IH Hall1]; intros l2 Hs2 Hperm.
  - by apply Permutation_nil_l in Hperm.
  - destruct Hs2 as [|y l2 Hs2 Hall2].
    { by apply Permutation_nil_r in Hperm. }
    rewrite Forall_forall in Hall1, Hall2.
    assert (Hxy : x = y).
    { assert (Hx : x ∈ y :: l2) by (rewrite <- Hperm; by left).
      assert (Hy : y ∈ x :: l1) by (rewrite Hperm; by left).
      apply elem_of_cons in Hx as [Hx|Hx]; [done|].
      pose proof Hy as Hy'.
      apply elem_of_cons in Hy as [Hy|Hy]; [done|].
      apply Hanti; [by left|done|by apply Hall1|by apply Hall2]. }
    subst y. f_equal. apply IH; [|done|by eapply Permutation_cons_inv].
    intros a b Ha Hb. apply Hanti; by right.
Qed.

Lemma placed_alike_subseteq (f : Z → Z) (v v' : list node) :
  (∀ x, x ∈ v' → x ∈ v) → placed_alike f v → placed_alike f v'.
Proof. intros Hsub Hv a b Ha Hb. apply Hv; by apply Hsub. Qed.

Lemma pair_lt_relocate (f : Z → Z) (v : list node) (x y : Z * node) :
  placed_alike f v → x.2 ∈ v → y.2 ∈ v →
  pair_lt (prod_map id (relocate f) x) (prod_map id (relocate f) y)
  = pair_lt x y.
Proof.
  intros Hv Hx Hy. destruct x as [t c], y as [t' c']. unfold pair_lt.
  cbn [prod_map fst snd id]. rewrite !relocate_addr.
  by destruct (Hv c c' Hx Hy) as [-> _].
Qed.

Section relocated_sort.

Variable std_sort : ∀ A : Type, (A → A → bool) → list A → list A.
Hypothesis std_sort_ok : sort_contract std_sort.
Variable o : options.
Variable f : Z → Z.

(** Among commands that are distinct objects every arrangement that
    [std::sort] may return for [pair_lt] is the same one, and it is the
    same one after the commands have been moved with the order of their
    addresses kept. *)
Lemma std_sort_relocate (combined : list (Z * node)) (v : list node) :
  placed_alike f v → (∀ p, p ∈ combined → p.2 ∈ v) →
  std_sort _ pair_lt (prod_map id (relocate f) <$> combined)
  = prod_map id (relocate f) <$> std_sort _ pair_lt combined.
Proof.
  intros Hv Hin. set (h := prod_map id (relocate f)).
  destruct (std_sort_ok _ pair_lt combined pair_lt_strict_weak_order)
    as [Hperm Hsorted].
  destruct (std_sort_ok _ pair_lt (h <$> combined) pair_lt_strict_weak_order)
    as [Hperm' Hsorted'].
  set (S := std_sort _ pair_lt combined) in *.
  assert (HinS : ∀ p, p ∈ S → p.2 ∈ v).
  { intros p Hp. apply Hin. by rewrite <- Hperm. }
  symmetry.
  apply (sorted_permutation_unique (λ x y, pair_lt y x = false)).
  - intros x' y' Hx Hy.
    apply list_elem_of_fmap in Hx as (x & -> & Hx).
    apply list_elem_of_fmap in Hy as (y & -> & Hy).
    unfold h. rewrite !(pair_lt_relocate f v) by auto.
    intros H1 H2. apply pair_lt_false_iff in H1, H2.
    destruct x as [t c], y as [t' c']. cbn [fst snd] in *.
    assert (Ht : t = t') by lia. assert (Ha : addr c = addr c') by lia.
    destruct (Hv c c' (HinS _ Hx) (HinS _ Hy)) as [_ Hc].
    by rewrite Ht, (Hc Ha).
  - eapply StronglySorted_map_impl; [|exact Hsorted].
    intros x y Hx Hy Hxy. unfold h.
    by rewrite (pair_lt_relocate f v) by auto.
  - exact Hsorted'.
  - by rewrite Hperm', Hperm.
Qed.

Lemma sort_declarations_relocate (v : list node) (start end_ : Z)
    (r : registry) :
  placed_alike f v →
  sort_declarations std_sort (relocate f <$> v) start end_ r
  = (λ vr : list node * registry, (relocate f <$> vr.1, vr.2))
    <$> sort_declarations std_sort v start end_ r.
Proof.
  intros Hv. unfold sort_declarations. rewrite tag_commands_relocate.
  destruct (tag_commands v _ r) as [[combined r']|] eqn:Htag; [|done].
  cbn [fmap option_fmap option_map fst snd].
  rewrite (std_sort_relocate combined v Hv
             (tag_commands_elements _ _ _ _ _ Htag)).
  rewrite length_fmap. destruct (bool_decide _); [|done].
  rewrite <- !list_fmap_compose.
  change (snd ∘ prod_map id (relocate f)) with (relocate f ∘ snd (A:=Z)).
  rewrite list_fmap_compose, write_back_fmap.
  by destruct (write_back v start 0 _).
Qed.

Lemma sort_declarations_elements (v v' : list node) (start end_ : Z)
    (r r' : registry) :
  sort_declarations std_sort v start end_ r = Some (v', r') →
  ∀ x, x ∈ v' → x ∈ v.
Proof.
  unfold sort_declarations.
  destruct (tag_commands v _ r) as [[combined r1]|] eqn:Htag; [|done].
  destruct (bool_decide _); [|done].
  destruct (write_back _ _ _ _) as [v1|] eqn:Hw; [|done].
  intros [= <- _] x Hx.
  destruct (write_back_elements _ _ _ _ _ Hw x Hx) as [Hin|Hin]; [done|].
  apply list_elem_of_fmap in Hin as (p & -> & Hp).
  destruct (std_sort_ok _ pair_lt combined pair_lt_strict_weak_order)
    as [Hperm _].
  rewrite Hperm in Hp. by eapply tag_commands_elements.
Qed.

Lemma sort_commands_relocated (i j : nat) (s : state) :
  placed_alike f (commands s) →
  sort_commands std_sort i j (relocated f s)
  = relocated_outcome f (sort_commands std_sort i j s).
Proof.
  intros Hv. unfold sort_commands, relocated.
  cbn [commands set_commands names_sorted].
  rewrite sort_declarations_relocate by done.
  by destruct (sort_declarations _ _ _ _ _) as [[v' r']|].
Qed.

Lemma declaration_pass_relocated (fuel : nat) :
  ∀ i s, placed_alike f (commands s) →
    declaration_pass std_sort fuel i (relocated f s)
    = relocated_outcome f (declaration_pass std_sort fuel i s).
Proof.
  induction fuel as [|fuel IH]; intros i s Hv; cbn [declaration_pass];
    rewrite !bind_gets; cbn [relocated commands set_commands];
    rewrite list_lookup_fmap.
  - by destruct (commands s !! i).
  - destruct (commands s !! i) as [ci|]; [|done].
    cbn [fmap option_fmap option_map].
    rewrite is_declaration_relocate, andb_false_r, andb_true_r.
    destruct (is_declaration ci); [|by apply IH].
    rewrite (run_end_fmap _ _ _ _ (is_declaration_relocate f)).
    set (j := run_end is_declaration (commands s) i).
    unfold bind. destruct (1 <? j - i)%nat; cbn [when_].
    + fold (relocated f s). rewrite sort_commands_relocated by done.
      destruct (sort_commands _ _ _ s) as [[[] s']| | |] eqn:Hs; try done.
      apply IH. eapply placed_alike_subseteq; [|exact Hv].
      unfold sort_commands in Hs.
      destruct (sort_declarations _ _ _ _ _) as [[v' r']|] eqn:Hd; [|done].
      injection Hs as <-. cbn [commands set_commands set_names_sorted].
      by eapply sort_declarations_elements.
    + by apply IH.
Qed.

(** The commands in the buffer after the first loop were in it before. *)
Lemma rank_pass_elements (fuel : nat) :
  ∀ i s s', rank_pass std_sort o fuel i s = Ok (tt, s') →
    ∀ x, x ∈ commands s' → x ∈ commands s.
Proof.
  induction fuel as [|fuel IH]; intros i s s'; cbn [rank_pass];
    rewrite bind_gets.
  - destruct (commands s !! i); [done|]. by intros [= <-].
  - destruct (commands s !! i) as [ci|]; [|by intros [= <-]].
    rewrite andb_false_r, andb_true_r.
    destruct (is_assert ci); [|apply IH].
    set (j := run_end is_assert (commands s) i).
    unfold bind. destruct (1 <? j - i)%nat; cbn [when_]; [|apply IH].
    destruct (shuffle_commands _ _ _ _ s) as [[[] s1]| | |] eqn:Hs; try done.
    intros Hrest x Hx. apply (IH _ _ _ Hrest) in Hx.
    unfold shuffle_commands, shuffle_list_ranks in Hs.
    destruct (gather _ _ _) as [temp|] eqn:Hg; [|done].
    destruct (bool_decide _); [|done].
    destruct (write_back _ _ _ _) as [v'|] eqn:Hw; [|done].
    injection Hs as <-. cbn [commands set_commands] in Hx.
    destruct (write_back_elements _ _ _ _ _ Hw x Hx) as [Hin|Hin]; [done|].
    by eapply gather_elements.
Qed.

End relocated_sort.

Create HintDb moves_along.

Section moves_along_closure.

Variable f : Z → Z.

Lemma moves_along_ret {A : Type} (x : A) : moves_along f (ret x).
Proof. by intros s. Qed.

Lemma moves_along_bind {A B : Type} (m : M A) (k : A → M B) :
  moves_along f m → (∀ x, moves_along f (k x)) → moves_along f (bind m k).
Proof.
  intros Hm Hk s. unfold bind. rewrite Hm.
  destruct (m s) as [[x s']| | |]; try done. apply Hk.
Qed.

Lemma moves_along_gets {A : Type} (h : state → A) :
  (∀ s, h (relocated f s) = h s) → moves_along f (gets h).
Proof. intros Hh s. unfold gets. by rewrite Hh. Qed.

Lemma moves_along_modify (g : state → state) :
  (∀ s, g (relocated f s) = relocated f (g s)) → moves_along f (modify g).
Proof. intros Hg s. unfold modify. by rewrite Hg. Qed.

Lemma moves_along_undefined {A : Type} : moves_along f (@undefined A).
Proof. by intros s. Qed.

Lemma moves_along_when (b : bool) (m : M unit) :
  moves_along f m → moves_along f (when_ b m).
Proof. intros Hm. destruct b; [done|apply moves_along_ret]. Qed.

Lemma moves_along_emit (t : string) : moves_along f (emit t).
Proof. by apply moves_along_modify. Qed.

End moves_along_closure.

#[local] Hint Resolve moves_along_ret moves_along_undefined moves_along_when
  moves_along_emit : moves_along.
#[local] Hint Extern 1 (moves_along _ (gets _)) =>
  apply moves_along_gets; intros; reflexivity : moves_along.
#[local] Hint Extern 1 (moves_along _ (modify _)) =>
  apply moves_along_modify; intros; reflexivity : moves_along.

Ltac step_moves_along :=
  repeat first
    [ progress (eauto with moves_along)
    | apply moves_along_bind; [|intros]
    | apply moves_along_when
    | match goal with
      | |- _ (if ?b then _ else _) => destruct b
      | |- _ (let '(_, _) := ?p in _) => destruct p
      end ].

Lemma moves_along_make_annotation_name (f : Z → Z) :
  moves_along f make_annotation_name.
Proof. unfold make_annotation_name. step_moves_along. Qed.

Lemma moves_along_lookup_sorted (f : Z → Z) (sym : string) :
  moves_along f (lookup_sorted sym).
Proof. unfold lookup_sorted. step_moves_along. Qed.

#[local] Hint Resolve moves_along_make_annotation_name
  moves_along_lookup_sorted : moves_along.

(** The printer does not look at the buffer. *)
Lemma moves_along_print_node_sorted (f : Z → Z) (o : options)
    (keep : annotation_mode) (n : node) :
  moves_along f (print_node_sorted o keep n).
Proof.
  induction n as [a s i p cs IH] using node_tree_ind.
  cbn [print_node_sorted children symbol is_name needs_parens].
  destruct (String.eqb s "!" && negb (keep_annotation _ keep)).
  - destruct IH; [apply moves_along_undefined|done].
  - step_moves_along.
    generalize (descends (Node a s i p cs)). intros g. generalize 0%nat.
    induction IH as [|c cs Hc _ IHcs]; intros k; [apply moves_along_ret|].
    step_moves_along.
Qed.

#[local] Hint Resolve moves_along_print_node_sorted : moves_along.

Lemma moves_along_print_all (f : Z → Z) (o : options)
    (keep : annotation_mode) (v : list node) :
  moves_along f (print_all o keep v).
Proof.
  induction v as [|n v IH]; cbn [print_all]; [apply moves_along_ret|].
  unfold print_command_sorted. step_moves_along.
Qed.

Lemma first_occurrences_relocate (f : Z → Z) (v : list node) :
  ∀ r, first_occurrences (relocate f <$> v) r = first_occurrences v r.
Proof.
  unfold first_occurrences. induction v as [|c v IH]; intros r; [done|].
  cbn [fmap list_fmap foldl].
  by rewrite is_assert_relocate, assign_num_relocate, <- IH.
Qed.

Lemma moves_along_assign_pass (f : Z → Z) : moves_along f assign_pass.
Proof.
  intros s. unfold assign_pass, modify.
  cbn [relocated commands set_commands names_sorted].
  fold (first_occurrences (relocate f <$> commands s) (names_sorted s)).
  by rewrite first_occurrences_relocate.
Qed.

Lemma bind_relocated {A B : Type} (f : Z → Z) (m m' : M A)
    (k k' : A → M B) (s : state) :
  m (relocated f s) = relocated_outcome f (m' s) →
  (∀ x s', m' s = Ok (x, s') → k x (relocated f s') = k' x s') →
  bind m k (relocated f s) = bind m' k' s.
Proof.
  intros Hm Hk. unfold bind. rewrite Hm.
  destruct (m' s) as [[x s']| | |]; try done. by apply Hk.
Qed.

Section relocated_print_ranked.

Variable std_sort : ∀ A : Type, (A → A → bool) → list A → list A.
Hypothesis std_sort_ok : sort_contract std_sort.
Variable o : options.
Variable f : Z → Z.

(** [print_ranked] on commands that have been moved in memory with the
    order of their addresses kept does what it does on the commands where
    they were. *)
Lemma print_ranked_relocated (keep : annotation_mode) (s : state) :
  placed_alike f (commands s) →
  print_ranked std_sort o keep (relocated f s)
  = print_ranked std_sort o keep s.
Proof.
  intros Hv. unfold print_ranked. rewrite !bind_gets.
  cbn [relocated commands set_commands]. rewrite length_fmap.
  fold (relocated f s).
  apply bind_relocated; [apply rank_pass_relocated|]. intros [] s1 H1.
  apply bind_relocated; [apply moves_along_assign_pass|]. intros [] s2 H2.
  assert (Hv2 : placed_alike f (commands s2)).
  { injection H2 as <-. cbn [commands set_names_sorted].
    eapply placed_alike_subseteq; [|exact Hv].
    by eapply rank_pass_elements. }
  rewrite !bind_gets. cbn [relocated commands set_commands].
  rewrite length_fmap. fold (relocated f s2).
  apply bind_relocated; [by apply declaration_pass_relocated|].
  intros [] s3 H3.
  rewrite !bind_gets. cbn [relocated commands set_commands].
  fold (relocated f s3).
  apply bind_relocated.
  { rewrite print_all_relocate. apply moves_along_print_all. }
  intros [] s4 H4. reflexivity.
Qed.

End relocated_print_ranked.

Lemma placed_alike_intro (f : Z → Z) (v : list node) :
  NoDup (addr <$> v) → same_order f (addr <$> v) → placed_alike f v.
Proof.
  intros Hnd Hord a b Ha Hb. unfold same_order in Hord.
  rewrite Forall_forall in Hord. split.
  - assert (Ha' : addr a ∈ addr <$> v) by (by apply list_elem_of_fmap_2).
    assert (Hb' : addr b ∈ addr <$> v) by (by apply list_elem_of_fmap_2).
    specialize (Hord _ Ha'). rewrite Forall_forall in Hord. by apply Hord.
  - clear Hord. intros Hab.
    induction v as [|c v IH]; [by apply elem_of_nil in Ha|].
    cbn [fmap list_fmap] in Hnd. apply NoDup_cons in Hnd as [Hc Hnd].
    apply elem_of_cons in Ha as [->|Ha], Hb as [->|Hb]; [done| | |by apply IH].
    + exfalso. apply Hc. rewrite Hab. by apply list_elem_of_fmap_2.
    + exfalso. apply Hc. rewrite <- Hab. by apply list_elem_of_fmap_2.
Qed.

Section pipeline_placement.

Variable std_sort : ∀ A : Type, (A → A → bool) → list A → list A.
Hypothesis std_sort_ok : sort_contract std_sort.
Variable o : options.
Variable keep_annotations : annotation_mode.

(** C1, as amended: a run of the pipeline is determined by the seed, the
    command stream and the order in which the commands lie in memory.
    Take a buffer of fewer than [2^31] commands that are distinct objects,
    and the same commands placed elsewhere by [f], with the order of
    their addresses kept.  Whatever the generator state and the buffer
    held before, the run on the one and the run on the other, with the
    same seed, the same [std::sort] and the same registries, counter and
    output so far, end in the same outcome: the same text printed and
    the same final state.  The passes of [print_ranked] draw no random
    number: a finished run leaves the generator in the seeded state, and
    the text printed does not depend on the seed.  No run is cut off by
    the bound of a loop. *)
Theorem scramble_determined_up_to_placement (f : Z → Z) (s : Z)
    (input : list node) :
  Z.of_nat (length input) < 2 ^ 31 →
  NoDup (addr <$> input) →
  same_order f (addr <$> input) →
  (∀ g1 g2 c1 c2 nm ns an co,
     scramble std_sort o keep_annotations s (relocate f <$> input)
       (State g1 nm ns an c1 co)
     = scramble std_sort o keep_annotations s input
         (State g2 nm ns an c2 co))
  ∧ (∀ st,
       final_seed (scramble std_sort o keep_annotations s input st)
       = Some (Prng.set_seed s)
       ∨ final_seed (scramble std_sort o keep_annotations s input st) = None)
  ∧ (∀ s' st,
       printed (scramble std_sort o keep_annotations s' input st)
       = printed (scramble std_sort o keep_annotations s input st))
  ∧ (∀ st,
       out_of_bound (scramble std_sort o keep_annotations s input st)
       = false).
Proof.
  intros _ Hnd Hord.
  assert (Hrun : ∀ x st,
    scramble std_sort o keep_annotations x input st
    = reseed (Prng.set_seed x)
        (print_ranked std_sort o keep_annotations (set_commands input st))).
  { intros x st. unfold scramble.
    by rewrite <- seed_blind_print_ranked. }
  split; [|split; [|split]].
  - intros g1 g2 c1 c2 nm ns an co. unfold scramble.
    change (print_ranked std_sort o keep_annotations
              (relocated f (State (Prng.set_seed s) nm ns an input co))
            = print_ranked std_sort o keep_annotations
                (State (Prng.set_seed s) nm ns an input co)).
    apply print_ranked_relocated; [done|].
    by apply placed_alike_intro.
  - intros st. rewrite Hrun. apply final_seed_reseed.
  - intros s' st. by rewrite !Hrun, !printed_reseed.
  - intros st. apply print_ranked_in_bound.
Qed.

End pipeline_placement.

Lemma scramble_determined_up_to_placement_witness :
  let o := Options false false false false None in
  let input :=
    [ Node 200 "declare-fun" false true [Node 201 "b" true false []];
      Node 100 "declare-fun" false true [Node 101 "a" true false []];
      Node 300 "assert" false true
        [Node 301 ">" false true
           [Node 302 "b" true false []; Node 303 "a" true false []]];
      Node 400 "check-sat" false true [] ] in
  let f := λ x, 3 * x + 7 in
  scramble ref_sort o all 1 (relocate f <$> input) initial_state
  = scramble ref_sort o all 1 input initial_state
  ∧ printed (scramble ref_sort o all 1 input initial_state)
    = Some ("(declare-fun x1)" +:+ endl +:+ "(declare-fun x2)" +:+ endl
            +:+ "(assert (> x1 x2))" +:+ endl +:+ "(check-sat)" +:+ endl).
Proof.
  intros o input f.
  destruct (scramble_determined_up_to_placement ref_sort ref_sort_contract
              o all f 1 input) as (H1 & _).
  - vm_compute. reflexivity.
  - apply (bool_decide_unpack _). vm_compute. exact I.
  - repeat constructor.
  - split; [|vm_compute; reflexivity].
    exact (H1 0 0 [] [] registry_init registry_init 1 ""%string).
Defined.

(** On a buffer of two declarations [print_ranked] sorts them and prints
    what the sort left in the buffer. *)
Lemma print_ranked_two_declarations
    (std_sort : ∀ A : Type, (A → A → bool) → list A → list A)
    (o : options) (keep : annotation_mode) (a b : node) (s0 s1 : state) :
  is_declaration a = true → is_declaration b = true →
  is_assert a = false → is_assert b = false →
  commands s0 = [a; b] →
  sort_commands std_sort 0 2 s0 = Ok (tt, s1) →
  length (commands s1) = 2%nat →
  print_ranked std_sort o keep s0
  = (do v <- gets commands;
     do _ <- print_all o keep v;
     modify (set_commands [])) s1.
Proof.
  intros Ha Hb Ha' Hb' Hs0 Hsc Hlen.
  destruct s0 as [g nm ns an c co]. cbn [commands] in Hs0. subst c.
  unfold print_ranked. rewrite bind_gets. cbn [commands length].
  unfold bind at 1.
  assert (H1 : rank_pass std_sort o 2 0 (State g nm ns an [a; b] co)
               = Ok (tt, State g nm ns an [a; b] co)).
  { cbn [rank_pass]. rewrite !bind_gets. cbn [commands lookup list_lookup].
    rewrite Ha'. cbn [andb]. rewrite !bind_gets.
    cbn [commands lookup list_lookup]. rewrite Hb'. cbn [andb].
    rewrite !bind_gets. reflexivity. }
  rewrite H1. unfold bind at 1.
  assert (H2 : assign_pass (State g nm ns an [a; b] co)
               = Ok (tt, State g nm ns an [a; b] co)).
  { unfold assign_pass, modify. cbn [commands names_sorted foldl].
    by rewrite Ha', Hb'. }
  rewrite H2. rewrite bind_gets. cbn [commands length].
  unfold bind at 1.
  assert (H3 : declaration_pass std_sort 2 0 (State g nm ns an [a; b] co)
               = Ok (tt, s1)).
  { cbn [declaration_pass]. rewrite !bind_gets.
    cbn [commands lookup list_lookup]. rewrite Ha. cbn [andb negb].
    change (run_end is_declaration [a; b] 0) with
      (0 + 1 + (if is_declaration b then 1 else 0))%nat.
    rewrite Hb. cbn [Nat.add Nat.sub Nat.ltb Nat.leb when_].
    unfold bind at 1. rewrite Hsc. rewrite bind_gets.
    destruct (commands s1) as [|x [|y [|z l]]]; try discriminate Hlen.
    reflexivity. }
  rewrite H3. rewrite bind_gets. reflexivity.
Qed.

(** Two declarations of symbols that no assertion mentions both have tag
    0: every [std::sort] puts the one at the lower address first. *)
Lemma sort_commands_two_untagged
    (std_sort : ∀ A : Type, (A → A → bool) → list A → list A)
    (a b : node) (s0 : state) (r : registry) :
  sort_contract std_sort →
  commands s0 = [a; b] → addr a ≠ addr b →
  tag_commands [a; b] (seqZ 0 2) (names_sorted s0)
  = Some ([(0, a); (0, b)], r) →
  sort_commands std_sort 0 2 s0
  = Ok (tt, set_names_sorted r
              (set_commands (if addr b <? addr a then [b; a] else [a; b])
                 s0)).
Proof.
  intros Hsort Hs0 Hne Htag. unfold sort_commands, sort_declarations.
  rewrite Hs0. change (seqZ (Z.of_nat 0) (Z.of_nat 2 - Z.of_nat 0))
    with (seqZ 0 2). rewrite Htag.
  destruct (Hsort _ pair_lt [(0, a); (0, b)] pair_lt_strict_weak_order)
    as [Hperm Hsorted].
  symmetry in Hperm.
  apply Permutation_length_2_inv in Hperm as [Heq|Heq]; rewrite Heq in *.
  - inversion Hsorted as [|? ? _ Hall]; subst.
    inversion Hall as [|? ? Hlt _]; subst.
    unfold pair_lt in Hlt. cbn [fst snd] in Hlt.
    change (0 <? 0) with false in Hlt. cbn [orb andb negb] in Hlt.
    rewrite Hlt. reflexivity.
  - inversion Hsorted as [|? ? _ Hall]; subst.
    inversion Hall as [|? ? Hlt _]; subst.
    unfold pair_lt in Hlt. cbn [fst snd] in Hlt.
    change (0 <? 0) with false in Hlt. cbn [orb andb negb] in Hlt.
    destruct (addr b <? addr a) eqn:Hba; [reflexivity|].
    lia.
Qed.

(** C1, counterexample.  Two declarations of symbols that no assertion
    mentions, and the same two declarations with their places in memory
    exchanged: with the same seed and the same [std::sort], whichever it
    is, the first run prints the declaration of [a] first and the second
    run prints the declaration of [b] first. *)
Lemma scramble_depends_on_placement :
  let o := Options false false false false None in
  let a := Node 100 "declare-fun" false true [Node 101 "a" true false []] in
  let b := Node 200 "declare-fun" false true [Node 201 "b" true false []] in
  let f := λ x, if x <? 150 then x + 100 else x - 100 in
  relocate f <$> [a; b]
  = [ Node 200 "declare-fun" false true [Node 201 "a" true false []];
      Node 100 "declare-fun" false true [Node 101 "b" true false []] ]
  ∧ ∀ std_sort, sort_contract std_sort →
      printed (scramble std_sort o all 1 [a; b] initial_state)
      = Some ("(declare-fun a)" +:+ endl +:+ "(declare-fun b)" +:+ endl)
      ∧ printed (scramble std_sort o all 1 (relocate f <$> [a; b])
                   initial_state)
        = Some ("(declare-fun b)" +:+ endl +:+ "(declare-fun a)" +:+ endl).
Proof.
  intros o a b f. split; [reflexivity|].
  intros std_sort Hsort. unfold scramble. split.
  - set (s0 := set_commands [a; b]
                 (set_seed_of (Prng.set_seed 1) initial_state)).
    pose proof (sort_commands_two_untagged std_sort a b s0 _ Hsort eq_refl
                  ltac:(discriminate) eq_refl) as Hsc.
    rewrite (print_ranked_two_declarations std_sort o all a b s0 _
               eq_refl eq_refl eq_refl eq_refl eq_refl Hsc eq_refl).
    vm_compute. reflexivity.
  - set (s0 := set_commands (relocate f <$> [a; b])
                 (set_seed_of (Prng.set_seed 1) initial_state)).
    pose proof (sort_commands_two_untagged std_sort (relocate f a)
                  (relocate f b) s0 _ Hsort eq_refl
                  ltac:(discriminate) eq_refl) as Hsc.
    rewrite (print_ranked_two_declarations std_sort o all (relocate f a)
               (relocate f b) s0 _
               eq_refl eq_refl eq_refl eq_refl eq_refl Hsc eq_refl).
    vm_compute. reflexivity.
Qed.

(** ** The core file *)

Lemma skip_ws_length (b : string) :
  (String.length (skip_ws b) ≤ String.length b)%nat.
Proof.
  induction b as [|ch b IH]; simpl; [done|].
  destruct (isspace ch); simpl; lia.
Qed.

Lemma read_word_length (b : string) :
  (String.length (read_word b).2 ≤ String.length b)%nat.
Proof.
  induction b as [|ch b IH]; simpl; [done|].
  destruct (isspace ch); simpl; [lia|].
  destruct (read_word b) as [w rest]. simpl in *. lia.
Qed.

(** An extraction that succeeds consumes at least one character. *)
Lemma extract_progress (name : string) (src : istream) :
  (String.length (buffer (extract name src).2) ≤ String.length (buffer src))%nat
  ∧ (ok (extract name src).2 = true →
     (String.length (buffer (extract name src).2)
      < String.length (buffer src))%nat).
Proof.
  unfold extract. destruct (good src); [|simpl; split; [lia|]].
  - pose proof (skip_ws_length (buffer src)) as Hskip.
    destruct (skip_ws (buffer src)) as [|ch b] eqn:Hb.
    + simpl. split; [lia|done].
    + assert (Hsp : isspace ch = false).
      { clear Hskip. induction (buffer src) as [|ch' b' IH]; [done|].
        simpl in Hb. destruct (isspace ch') eqn:Hch'; [by apply IH|].
        by injection Hb as -> ->. }
      pose proof (read_word_length b) as Hword.
      simpl in *. rewrite Hsp. destruct (read_word b) as [w rest].
      simpl in *. split; [lia|]. intros _. lia.
  - unfold ok. simpl. done.
Qed.

Lemma get_char_progress (c : ascii) (src : istream) :
  (String.length (buffer (get_char c src).2) ≤ String.length (buffer src))%nat
  ∧ (ok (get_char c src).2 = true →
     (String.length (buffer (get_char c src).2)
      < String.length (buffer src))%nat).
Proof.
  unfold get_char. destruct (good src); [|simpl; split; [lia|done]].
  destruct (buffer src) as [|ch rest]; simpl; [split; [lia|done]|].
  split; [lia|]. intros _. lia.
Qed.

Lemma skip_to_paren_total (fuel : nat) (c : ascii) (src : istream) :
  (String.length (buffer src) < fuel)%nat →
  ∃ res, skip_to_paren fuel c src = Some res
         ∧ ∀ src', res = inr src' →
             (String.length (buffer src') ≤ String.length (buffer src))%nat.
Proof.
  revert c src. induction fuel as [|fuel IH]; intros c src Hlen; [lia|].
  cbn [skip_to_paren].
  destruct (get_char_progress c src) as [Hle Hlt].
  destruct (get_char c src) as [c' src1]. simpl in Hle, Hlt.
  destruct (ok src1 && negb (Ascii.eqb c' "(")) eqn:Hcond.
  - destruct (negb (isspace c')).
    + eexists. split; [done|]. intros src' [=].
    + apply andb_true_iff in Hcond as [Hok _]. specialize (Hlt Hok).
      destruct (IH c' src1) as (res & -> & Hres); [lia|].
      exists res. split; [done|]. intros src' Heq.
      specialize (Hres src' Heq). lia.
  - eexists. split; [done|]. intros src' [= <-]. done.
Qed.

Lemma read_names_total (fuel : nat) (name : string) (done : bool)
    (src : istream) (out : gset string) :
  (String.length (buffer src) + 1 < fuel
   ∨ (ok src = false ∨ done = true))%nat →
  is_Some (read_names fuel name done src out).
Proof.
  revert name done src out.
  induction fuel as [|fuel IH]; intros name done src out Hlen.
  - destruct Hlen as [?|[Hok|Hdone]]; [lia| |]; simpl.
    + rewrite Hok. by eexists.
    + rewrite Hdone, andb_false_r. by eexists.
  - cbn [read_names].
    destruct (ok src && negb done) eqn:Hcond; [|by eexists].
    apply andb_true_iff in Hcond as [Hok Hdone].
    apply negb_true_iff in Hdone.
    destruct Hlen as [Hlen|[?|?]]; [|congruence..].
    destruct (extract_progress name src) as [Hle Hlt].
    destruct (extract name src) as [name1 src1]. simpl in Hle, Hlt.
    destruct (String.eqb name1 ""); [by eexists|].
    apply IH. destruct (ok src1) eqn:Hok1.
    + specialize (Hlt eq_refl). left. lia.
    + right. by left.
Qed.

(** [parse_core] returns on every input. *)
Lemma parse_core_total (src : istream) (out : gset string) :
  is_Some (parse_core src out).
Proof.
  unfold parse_core.
  destruct (extract_progress "" src) as [Hle _].
  destruct (extract "" src) as [name src1]. simpl in Hle.
  destruct (negb (ok src1) || negb (String.eqb name "unsat"));
    [by eexists|].
  destruct (skip_to_paren_total (S (S (String.length (buffer src))))
              "000"%char src1) as (res & -> & Hres); [lia|].
  destruct res as [[]|src2]; [by eexists|].
  specialize (Hres src2 eq_refl).
  destruct (negb (ok src2)); [by eexists|].
  apply read_names_total. left. lia.
Qed.

(** C9: failing input.  On a core file that holds [unsat (a b] and ends
    there, without the closing parenthesis, [parse_core] returns [true]
    with the names [a] and [b]: the extraction that fails at the end of
    the file leaves [name] as it was, so the test [name.empty()] does not
    fire and the loop ends with the stream in its failed state. *)
Theorem parse_core_accepts_unterminated_list :
  parse_core (open_file (Some "unsat (a b")) ∅
  = Some (true, {["b"%string]} ∪ ({["a"%string]} ∪ ∅))
  ∧ parse_core (open_file (Some "unsat (a b)")) ∅
    = Some (true, {["b"%string]} ∪ ({["a"%string]} ∪ ∅)).
Proof. split; vm_compute; reflexivity. Qed.

(** * Further properties *)

(** From here on [simpl] may unfold the concatenation of strings. *)
#[local] Arguments String.append !_ _ / : simpl nomatch.

(** ** Quoted symbols *)

Lemma string_get_last (s : string) (c : ascii) :
  String.get (String.length s) (s +:+ String c "") = Some c.
Proof. induction s as [|ch s IH]; simpl; [done|exact IH]. Qed.

Lemma string_length_snoc (s : string) (c : ascii) :
  String.length (s +:+ String c "") = S (String.length s).
Proof. induction s as [|ch s IH]; simpl; [done|by rewrite IH]. Qed.

Lemma string_substring_prefix (s t : string) :
  String.substring 0 (String.length s) (s +:+ t) = s.
Proof.
  induction s as [|ch s IH]; simpl.
  - by destruct t.
  - by rewrite IH.
Qed.

Lemma unquote_quoted_any (s : string) : unquote (quoted s) = s.
Proof.
  unfold quoted. change ("|" +:+ s +:+ "|") with (String "|" (s +:+ "|")).
  unfold unquote. change (String.length (String "|" (s +:+ "|")))
    with (S (String.length (s +:+ "|"))).
  rewrite string_length_snoc.
  replace (S (S (String.length s)) - 1)%nat with (S (String.length s))
    by lia.
  replace (S (S (String.length s)) - 2)%nat with (String.length s) by lia.
  change (String.get (S (String.length s)) (String "|" (s +:+ "|")))
    with (String.get (String.length s) (s +:+ "|")).
  rewrite string_get_last, bool_decide_true by done.
  change (String.substring 1 (String.length s) (String "|" (s +:+ "|")))
    with (String.substring 0 (String.length s) (s +:+ "|")).
  rewrite string_substring_prefix. reflexivity.
Qed.

Lemma unquote_unquoted (s : string) :
  (∀ t, s ≠ String "|" t) → unquote s = s.
Proof.
  intros Hs. unfold unquote. destruct s as [|ch s]; [done|].
  destruct (Ascii.eqb_spec ch "|") as [->|Hne]; [by destruct (Hs s)|].
  destruct ch as [[] [] [] [] [] [] [] []]; try done.
Qed.

(** X1: [|s|] and [s] are the same symbol for the registries.  Removing
    the quote markers from [|s|] gives back [s], whatever [s] is; and for
    a symbol [s] that does not itself begin with a quote marker, declaring
    or looking up [|s|] does exactly what declaring or looking up [s]
    does, in both registries. *)
Theorem quoted_symbol_is_same_symbol (s : string) :
  (∀ t, s ≠ String "|" t) →
  unquote (quoted s) = s
  ∧ unquote s = s
  ∧ (∀ r, set_new_name (quoted s) r = set_new_name s r)
  ∧ (∀ r, get_name_id (quoted s) r = get_name_id s r)
  ∧ (∀ r, set_new_name_sorted (quoted s) r = set_new_name_sorted s r)
  ∧ (∀ r, get_name_id_sorted (quoted s) r = get_name_id_sorted s r).
Proof.
  intros Hs.
  pose proof (unquote_quoted_any s) as Hq.
  pose proof (unquote_unquoted s Hs) as Hu.
  split; [done|]. split; [done|].
  unfold set_new_name, get_name_id, set_new_name_sorted, get_name_id_sorted.
  rewrite Hq, Hu. done.
Qed.

Lemma quoted_symbol_is_same_symbol_witness :
  unquote (quoted "foo") = "foo"%string
  ∧ get_name_id "|foo|" (set_new_name "foo" registry_init)
    = get_name_id "foo" (set_new_name "foo" registry_init).
Proof.
  destruct (quoted_symbol_is_same_symbol "foo") as (H1 & _ & _ & H4 & _).
  { intros t. discriminate. }
  split; [exact H1|]. exact (H4 (set_new_name "foo" registry_init)).
Defined.

(** ** Identifiers under declarations and lookups *)

Lemma registry_sound_init : registry_sound registry_init.
Proof.
  split; [done|]. split.
  - intros s v Hs. simpl in Hs. by rewrite lookup_empty in Hs.
  - intros s1 s2 v Hs. simpl in Hs. by rewrite lookup_empty in Hs.
Qed.

Lemma run_op_sound (r : registry) (op : registry_op) :
  next_name_id r + 1 < two64 →
  registry_sound r →
  registry_sound (run_op r op)
  ∧ next_name_id r ≤ next_name_id (run_op r op) ≤ next_name_id r + 1.
Proof.
  intros Hnext (H1 & Hlt & Hinj). destruct op as [n|n]; simpl.
  - unfold set_new_name.
    destruct (name_ids r !! unquote n) eqn:Hn; [by split; [|lia]|].
    simpl. rewrite u64_small by lia. split; [|lia].
    split; [simpl; lia|]. split; simpl.
    + intros s v Hs. apply lookup_insert_Some in Hs as [[_ <-]|[_ Hs]];
        [lia|]. apply Hlt in Hs. lia.
    + intros s1 s2 v Hs1 Hs2 Hv.
      apply lookup_insert_Some in Hs1 as [[<- <-]|[Hne1 Hs1]];
        apply lookup_insert_Some in Hs2 as [[<- Heq]|[Hne2 Hs2]].
      * done.
      * apply Hlt in Hs2. lia.
      * apply Hlt in Hs1. lia.
      * by apply (Hinj s1 s2 v).
  - unfold get_name_id.
    destruct (name_ids r !! unquote n) eqn:Hn; simpl; [by split; [|lia]|].
    split; [|lia]. split; [done|]. split; simpl.
    + intros s v Hs. apply lookup_insert_Some in Hs as [[_ <-]|[_ Hs]];
        [lia|]. by apply (Hlt s).
    + intros s1 s2 v Hs1 Hs2 Hv.
      apply lookup_insert_Some in Hs1 as [[<- <-]|[Hne1 Hs1]]; [done|].
      apply lookup_insert_Some in Hs2 as [[<- <-]|[Hne2 Hs2]]; [done|].
      by apply (Hinj s1 s2 v).
Qed.

Lemma run_ops_sound (ops : list registry_op) (r : registry) :
  next_name_id r + Z.of_nat (length ops) < two64 →
  registry_sound r →
  registry_sound (foldl run_op r ops)
  ∧ next_name_id r ≤ next_name_id (foldl run_op r ops)
    ≤ next_name_id r + Z.of_nat (length ops).
Proof.
  revert r. induction ops as [|op ops IH]; intros r Hlen Hr; simpl.
  - split; [done|lia].
  - simpl in Hlen.
    destruct (run_op_sound r op ltac:(lia) Hr) as [Hr' Hn].
    destruct (IH (run_op r op) ltac:(lia) Hr') as [Hs Hb].
    split; [done|lia].
Qed.

(** X2: whatever declarations and lookups are made, in whatever order,
    starting from the empty registry (fewer than 2^64 - 1 of them), the
    registry stays sound: every identifier handed out is below the next
    available one, which has grown by at most one per operation, and two
    different symbols never carry the same identifier unless it is 0. *)
Theorem registry_identifiers_distinct (ops : list registry_op) :
  Z.of_nat (length ops) < two64 - 1 →
  let r := foldl run_op registry_init ops in
  (∀ s v, name_ids r !! s = Some v → 0 ≤ v < next_name_id r)
  ∧ (∀ s1 s2 v, name_ids r !! s1 = Some v → name_ids r !! s2 = Some v →
       v ≠ 0 → s1 = s2)
  ∧ 1 ≤ next_name_id r ≤ 1 + Z.of_nat (length ops).
Proof.
  intros Hlen r.
  destruct (run_ops_sound ops registry_init) as [(H1 & H2 & H3) Hb].
  - simpl. unfold two64 in *. lia.
  - apply registry_sound_init.
  - simpl in Hb. split; [exact H2|]. split; [exact H3|]. exact Hb.
Qed.

Lemma registry_identifiers_distinct_witness :
  let r := foldl run_op registry_init
             [OpLookup "z"; OpDeclare "a"; OpDeclare "|b|"; OpLookup "b";
              OpDeclare "z"] in
  next_name_id r ≤ 6
  ∧ ∀ s1 s2 v, name_ids r !! s1 = Some v → name_ids r !! s2 = Some v →
      v ≠ 0 → s1 = s2.
Proof.
  intros r.
  destruct (registry_identifiers_distinct
              [OpLookup "z"; OpDeclare "a"; OpDeclare "|b|"; OpLookup "b";
               OpDeclare "z"]) as (_ & H2 & H3).
  { vm_compute. reflexivity. }
  split; [|exact H2]. unfold r. cbn [length] in H3.
  change (Z.of_nat 5) with 5 in H3. lia.
Defined.

(** ** More on unsat-core filtering *)

Lemma filter_named_filter (to_keep : gset string) (v : list node) :
  filter_named to_keep v = List.filter (keeps to_keep) v.
Proof.
  unfold filter_named.
  pose proof (filter_named_loop_spec to_keep v (length v) 0 0 v) as H.
  destruct (filter_named_loop to_keep (length v) 0 0 v) as [k v'].
  apply H; done.
Qed.

Lemma keeps_intersection (K1 K2 : gset string) (c : node) :
  keeps K1 c && keeps K2 c = keeps (K1 ∩ K2) c.
Proof.
  unfold keeps. destruct (is_assert c); [|done].
  destruct (String.eqb (get_named_annot c) ""); [done|]. simpl.
  rewrite !negb_involutive.
  destruct (bool_decide_reflect (get_named_annot c ∈ K1)) as [H1|H1];
    destruct (bool_decide_reflect (get_named_annot c ∈ K2)) as [H2|H2];
    simpl; symmetry;
    (apply bool_decide_eq_true || apply bool_decide_eq_false); set_solver.
Qed.

Lemma list_filter_filter {A : Type} (f g : A → bool) (l : list A) :
  List.filter f (List.filter g l) = List.filter (λ x, f x && g x) l.
Proof.
  induction l as [|x l IH]; simpl; [done|].
  destruct (g x); simpl.
  - rewrite andb_true_r. destruct (f x); by rewrite IH.
  - by rewrite andb_false_r.
Qed.

(** X3: filtering composes.  Filtering with one keep set and then with
    another leaves what a single filtering with the intersection of the
    two sets leaves; in particular filtering twice with the same set
    changes nothing after the first time, and the order of two filterings
    does not matter. *)
Theorem filter_named_compose (K1 K2 : gset string) (v : list node) :
  filter_named K1 (filter_named K2 v) = filter_named (K1 ∩ K2) v
  ∧ filter_named K1 (filter_named K1 v) = filter_named K1 v
  ∧ filter_named K1 (filter_named K2 v) = filter_named K2 (filter_named K1 v).
Proof.
  assert (Hc : ∀ Ka Kb,
    filter_named Ka (filter_named Kb v) = filter_named (Ka ∩ Kb) v).
  { intros Ka Kb. rewrite !filter_named_filter, list_filter_filter.
    apply List.filter_ext. intros c. apply keeps_intersection. }
  split; [apply Hc|]. split.
  - rewrite Hc. by replace (K1 ∩ K1) with K1 by set_solver.
  - rewrite !Hc. by replace (K1 ∩ K2) with (K2 ∩ K1) by set_solver.
Qed.

Lemma has_annotation_children (n c : node) :
  has_annotation n = false → c ∈ children n → has_annotation c = false.
Proof.
  destruct n as [a s i p cs]. cbn [has_annotation children symbol].
  intros Hn Hc. apply orb_false_iff in Hn as [_ Hn].
  induction cs as [|x cs IH]; [by apply elem_of_nil in Hc|].
  apply orb_false_iff in Hn as [Hx Hn].
  apply elem_of_cons in Hc as [->|Hc]; [done|by apply IH].
Qed.

Lemma has_annotation_symbol (n : node) :
  has_annotation n = false → String.eqb (symbol n) "!" = false.
Proof.
  destruct n as [a s i p cs]. cbn [has_annotation children symbol].
  intros Hn. by apply orb_false_iff in Hn as [-> _].
Qed.

(** One iteration of the work-list loop. *)
Lemma get_named_annot_loop_step (cur : node) (rest : list node)
    (seen : gset Z) :
  get_named_annot_loop (cur :: rest) seen
  = if decide (addr cur ∈ seen) then get_named_annot_loop rest seen
    else match visit cur rest with
         | inl name => name
         | inr to_process' =>
             get_named_annot_loop to_process' ({[addr cur]} ∪ seen)
         end.
Proof.
  funelim (get_named_annot_loop (cur :: rest) seen);
    match goal with Heq : decide _ = _ |- _ => rewrite Heq end.
  - reflexivity.
  - match goal with Hv : visit _ _ = inl _ |- _ => by rewrite Hv end.
  - match goal with Hv : visit _ _ = inr _ |- _ => by rewrite Hv end.
Qed.

(** The work-list loop finds no name when no tree on the work list has an
    annotation node. *)
Lemma get_named_annot_loop_plain (to_process : list node) (seen : gset Z) :
  Forall (λ n, has_annotation n = false) to_process →
  get_named_annot_loop to_process seen = ""%string.
Proof.
  funelim (get_named_annot_loop to_process seen); intros Hall.
  - reflexivity.
  - match goal with IH : _ → _ = _ |- _ => apply IH end.
    by apply Forall_inv_tail in Hall.
  - exfalso. apply Forall_inv in Hall.
    match goal with Hv : visit _ _ = inl _ |- _ =>
      pose proof Hv as Hv'; unfold visit in Hv';
      rewrite (has_annotation_symbol _ Hall) in Hv'; discriminate
    end.
  - apply Forall_cons in Hall as [Hcur Hrest].
    match goal with IH : _ → _ = _ |- _ => apply IH end.
    match goal with Hv : visit _ _ = inr _ |- _ =>
      pose proof Hv as Hv'; unfold visit in Hv';
      rewrite (has_annotation_symbol _ Hcur) in Hv'; injection Hv' as Hv'
    end.
    rewrite <- Hv'.
    apply Forall_app. split; [|done].
    apply Forall_forall. intros c Hc.
    apply list_elem_of_In, in_rev, list_elem_of_In in Hc.
    by eapply has_annotation_children.
Qed.

(** X4: a command that contains no annotation node has the empty named
    annotation, so [filter_named] keeps it whatever the keep set is: a
    buffer without annotation nodes passes the filter unchanged. *)
Theorem filter_named_keeps_plain_commands (to_keep : gset string)
    (v : list node) :
  Forall (λ c, has_annotation c = false) v →
  Forall (λ c, get_named_annot c = ""%string) v
  ∧ filter_named to_keep v = v.
Proof.
  intros Hall.
  assert (Hnames : Forall (λ c, get_named_annot c = ""%string) v).
  { eapply Forall_impl; [exact Hall|]. intros c Hc.
    apply get_named_annot_loop_plain. by constructor. }
  split; [exact Hnames|].
  rewrite filter_named_filter.
  induction Hnames as [|c v Hc _ IH]; simpl; [done|].
  apply Forall_inv_tail in Hall.
  unfold keeps at 1. rewrite Hc. simpl.
  rewrite IH by done. by destruct (is_assert c).
Qed.

Lemma filter_named_keeps_plain_commands_witness :
  let v := [ Node 1 "assert" false true [Node 2 "p" false false []];
             Node 3 "check-sat" false true [] ] in
  filter_named {["n1"%string]} v = v.
Proof.
  intros v.
  destruct (filter_named_keeps_plain_commands {["n1"%string]} v) as [_ H].
  - repeat constructor.
  - exact H.
Defined.

(** X5: the name of an annotated assertion.  For an assertion
    [(assert (! body attrs))] whose two nodes lie at different addresses
    and whose attributes carry a named attribute with the name [name],
    [get_named_annot] returns [name], whatever [body] is; when [name] is
    not empty, [filter_named] keeps the assertion exactly when [name] is
    in the keep set. *)
Theorem annotated_assertion_named (a b : Z) (body : node)
    (attrs : list node) (name : string) :
  a ≠ b →
  named_attribute attrs = Some name →
  get_named_annot (annotated_assertion a b body attrs) = name
  ∧ (name ≠ ""%string →
     ∀ to_keep,
       keeps to_keep (annotated_assertion a b body attrs)
       = bool_decide (name ∈ to_keep)).
Proof.
  intros Hab Hattr.
  assert (Hname : get_named_annot (annotated_assertion a b body attrs)
                  = name).
  { unfold get_named_annot, annotated_assertion.
    rewrite get_named_annot_loop_step. cbn [addr].
    destruct (decide (a ∈ (∅ : gset Z))) as [Hin|_]; [set_solver|].
    change (visit (Node a "assert" false true
                     [Node b "!" false true (body :: attrs)]) [])
      with (inr [Node b "!" false true (body :: attrs)] : string + list node).
    cbv iota. rewrite get_named_annot_loop_step. cbn [addr].
    destruct (decide (b ∈ ({[a]} ∪ ∅ : gset Z))) as [Hin|_]; [set_solver|].
    unfold visit. cbn [symbol children tail].
    change (String.eqb "!" "!") with true. cbv iota.
    by rewrite Hattr. }
  split; [exact Hname|].
  intros Hne to_keep. unfold keeps. rewrite Hname.
  cbn [is_assert annotated_assertion symbol].
  change (String.eqb "assert" "assert") with true. cbv iota.
  destruct (String.eqb_spec name "") as [->|_]; [done|].
  simpl. by rewrite negb_involutive.
Qed.

Lemma annotated_assertion_named_witness :
  let named := Node 3 ":named" false false [Node 4 "smtcomp1" false false []] in
  let body := Node 5 "p" false false [] in
  get_named_annot (annotated_assertion 1 2 body [named]) = "smtcomp1"%string
  ∧ keeps {["smtcomp1"%string]} (annotated_assertion 1 2 body [named]) = true.
Proof.
  intros named body.
  destruct (annotated_assertion_named 1 2 body [named] "smtcomp1")
    as [H1 H2].
  - lia.
  - reflexivity.
  - split; [exact H1|]. rewrite H2 by discriminate.
    apply bool_decide_eq_true. set_solver.
Defined.

(** ** More on the core file *)

Lemma string_app_assoc (s t u : string) :
  (s +:+ t) +:+ u = s +:+ (t +:+ u).
Proof. induction s as [|ch s IH]; simpl; [done|by rewrite IH]. Qed.

Lemma skip_ws_all_space (ws b : string) :
  all_space ws = true → skip_ws (ws +:+ b) = skip_ws b.
Proof.
  induction ws as [|ch ws IH]; simpl; [done|].
  intros H. apply andb_true_iff in H as [-> H]. by apply IH.
Qed.

Lemma skip_ws_word (w b : string) :
  w ≠ ""%string → no_space w = true → skip_ws (w +:+ b) = w +:+ b.
Proof.
  destruct w as [|ch w]; [done|]. simpl. intros _ H.
  apply andb_true_iff in H as [H _]. apply negb_true_iff in H.
  by rewrite H.
Qed.

Lemma read_word_word (w b : string) :
  no_space w = true → starts_blank b = true → read_word (w +:+ b) = (w, b).
Proof.
  intros Hw Hb. induction w as [|ch w IH]; cbn [String.append read_word].
  - destruct b as [|ch b]; [done|]. cbn [starts_blank] in Hb.
    cbn [read_word]. by rewrite Hb.
  - cbn [no_space] in Hw. apply andb_true_iff in Hw as [Hch Hw].
    apply negb_true_iff in Hch. rewrite Hch, (IH Hw). done.
Qed.

Lemma no_space_app (s t : string) :
  no_space (s +:+ t) = no_space s && no_space t.
Proof.
  induction s as [|ch s IH]; simpl; [done|].
  by rewrite IH, andb_assoc.
Qed.

(** Reading one token [w] that stands, after white space, in front of
    [b]. *)
Lemma extract_word (name ws w b : string) :
  all_space ws = true → w ≠ ""%string → no_space w = true →
  starts_blank b = true →
  extract name (IStream (ws +:+ w +:+ b) false false)
  = (w, IStream b (String.eqb b "") false).
Proof.
  intros Hws Hne Hw Hb. unfold extract. cbn [good eofbit failbit buffer negb
    andb].
  rewrite skip_ws_all_space, skip_ws_word by done.
  destruct (w +:+ b) as [|ch wb] eqn:Hwb.
  { destruct w; [done|discriminate]. }
  rewrite <- Hwb, read_word_word by done. reflexivity.
Qed.

Lemma skip_to_paren_blank (ws rest : string) (fuel : nat) (c : ascii) :
  all_space ws = true → (String.length ws < fuel)%nat →
  skip_to_paren fuel c (IStream (ws +:+ "(" +:+ rest) false false)
  = Some (inr (IStream rest false false)).
Proof.
  revert fuel c. induction ws as [|ch ws IH]; intros fuel c Hws Hfuel.
  - destruct fuel as [|fuel]; [simpl in Hfuel; lia|]. reflexivity.
  - destruct fuel as [|fuel]; [simpl in Hfuel; lia|].
    simpl in Hws. apply andb_true_iff in Hws as [Hch Hws].
    cbn [skip_to_paren get_char good eofbit failbit negb andb buffer
         String.append ok].
    assert (Hp : Ascii.eqb ch "(" = false).
    { destruct (Ascii.eqb_spec ch "(") as [->|]; [done|done]. }
    rewrite Hp, Hch. cbn [negb]. apply IH; [done|]. simpl in Hfuel. lia.
Qed.

(** Once it has a non-empty name in hand the loop over the names cannot
    return [false], and it only adds to [out]. *)
Lemma read_names_accepts (fuel : nat) (name : string) (done : bool)
    (src : istream) (out out' : gset string) (b : bool) :
  name ≠ ""%string ∨ done = true →
  read_names fuel name done src out = Some (b, out') →
  b = true ∧ out ⊆ out'.
Proof.
  revert name done src out.
  induction fuel as [|fuel IH]; intros name done src out Hname;
    cbn [read_names].
  - destruct (ok src && negb done); [done|]. by intros [= <- <-].
  - destruct (ok src && negb done) eqn:Hcond; [|by intros [= <- <-]].
    apply andb_true_iff in Hcond as [_ Hdone].
    apply negb_true_iff in Hdone.
    destruct Hname as [Hname|?]; [|congruence].
    assert (Hext : (extract name src).1 ≠ ""%string).
    { unfold extract. destruct (good src); [|done].
      destruct (skip_ws (buffer src)) as [|ch b'] eqn:Hb; [done|].
      assert (Hsp : isspace ch = false).
      { clear -Hb. induction (buffer src) as [|ch' s IHs]; [done|].
        simpl in Hb. destruct (isspace ch') eqn:Hch'; [by apply IHs|].
        by injection Hb as -> ->. }
      simpl. rewrite Hsp. by destruct (read_word b'). }
    destruct (extract name src) as [name1 src1]. simpl in Hext.
    destruct (String.eqb_spec name1 "") as [|_]; [done|].
    intros Hrun. apply IH in Hrun.
    + destruct Hrun as [-> Hsub]. split; [done|].
      destruct (String.eqb _ "") in Hsub; set_solver.
    + destruct (ends_with_paren name1); [by right|by left].
Qed.

(** X6: [parse_core] accepts every file that begins with [unsat], white
    space and an opening parenthesis, whatever follows the parenthesis
    (nothing at all, or a list that is never closed): past this point no
    input makes it return [false].  The names it had in [out] stay. *)
Theorem parse_core_accepts_after_paren (ws rest : string)
    (out : gset string) :
  ws ≠ ""%string →
  all_space ws = true →
  ∃ out',
    parse_core (open_file (Some ("unsat" +:+ ws +:+ "(" +:+ rest))) out
    = Some (true, out')
    ∧ out ⊆ out'.
Proof.
  intros Hne Hws.
  destruct (parse_core_total
              (open_file (Some ("unsat" +:+ ws +:+ "(" +:+ rest))) out)
    as [[b out'] Hrun].
  exists out'. revert Hrun. unfold parse_core, open_file.
  cbn [buffer].
  set (file := "unsat" +:+ ws +:+ "(" +:+ rest).
  assert (Hblank : starts_blank (ws +:+ "(" +:+ rest) = true).
  { destruct ws as [|ch ws]; [done|]. cbn [all_space] in Hws.
    cbn [String.append starts_blank].
    by apply andb_true_iff in Hws as [-> _]. }
  assert (Hnz : String.eqb (ws +:+ "(" +:+ rest) "" = false)
    by (by destruct ws).
  assert (Hext : extract "" (IStream file false false)
                 = ("unsat"%string,
                    IStream (ws +:+ "(" +:+ rest) false false)).
  { pose proof (extract_word "" "" "unsat" (ws +:+ "(" +:+ rest)
                  eq_refl ltac:(done) eq_refl Hblank) as H.
    rewrite Hnz in H. exact H. }
  rewrite Hext. cbn [ok failbit negb orb].
  change (String.eqb "unsat" "unsat") with true. cbn [negb].
  rewrite skip_to_paren_blank; [|done|].
  - cbn [ok failbit negb]. intros Hrun. pose proof Hrun as Hr.
    apply read_names_accepts in Hr as [-> Hsub]; [done|by left].
  - assert (Hl : ∀ s t, (String.length s ≤ String.length (s +:+ t))%nat).
    { intros s t. induction s; simpl; lia. }
    pose proof (Hl ws ("(" +:+ rest)).
    change (String.length file)
      with (5 + String.length (ws +:+ "(" +:+ rest))%nat.
    lia.
Qed.

Lemma parse_core_accepts_after_paren_witness :
  ∃ out',
    parse_core (open_file (Some ("unsat" +:+ endl +:+ "(" +:+ "a (b"))) ∅
    = Some (true, out').
Proof.
  destruct (parse_core_accepts_after_paren endl "a (b" ∅) as (out' & H & _).
  - discriminate.
  - reflexivity.
  - by exists out'.
Defined.

Lemma ends_with_paren_snoc (n : string) : ends_with_paren (n +:+ ")") = true.
Proof.
  unfold ends_with_paren. rewrite string_length_snoc.
  replace (S (String.length n) - 1)%nat with (String.length n) by lia.
  rewrite string_get_last. by apply bool_decide_eq_true.
Qed.

Lemma substring_drop_paren (n : string) :
  String.substring 0 (String.length (n +:+ ")") - 1) (n +:+ ")") = n.
Proof.
  rewrite string_length_snoc.
  replace (S (String.length n) - 1)%nat with (String.length n) by lia.
  apply string_substring_prefix.
Qed.

(** The loop over the names on a well-formed list: every name is added
    to [out], and the loop ends with the closing parenthesis. *)
Lemma read_names_core_list (rest : string) (names : list string) :
  starts_blank rest = true →
  Forall core_name names →
  ∀ (fuel : nat) (name ws : string) (out : gset string),
    all_space ws = true →
    (length names < fuel)%nat →
    read_names fuel name false
      (IStream (ws +:+ core_list names +:+ rest) false false) out
    = Some (true, list_to_set names ∪ out).
Proof.
  intros Hrest Hnames. induction Hnames as [|n names Hn Hnames IH];
    intros fuel name ws out Hws Hfuel.
  - destruct fuel as [|fuel]; [simpl in Hfuel; lia|].
    cbn [read_names ok failbit negb andb core_list].
    rewrite (extract_word name ws ")" rest) by done.
    change (String.eqb ")" "") with false. cbv iota.
    change (ends_with_paren ")") with true. cbv iota.
    change (String.substring 0 (String.length ")" - 1) ")") with ""%string.
    change (String.eqb "" "") with true. cbv iota.
    destruct fuel; cbn [read_names ok failbit negb andb];
      f_equal; f_equal; set_solver.
  - destruct fuel as [|fuel]; [simpl in Hfuel; lia|].
    destruct Hn as (Hne & Hns & Hnp).
    cbn [read_names ok failbit negb andb core_list].
    destruct names as [|n2 names].
    + assert (Hw : no_space (n +:+ ")") = true)
        by (by rewrite no_space_app, Hns).
      rewrite (extract_word name ws (n +:+ ")") rest);
        [|done|by destruct n|done|done].
      destruct (String.eqb_spec (n +:+ ")") "") as [He|_];
        [by destruct n|].
      rewrite ends_with_paren_snoc, substring_drop_paren.
      destruct (String.eqb_spec n "") as [|_]; [done|].
      destruct fuel; cbn [read_names ok failbit negb andb];
        f_equal; f_equal; set_solver.
    + replace ((n +:+ " " +:+ core_list (n2 :: names)) +:+ rest)
        with (n +:+ " " +:+ core_list (n2 :: names) +:+ rest)
        by (by rewrite !string_app_assoc).
      rewrite (extract_word name ws n
                 (" " +:+ core_list (n2 :: names) +:+ rest)) by done.
      assert (Hnz : String.eqb n "" = false)
        by (by destruct (String.eqb_spec n "")).
      rewrite Hnp, !Hnz.
      change (String.eqb (" " +:+ core_list (n2 :: names) +:+ rest) "")
        with false.
      rewrite (IH fuel n " " ({[n]} ∪ out) eq_refl)
        by (simpl in Hfuel |- *; lia).
      f_equal. f_equal. set_solver.
Qed.

Lemma core_list_length (names : list string) :
  Forall core_name names →
  (length names ≤ String.length (core_list names))%nat.
Proof.
  assert (Hl : ∀ s t, String.length (s +:+ t)
                      = (String.length s + String.length t)%nat).
  { intros s t. induction s; simpl; lia. }
  induction 1 as [|n names (Hne & _ & _) _ IH]; [simpl; lia|].
  assert (1 ≤ String.length n)%nat by (destruct n; [done|simpl; lia]).
  cbn [core_list length]. destruct names as [|n2 names].
  - rewrite Hl. simpl. lia.
  - rewrite !Hl. simpl in IH |- *. lia.
Qed.

(** X7: reading back a core file.  For a list of names as a core file can
    list them (non-empty, free of white space, not ending in a closing
    parenthesis), the file [unsat], line break, [(n1 n2 ... nk)], followed
    by nothing or by white space and anything else, is accepted, and the
    names added to [out] are exactly those of the list. *)
Theorem parse_core_reads_core_file (names : list string) (rest : string)
    (out : gset string) :
  Forall core_name names →
  starts_blank rest = true →
  parse_core (open_file (Some (core_file names rest))) out
  = Some (true, list_to_set names ∪ out).
Proof.
  intros Hnames Hrest. unfold parse_core, open_file, core_file.
  cbn [buffer].
  set (body := core_list names +:+ rest).
  set (file := "unsat" +:+ endl +:+ "(" +:+ body).
  assert (Hext : extract "" (IStream file false false)
                 = ("unsat"%string,
                    IStream (endl +:+ "(" +:+ body) false false)).
  { exact (extract_word "" "" "unsat" (endl +:+ "(" +:+ body)
             eq_refl ltac:(done) eq_refl eq_refl). }
  rewrite Hext. cbn [ok failbit negb orb].
  change (String.eqb "unsat" "unsat") with true. cbn [negb].
  assert (Hlen : String.length file = (7 + String.length body)%nat)
    by reflexivity.
  rewrite (skip_to_paren_blank endl body) by (simpl; lia || done).
  cbn [ok failbit negb]. unfold body.
  rewrite (read_names_core_list rest names Hrest Hnames _ "unsat" ""
             out eq_refl); [done|].
  pose proof (core_list_length names Hnames) as Hcl.
  assert (Hl : ∀ s t, String.length (s +:+ t)
                      = (String.length s + String.length t)%nat).
  { intros s t. induction s; simpl; lia. }
  rewrite Hlen. unfold body. rewrite Hl. lia.
Qed.

Lemma parse_core_reads_core_file_witness :
  parse_core (open_file (Some (core_file ["a1"; "a2"; "b"]%string endl))) ∅
  = Some (true, list_to_set ["a1"; "a2"; "b"]%string ∪ ∅).
Proof.
  apply (parse_core_reads_core_file ["a1"; "a2"; "b"]%string endl ∅).
  - repeat constructor; discriminate.
  - reflexivity.
Defined.

(** ** Rearrangements of the buffer *)

Lemma forall2_omap {A B : Type} (g : A → option B) (l : list A)
    (k : list B) :
  Forall2 (λ i x, g i = Some x) l k → omap g l = k.
Proof.
  induction 1 as [|i x l k Hi _ IH]; [done|].
  cbn [omap list_omap]. rewrite Hi. by f_equal.
Qed.

(** What [gather] collects along a permutation of the window's indices is
    a permutation of the window. *)
Lemma gathered_window (v : list node) (start end_ : Z) (indices : list Z)
    (temp : list node) :
  0 ≤ start ≤ end_ → end_ ≤ Z.of_nat (length v) →
  indices ≡ₚ seqZ 0 (end_ - start) →
  Forall2 (λ i x, at_ v (start + i) = Some x) indices temp →
  temp ≡ₚ window v start end_.
Proof.
  intros Hse Hend Hperm Hf.
  rewrite <- (forall2_omap (λ i, at_ v (start + i)) indices temp Hf).
  rewrite Hperm.
  rewrite (forall2_omap (λ i, at_ v (start + i)) (seqZ 0 (end_ - start))
             (window v start end_)); [done|].
  pose proof (window_elements v start end_ Hse Hend) as Hw.
  rewrite <- (Z.add_0_r start) in Hw at 1.
  rewrite <- fmap_add_seqZ in Hw. by apply Forall2_fmap_l in Hw.
Qed.

Lemma same_places_refl (p : node → bool) (v : list node) :
  same_places p v v.
Proof. by split. Qed.

Lemma same_places_trans (p : node → bool) (v1 v2 v3 : list node) :
  same_places p v1 v2 → same_places p v2 v3 → same_places p v1 v3.
Proof.
  intros [P1 K1] [P2 K2]. split; [by rewrite P2|].
  intros k c Hk Hc. destruct (K1 k c Hk Hc) as [Hk2 T1].
  destruct (K2 k c Hk2 Hc) as [Hk3 T2]. split; [done|]. by rewrite T2.
Qed.

(** Rearranging a stretch of commands that all satisfy [p]. *)
Lemma same_places_app (p : node → bool) (A W W' D : list node) :
  W' ≡ₚ W → Forall (λ c, p c = true) W →
  same_places p (A ++ W ++ D) (A ++ W' ++ D).
Proof.
  intros Hperm Hall. split; [by rewrite Hperm|].
  intros k c Hk Hc.
  assert (Hlen : length W' = length W) by by rewrite Hperm.
  apply lookup_app_Some in Hk as [Hk|[HkA Hk]].
  - pose proof (lookup_lt_Some _ _ _ Hk) as Hlt. split.
    + by apply lookup_app_l_Some.
    + rewrite !take_app.
      replace (k - length A)%nat with 0%nat by lia. by rewrite !take_0.
  - apply lookup_app_Some in Hk as [Hk|[HkW Hk]].
    + rewrite Forall_lookup in Hall. specialize (Hall _ _ Hk). congruence.
    + split.
      * apply lookup_app_Some. right. split; [done|].
        apply lookup_app_Some. right. rewrite Hlen. by split.
      * rewrite !take_app.
        rewrite (take_ge W') by lia. rewrite (take_ge W) by lia.
        by rewrite Hlen, Hperm.
Qed.

Lemma same_places_splice (p : node → bool) (v temp : list node)
    (i j : nat) :
  (i ≤ j ≤ length v)%nat →
  temp ≡ₚ take (j - i) (drop i v) →
  Forall (λ c, p c = true) (take (j - i) (drop i v)) →
  same_places p v (take i v ++ temp ++ drop j v).
Proof.
  intros Hij Hperm Hall.
  assert (Hv : v = take i v ++ take (j - i) (drop i v) ++ drop j v).
  { rewrite <- (take_drop i v) at 1. f_equal.
    rewrite <- (take_drop (j - i) (drop i v)) at 1. f_equal.
    rewrite drop_drop. f_equal. lia. }
  rewrite Hv at 1. by apply same_places_app.
Qed.

Lemma count_while_spec (p : node → bool) (l : list node) :
  (count_while p l ≤ length l)%nat
  ∧ Forall (λ c, p c = true) (take (count_while p l) l).
Proof.
  induction l as [|c l [IH1 IH2]]; simpl; [by split|].
  destruct (p c) eqn:Hc; simpl.
  - split; [lia|by constructor].
  - split; [lia|constructor].
Qed.

(** The run that starts at [i] lies inside the buffer and holds commands
    that satisfy [p] only. *)
Lemma run_end_spec (p : node → bool) (v : list node) (i : nat) (ci : node) :
  v !! i = Some ci → p ci = true →
  (run_end p v i ≤ length v)%nat
  ∧ Forall (λ c, p c = true) (take (run_end p v i - i) (drop i v)).
Proof.
  intros Hi Hp. unfold run_end.
  destruct (count_while_spec p (drop (i + 1) v)) as [Hle Hall].
  rewrite length_drop in Hle. apply lookup_lt_Some in Hi as Hlt.
  split; [lia|].
  replace (i + 1 + count_while p (drop (i + 1) v) - i)%nat
    with (S (count_while p (drop (i + 1) v))) by lia.
  rewrite (drop_S _ _ _ Hi). simpl. constructor; [done|].
  by replace (S i) with (i + 1)%nat by lia.
Qed.

Lemma get_name_id_sorted_next (sym : string) (r : registry) :
  next_name_id (get_name_id_sorted sym r).2 = next_name_id r.
Proof.
  unfold get_name_id_sorted. by destruct (name_ids r !! unquote sym).
Qed.

(** [find_var] hands out no identifier. *)
Lemma find_var_next (n : node) :
  ∀ r, next_name_id (find_var n r).2 = next_name_id r.
Proof.
  induction n as [a s i p cs IH] using node_tree_ind. intros r.
  cbn [find_var children].
  destruct (List.find names_variable cs) as [c|].
  - apply get_name_id_sorted_next.
  - generalize (descends (Node a s i p cs)). intros g. generalize 0%nat.
    induction IH as [|c cs Hc _ IHcs]; intros k; [done|].
    destruct (g k); [apply Hc|apply IHcs].
Qed.

Lemma tag_commands_next (v : list node) (indices : list Z) :
  ∀ r combined r',
    tag_commands v indices r = Some (combined, r') →
    next_name_id r' = next_name_id r.
Proof.
  induction indices as [|i indices IH]; intros r combined r'; simpl.
  - by intros [= _ <-].
  - destruct (at_ v i) as [c|]; [|done].
    pose proof (find_var_next c r) as Hn.
    destruct (find_var c r) as [tag r1]. simpl in Hn.
    destruct (tag_commands v indices r1) as [[rest r2]|] eqn:Ht; [|done].
    intros [= _ <-]. apply IH in Ht. congruence.
Qed.

Section std_sort_rearranges.

Variable std_sort : ∀ A : Type, (A → A → bool) → list A → list A.
Hypothesis std_sort_ok : sort_contract std_sort.

(** On a window inside the vector the rank-based [shuffle_list] returns
    the vector with the window rearranged. *)
Lemma shuffle_list_ranks_rearranges (v : list node) (start end_ : nat)
    (ranks : list float) :
  (start ≤ end_ ≤ length v)%nat →
  Z.of_nat (length v) < two64 →
  ∃ temp,
    shuffle_list_ranks std_sort v (Z.of_nat start) (Z.of_nat end_) ranks
    = Some (take start v ++ temp ++ drop end_ v)
    ∧ temp ≡ₚ take (end_ - start) (drop start v).
Proof.
  intros Hse Hsize. unfold shuffle_list_ranks.
  rewrite (u64_small (Z.of_nat end_ - Z.of_nat start)) by lia.
  destruct (rank_indices_spec std_sort std_sort_ok
              (Z.of_nat end_ - Z.of_nat start) ranks) as [Hperm _].
  set (indices := rank_indices std_sort _ ranks) in *.
  destruct (gather_spec v start indices) as (temp & Hg & Hf).
  { apply Forall_forall. intros k Hk. rewrite Hperm in Hk.
    apply elem_of_seqZ in Hk. lia. }
  { done. }
  exists temp. rewrite Hg.
  assert (Hlen : Z.of_nat (length temp) = Z.of_nat end_ - Z.of_nat start).
  { rewrite <- (Forall2_length _ _ _ Hf), Hperm, length_seqZ. lia. }
  rewrite bool_decide_true by done.
  pose proof (write_back_spec temp v start 0) as Hw.
  change (Z.of_nat 0) with 0 in Hw. rewrite Hw by lia.
  rewrite Nat.add_0_r.
  replace (start + length temp)%nat with end_ by lia.
  split; [done|].
  pose proof (gathered_window v (Z.of_nat start) (Z.of_nat end_) indices
                temp ltac:(lia) ltac:(lia) Hperm Hf) as Hgw.
  unfold window in Hgw. rewrite Nat2Z.id in Hgw.
  by replace (Z.to_nat (Z.of_nat end_ - Z.of_nat start))
    with (end_ - start)%nat in Hgw by lia.
Qed.

(** On a window inside the vector [sort_declarations] returns the vector
    with the window rearranged, and a registry that shows the same. *)
Lemma sort_declarations_rearranges (v : list node) (start end_ : nat)
    (r : registry) :
  (start ≤ end_ ≤ length v)%nat →
  Z.of_nat (length v) < two64 →
  ∃ sorted r',
    sort_declarations std_sort v (Z.of_nat start) (Z.of_nat end_) r
    = Some (take start v ++ sorted ++ drop end_ v, r')
    ∧ sorted ≡ₚ take (end_ - start) (drop start v)
    ∧ same_shown r' r
    ∧ next_name_id r' = next_name_id r.
Proof.
  intros Hse Hsize. unfold sort_declarations.
  destruct (tag_commands_spec v r _ _
              (window_elements v (Z.of_nat start) (Z.of_nat end_)
                 ltac:(lia) ltac:(lia)) r (λ _, eq_refl))
    as (r' & Htag & Hr').
  rewrite Htag. apply tag_commands_next in Htag as Hnext.
  set (combined := (λ c, (tag_of r c, c))
                   <$> window v (Z.of_nat start) (Z.of_nat end_)).
  destruct (std_sort_ok _ pair_lt combined pair_lt_strict_weak_order)
    as [Hperm _].
  set (sorted := std_sort (Z * node) pair_lt combined) in *.
  assert (Hwin : window v (Z.of_nat start) (Z.of_nat end_)
                 = take (end_ - start) (drop start v)).
  { unfold window. rewrite Nat2Z.id. f_equal. lia. }
  assert (Hlen : length sorted = (end_ - start)%nat).
  { rewrite Hperm. unfold combined. rewrite Hwin.
    rewrite length_fmap, length_take, length_drop. lia. }
  rewrite (u64_small (Z.of_nat end_ - Z.of_nat start)) by lia.
  rewrite bool_decide_true by lia.
  pose proof (write_back_spec (sorted.*2) v start 0) as Hw.
  change (Z.of_nat 0) with 0 in Hw.
  rewrite length_fmap, Nat.add_0_r in Hw. rewrite Hw by lia.
  replace (start + length sorted)%nat with end_ by lia.
  exists (sorted.*2), r'. split; [done|]. split; [|by split].
  rewrite Hperm. unfold combined. rewrite <- list_fmap_compose.
  by rewrite <- Hwin, list_fmap_id.
Qed.

End std_sort_rearranges.

(** ** The loops of the print pass *)

Lemma set_commands_id (s : state) : set_commands (commands s) s = s.
Proof. by destruct s. Qed.

Section pass_properties.

Variable std_sort : ∀ A : Type, (A → A → bool) → list A → list A.
Hypothesis std_sort_ok : sort_contract std_sort.
Variable o : options.

(** The first loop of [print_ranked] returns; it has rearranged
    assertions inside their runs and changed nothing else. *)
Lemma rank_pass_spec (fuel : nat) :
  ∀ (i : nat) (s : state),
    (length (commands s) - i ≤ fuel)%nat →
    Z.of_nat (length (commands s)) < two64 →
    ∃ v', rank_pass std_sort o fuel i s = Ok (tt, set_commands v' s)
          ∧ same_places is_assert (commands s) v'.
Proof.
  induction fuel as [|fuel IH]; intros i s Hfuel Hsize;
    cbn [rank_pass]; unfold bind at 1, gets.
  - destruct (commands s !! i) eqn:Hi.
    { apply lookup_lt_Some in Hi. lia. }
    exists (commands s). rewrite set_commands_id.
    split; [done|apply same_places_refl].
  - destruct (commands s !! i) as [ci|] eqn:Hi.
    2:{ exists (commands s). rewrite set_commands_id.
        split; [done|apply same_places_refl]. }
    rewrite andb_false_r, andb_true_r.
    destruct (is_assert ci) eqn:Hci; [|apply IH; [lia|done]].
    destruct (run_end_spec is_assert (commands s) i ci Hi Hci)
      as [Hj Hall].
    pose proof (run_end_gt is_assert (commands s) i) as Hgt.
    set (j := run_end is_assert (commands s) i) in *.
    unfold bind. destruct (1 <? j - i)%nat; cbn [when_].
    + unfold shuffle_commands.
      destruct (shuffle_list_ranks_rearranges std_sort std_sort_ok
                  (commands s) i j (get_ranks (ranks_file o) (j - i)))
        as (temp & -> & Hperm); [lia|done|].
      set (v1 := take i (commands s) ++ temp ++ drop j (commands s)).
      assert (Hv1 : same_places is_assert (commands s) v1).
      { apply same_places_splice; [lia|done|done]. }
      assert (Hlen : length v1 = length (commands s)).
      { destruct Hv1 as [Hp _]. by rewrite Hp. }
      destruct (IH j (set_commands v1 s)) as (v' & Hrun & Hv').
      { cbn [commands set_commands]. lia. }
      { cbn [commands set_commands]. lia. }
      exists v'. rewrite Hrun. split; [done|].
      eapply same_places_trans; [exact Hv1|exact Hv'].
    + unfold ret. apply IH; [lia|done].
Qed.

(** The third loop of [print_ranked] returns; it has rearranged
    declarations and definitions inside their runs, and the
    first-occurrence registry shows what it showed. *)
Lemma declaration_pass_spec (fuel : nat) :
  ∀ (i : nat) (s : state),
    (length (commands s) - i ≤ fuel)%nat →
    Z.of_nat (length (commands s)) < two64 →
    ∃ v' r',
      declaration_pass std_sort fuel i s
      = Ok (tt, set_names_sorted r' (set_commands v' s))
      ∧ same_places is_declaration (commands s) v'
      ∧ same_shown r' (names_sorted s)
      ∧ next_name_id r' = next_name_id (names_sorted s).
Proof.
  assert (Hid : ∀ s, set_names_sorted (names_sorted s)
                       (set_commands (commands s) s) = s)
    by by intros [].
  induction fuel as [|fuel IH]; intros i s Hfuel Hsize;
    cbn [declaration_pass]; unfold bind at 1, gets.
  - destruct (commands s !! i) eqn:Hi.
    { apply lookup_lt_Some in Hi. lia. }
    exists (commands s), (names_sorted s). rewrite Hid.
    split; [done|]. split; [apply same_places_refl|done].
  - destruct (commands s !! i) as [ci|] eqn:Hi.
    2:{ exists (commands s), (names_sorted s). rewrite Hid.
        split; [done|]. split; [apply same_places_refl|done]. }
    rewrite andb_false_r, andb_true_r.
    destruct (is_declaration ci) eqn:Hci; [|apply IH; [lia|done]].
    destruct (run_end_spec is_declaration (commands s) i ci Hi Hci)
      as [Hj Hall].
    pose proof (run_end_gt is_declaration (commands s) i) as Hgt.
    set (j := run_end is_declaration (commands s) i) in *.
    unfold bind. destruct (1 <? j - i)%nat; cbn [when_].
    + unfold sort_commands.
      destruct (sort_declarations_rearranges std_sort std_sort_ok
                  (commands s) i j (names_sorted s))
        as (sorted & r1 & -> & Hperm & Hr1 & Hn1); [lia|done|].
      set (v1 := take i (commands s) ++ sorted ++ drop j (commands s)).
      assert (Hv1 : same_places is_declaration (commands s) v1).
      { apply same_places_splice; [lia|done|done]. }
      assert (Hlen : length v1 = length (commands s)).
      { destruct Hv1 as [Hp _]. by rewrite Hp. }
      destruct (IH j (set_names_sorted r1 (set_commands v1 s)))
        as (v' & r' & Hrun & Hv' & Hr' & Hn').
      { cbn [commands set_commands set_names_sorted]. lia. }
      { cbn [commands set_commands set_names_sorted]. lia. }
      exists v', r'. rewrite Hrun. split; [done|].
      cbn [commands names_sorted set_commands set_names_sorted] in *.
      split; [eapply same_places_trans; [exact Hv1|exact Hv']|].
      split; [|congruence].
      intros x. by rewrite Hr', Hr1.
    + unfold ret. apply IH; [lia|done].
Qed.

End pass_properties.

(** ** What the printer leaves alone *)

Lemma string_app_nil_r (s : string) : s +:+ "" = s.
Proof. induction s as [|ch s IH]; simpl; [done|by rewrite IH]. Qed.

Lemma printer_frame_refl (o : options) (s : state) : printer_frame o s s.
Proof.
  repeat split; try done. exists "". by rewrite string_app_nil_r.
Qed.

Lemma printer_frame_trans (o : options) (s1 s2 s3 : state) :
  printer_frame o s1 s2 → printer_frame o s2 s3 → printer_frame o s1 s3.
Proof.
  intros (A1 & B1 & C1 & [t1 D1] & E1 & F1 & G1 & H1)
         (A2 & B2 & C2 & [t2 D2] & E2 & F2 & G2 & H2).
  repeat split; try congruence.
  - exists (t1 +:+ t2). by rewrite D2, D1, string_app_assoc.
  - intros Hu. by rewrite G2, G1.
  - intros Hn. by rewrite H2, H1.
Qed.

Section returns_closure.

Context {R : state → state → Prop}.
Hypothesis R_refl : ∀ s, R s s.
Hypothesis R_trans : ∀ s1 s2 s3, R s1 s2 → R s2 s3 → R s1 s3.

Lemma returns_with_ret {A : Type} (x : A) (s : state) :
  returns_with R (ret x) s.
Proof. exists x, s. by split. Qed.

Lemma returns_with_bind {A B : Type} (m : M A) (k : A → M B) (s : state) :
  returns_with R m s →
  (∀ x s', R s s' → returns_with R (k x) s') →
  returns_with R (bind m k) s.
Proof.
  intros (x & s1 & Hm & H1) Hk.
  destruct (Hk x s1 H1) as (y & s2 & Hkx & H2).
  exists y, s2. unfold bind. rewrite Hm. split; [done|].
  by apply R_trans with s1.
Qed.

Lemma returns_with_when (b : bool) (m : M unit) (s : state) :
  (b = true → returns_with R m s) → returns_with R (when_ b m) s.
Proof. destruct b; [auto|intros _; apply returns_with_ret]. Qed.

End returns_closure.

Lemma returns_emit (o : options) (t : string) (s : state) :
  returns_with (printer_frame o) (emit t) s.
Proof.
  exists tt, (set_cout (cout s +:+ t) s). split; [done|].
  repeat split; try done. by exists t.
Qed.

Lemma returns_lookup_sorted (o : options) (sym : string) (s : state) :
  no_scramble o = false →
  returns_with (printer_frame o) (lookup_sorted sym) s.
Proof.
  intros Hno. unfold lookup_sorted, bind, gets, modify, ret.
  pose proof (get_name_id_sorted_next sym (names_sorted s)) as Hnext.
  pose proof (λ x, get_name_id_shown sym x (names_sorted s)) as Hshown.
  rewrite <- get_name_id_sorted_same in Hshown.
  unfold returns_with.
  destruct (get_name_id_sorted sym (names_sorted s)) as [id r'].
  exists id, (set_names_sorted r' s). split; [done|].
  repeat split; try done.
  - exists "". by rewrite string_app_nil_r.
  - congruence.
Qed.

Lemma returns_make_annotation_name (o : options) (s : state) :
  gen_ucore o = true →
  returns_with (printer_frame o) make_annotation_name s.
Proof.
  intros Hu. unfold make_annotation_name, bind, gets, modify, ret.
  eexists _, _. split; [done|].
  repeat split; try done.
  - exists "". by rewrite string_app_nil_r.
  - congruence.
Qed.

Lemma annotations_have_body_children (a : Z) (s : string) (i p : bool)
    (cs : list node) :
  annotations_have_body (Node a s i p cs) = true →
  Forall (λ c, annotations_have_body c = true) cs.
Proof.
  cbn [annotations_have_body children]. intros H.
  apply andb_true_iff in H as [_ H].
  induction cs as [|c cs IH]; [done|].
  apply andb_true_iff in H as [Hc H]. constructor; [done|by apply IH].
Qed.

(** Takes a printer computation apart along its binds. *)
Ltac step_returns :=
  repeat first
    [ apply returns_emit
    | apply (returns_with_ret (printer_frame_refl _))
    | apply (returns_with_bind (printer_frame_trans _)); [|intros]
    | apply (returns_with_when (printer_frame_refl _)); intros ].

(** Run on a tree whose annotation nodes have a body, the printer
    returns, and leaves alone what [printer_frame] names. *)
Lemma print_node_sorted_returns (o : options) (keep : annotation_mode)
    (n : node) :
  annotations_have_body n = true →
  ∀ s, returns_with (printer_frame o) (print_node_sorted o keep n) s.
Proof.
  induction n as [a sym i p cs IH] using node_tree_ind. intros Hb.
  pose proof (annotations_have_body_children _ _ _ _ _ Hb) as Hcs.
  cbn [print_node_sorted children symbol is_name needs_parens].
  destruct (String.eqb sym "!" && negb (keep_annotation _ keep)) eqn:Hann.
  - apply andb_true_iff in Hann as [Hsym _].
    cbn [annotations_have_body children symbol] in Hb. rewrite Hsym in Hb.
    destruct cs as [|c cs]; [done|].
    inversion IH; subst. inversion Hcs; subst. auto.
  - intros s. step_returns.
    + destruct (no_scramble o) eqn:Hno; cbn [orb]; [apply returns_emit|].
      destruct (negb i); [apply returns_emit|].
      apply (returns_with_bind (printer_frame_trans _));
        [by apply returns_lookup_sorted|].
      intros id s1 _. destruct (id =? 0); apply returns_emit.
    + destruct (gen_ucore o) eqn:Hu; cbn [andb];
        [|apply (returns_with_ret (printer_frame_refl _))].
      destruct (String.eqb sym "assert");
        [by apply returns_make_annotation_name
        |apply (returns_with_ret (printer_frame_refl _))].
    + clear Hb Hann. generalize (descends (Node a sym i p cs)). intros g.
      match goal with |- returns_with _ _ ?st => generalize st end.
      generalize 0%nat.
      induction IH as [|c cs Hc _ IHcs]; intros k st;
        [apply (returns_with_ret (printer_frame_refl _))|].
      inversion Hcs; subst. step_returns; auto.
Qed.

Lemma print_all_returns (o : options) (keep : annotation_mode)
    (v : list node) :
  Forall (λ c, annotations_have_body c = true) v →
  ∀ s, returns_with (printer_frame o) (print_all o keep v) s.
Proof.
  induction 1 as [|c v Hc _ IH]; intros s; cbn [print_all].
  - apply (returns_with_ret (printer_frame_refl _)).
  - unfold print_command_sorted. step_returns; auto.
    by apply print_node_sorted_returns.
Qed.

(** X8: run on a tree in which every annotation node has a body, the
    printer returns; it has only appended to the output: the generator,
    the declaration registry and the buffer are as before, the
    first-occurrence registry shows what it showed and has handed out no
    identifier, the counter of annotation names has moved only if
    [gen_ucore] is set, and with [no_scramble] set the first-occurrence
    registry is not touched.  An annotation node without a body that is
    to be stripped makes the printer read [children[0]] of an empty
    vector. *)
Theorem print_node_sorted_only_appends (o : options)
    (keep : annotation_mode) (n : node) (s : state) :
  annotations_have_body n = true →
  (∃ s', print_node_sorted o keep n s = Ok (tt, s') ∧ printer_frame o s s')
  ∧ (∃ s', print_command_sorted o keep n s = Ok (tt, s')
           ∧ printer_frame o s s')
  ∧ ∀ a i p, print_node_sorted o none (Node a "!" i p []) s = Undefined.
Proof.
  intros Hb. split; [|split; [|done]].
  - destruct (print_node_sorted_returns o keep n Hb s)
      as ([] & s' & Hrun & Hframe).
    by exists s'.
  - assert (Hc : returns_with (printer_frame o)
                   (print_command_sorted o keep n) s).
    { unfold print_command_sorted. step_returns.
      by apply print_node_sorted_returns. }
    destruct Hc as ([] & s' & Hrun & Hframe). by exists s'.
Qed.

Lemma print_node_sorted_only_appends_witness :
  let o := Options false true false false None in
  let n := Node 1 "assert" false true
             [Node 2 "!" false true
                [Node 3 "p" true false []; Node 4 ":named" false false [];
                 Node 5 "a0" false false []]] in
  ∃ s', print_node_sorted o none n initial_state = Ok (tt, s')
        ∧ printer_frame o initial_state s'.
Proof.
  intros o n.
  exact (proj1 (print_node_sorted_only_appends o none n initial_state
                  eq_refl)).
Defined.

Section print_ranked_properties.

Variable std_sort : ∀ A : Type, (A → A → bool) → list A → list A.
Hypothesis std_sort_ok : sort_contract std_sort.
Variable o : options.

(** X9: on a buffer that fits a [size_t] index, that holds fewer than
    [2^31] assertions (so that the length of every run of assertions fits
    the [int] parameter of [get_ranks]) and whose annotation nodes all
    have a body, [print_ranked] returns.  It prints, one after the
    other, the commands of a buffer [v2] obtained in two steps:
    assertions are rearranged inside their runs (giving [v1]), then
    declarations and definitions inside their runs; every other command
    keeps its place and nothing moves across it.  The names are printed
    by a registry that shows the first-occurrence numbering of the
    assertions of [v1].  Afterwards the buffer is empty, and apart from
    the output, the first-occurrence registry and the counter of
    annotation names the state is as before. *)
Theorem print_ranked_prints_rearrangement (keep : annotation_mode)
    (s : state) :
  Z.of_nat (length (commands s)) < two64 →
  Z.of_nat (length (List.filter is_assert (commands s))) < 2 ^ 31 →
  Forall (λ c, annotations_have_body c = true) (commands s) →
  ∃ v1 v2 r2 s',
    same_places is_assert (commands s) v1
    ∧ same_places is_declaration v1 v2
    ∧ same_shown r2 (first_occurrences v1 (names_sorted s))
    ∧ next_name_id r2 = next_name_id (first_occurrences v1 (names_sorted s))
    ∧ print_all o keep v2 (set_names_sorted r2 (set_commands v2 s))
      = Ok (tt, s')
    ∧ printer_frame o (set_names_sorted r2 (set_commands v2 s)) s'
    ∧ print_ranked std_sort o keep s = Ok (tt, set_commands [] s').
Proof.
  intros Hsize _ Hbody.
  destruct (rank_pass_spec std_sort std_sort_ok o (length (commands s)) 0 s)
    as (v1 & Hrank & Hv1); [lia|done|].
  assert (Hlen1 : length v1 = length (commands s)).
  { destruct Hv1 as [Hp _]. by rewrite Hp. }
  set (r1 := first_occurrences v1 (names_sorted s)).
  set (s2 := set_names_sorted r1 (set_commands v1 s)).
  destruct (declaration_pass_spec std_sort std_sort_ok (length v1) 0 s2)
    as (v2 & r2 & Hdecl & Hv2 & Hr2 & Hn2).
  { cbn [commands s2 set_names_sorted set_commands]. lia. }
  { cbn [commands s2 set_names_sorted set_commands]. lia. }
  cbn [commands names_sorted s2 set_names_sorted set_commands] in Hv2, Hr2,
    Hn2.
  assert (Hbody2 : Forall (λ c, annotations_have_body c = true) v2).
  { destruct Hv1 as [P1 _]. destruct Hv2 as [P2 _]. by rewrite P2, P1. }
  destruct (print_all_returns o keep v2 Hbody2
              (set_names_sorted r2 (set_commands v2 s)))
    as ([] & s' & Hprint & Hframe).
  exists v1, v2, r2, s'.
  split; [done|]. split; [done|]. split; [done|]. split; [done|].
  split; [done|]. split; [done|].
  unfold print_ranked. unfold bind at 1, gets. unfold bind at 1.
  rewrite Hrank. unfold bind at 1, assign_pass, modify.
  unfold bind at 1, gets. unfold bind at 1.
  cbn [commands set_commands set_names_sorted names_sorted].
  fold (first_occurrences v1 (names_sorted s)). fold r1.
  change (set_names_sorted r1 (set_commands v1 s)) with s2.
  rewrite Hdecl. unfold bind at 1, gets. unfold bind.
  cbn [commands set_commands set_names_sorted].
  change (set_names_sorted r2 (set_commands v2 s2))
    with (set_names_sorted r2 (set_commands v2 s)).
  by rewrite Hprint.
Qed.

End print_ranked_properties.

Lemma print_ranked_prints_rearrangement_witness :
  let o := Options false false false false None in
  let s := set_commands split_runs initial_state in
  ∃ v1 v2 r2 s',
    same_places is_assert split_runs v1
    ∧ same_places is_declaration v1 v2
    ∧ same_shown r2 (first_occurrences v1 registry_init)
    ∧ print_all o all v2 (set_names_sorted r2 (set_commands v2 s))
      = Ok (tt, s')
    ∧ print_ranked ref_sort o all s = Ok (tt, set_commands [] s').
Proof.
  intros o s.
  destruct (print_ranked_prints_rearrangement ref_sort ref_sort_contract o
              all s)
    as (v1 & v2 & r2 & s' & H1 & H2 & H3 & _ & H5 & _ & H7).
  - vm_compute. reflexivity.
  - vm_compute. reflexivity.
  - repeat constructor.
  - exists v1, v2, r2, s'.
    exact (conj H1 (conj H2 (conj H3 (conj H5 H7)))).
Defined.

(** ** More on the generator and on random shuffling *)

Lemma next_seed_range (seed : Z) :
  0 ≤ Prng.next_seed seed < two64
  ∧ Z.testbit (Prng.next_seed seed) 49 = false.
Proof.
  split.
  - unfold Prng.next_seed.
    assert (Hm : 0 ≤ Prng.mask < 2 ^ 64) by (by vm_compute).
    assert (Hu : 0 ≤ u64 (u64 (seed * Prng.a) + Prng.c))
      by (apply Z.mod_pos_bound; by vm_compute).
    split; [by apply Z.land_nonneg; left|].
    unfold two64.
    destruct (Z.eq_dec (Z.land (u64 (u64 (seed * Prng.a) + Prng.c))
                               Prng.mask) 0) as [->|Hne]; [done|].
    apply Z.log2_lt_pow2.
    + pose proof (Z.land_nonneg (u64 (u64 (seed * Prng.a) + Prng.c))
                    Prng.mask) as [_ Hn].
      specialize (Hn (or_introl Hu)). lia.
    + eapply Z.le_lt_trans; [apply Z.log2_land; lia|].
      apply Z.min_lt_iff. right. by vm_compute.
  - rewrite next_seed_bits by lia. apply andb_false_r.
Qed.

(** X10: for a bound other than 0 a draw returns a value below the bound,
    and below 2^48 whatever the bound is; the state it leaves is a 64-bit
    value whose bit 49 is clear.  Only the low 64 bits of the state
    matter.  The bound 0 is a remainder by zero. *)
Theorem next_rand_int_below_bound (bound seed : Z) :
  0 < bound →
  (∃ r seed',
     Prng.next_rand_int bound seed = Some (r, seed')
     ∧ 0 ≤ r < bound ∧ r < 2 ^ 48
     ∧ 0 ≤ seed' < two64 ∧ Z.testbit seed' 49 = false)
  ∧ Prng.next_rand_int bound (u64 seed) = Prng.next_rand_int bound seed
  ∧ Prng.next_rand_int 0 seed = None.
Proof.
  intros Hb. split; [|split; [|done]].
  - rewrite next_rand_int_draw by done.
    destruct (next_seed_range seed) as [Hr Hbit].
    eexists _, _. split; [done|].
    assert (Hs : 0 ≤ Z.shiftr (Prng.next_seed seed) 16 < 2 ^ 48).
    { rewrite Z.shiftr_div_pow2 by lia. unfold two64 in Hr.
      split; [apply Z.div_pos; lia|].
      apply Z.div_lt_upper_bound; lia. }
    pose proof (Z.mod_pos_bound (Z.shiftr (Prng.next_seed seed) 16) bound Hb).
    pose proof (Z.mod_le (Z.shiftr (Prng.next_seed seed) 16) bound
                  ltac:(lia) Hb).
    repeat split; try lia. done.
  - unfold Prng.next_rand_int, Prng.next_seed.
    replace (u64 (u64 seed * Prng.a)) with (u64 (seed * Prng.a)); [done|].
    unfold u64. by rewrite Z.mul_mod_idemp_l by (by vm_compute).
Qed.

Lemma next_rand_int_below_bound_witness :
  ∃ r seed',
    Prng.next_rand_int 3 12345 = Some (r, seed')
    ∧ 0 ≤ r < 3 ∧ r < 2 ^ 48
    ∧ 0 ≤ seed' < two64 ∧ Z.testbit seed' 49 = false.
Proof.
  exact (proj1 (next_rand_int_below_bound 3 12345 ltac:(lia))).
Defined.

(** The loop of [shuffle_list] draws once per iteration. *)
Lemma shuffle_loop_seed (i : nat) (start : Z) :
  ∀ (v : list node) (seed : Z) v' seed',
    shuffle_loop i start v seed = Some (v', seed') →
    seed' = Nat.iter i Prng.next_seed seed.
Proof.
  induction i as [|i IH]; intros v seed v' seed'.
  - by intros [= _ <-].
  - cbn [shuffle_loop]. unfold Prng.next_rand_int.
    destruct (u64 (Z.of_nat (S i) + 1) =? 0); [done|].
    destruct (swap_at v _ _) as [v1|]; [|done].
    intros Hloop. apply IH in Hloop. by rewrite Nat.iter_succ_r.
Qed.

(** With scrambling enabled, the loop counter of an empty window wraps
    around and the first draw has the bound 0. *)
Lemma shuffle_list_empty_window (v : list node) (start seed : Z) :
  shuffle_list false v start start seed = None.
Proof.
  unfold shuffle_list. rewrite Z.sub_diag.
  change (u64 (u64 0 - 1)) with (two64 - 1).
  assert (H64 : two64 = 2 ^ 64) by done.
  destruct (Z.to_nat (two64 - 1)) as [|i] eqn:Hi; [lia|].
  cbn [shuffle_loop].
  replace (Z.of_nat (S i) + 1) with two64 by lia.
  unfold u64. by rewrite Z.mod_same by lia.
Qed.

(** X11: on a window with at least one element inside the vector, and
    scrambling enabled, [shuffle_list] draws exactly one number less than
    the window has elements, so a window of one element is left as it is
    without a draw.  On an empty window, an empty vector passed to the
    one-argument [shuffle_list] included, the loop counter wraps around
    and the first draw is a remainder by zero. *)
Theorem shuffle_list_draws (v : list node) (start end_ seed : Z) :
  0 ≤ start < end_ →
  end_ ≤ Z.of_nat (length v) →
  Z.of_nat (length v) < two64 →
  (∃ v', shuffle_list false v start end_ seed
         = Some (v', Nat.iter (Z.to_nat (end_ - start - 1))
                       Prng.next_seed seed))
  ∧ (end_ = start + 1 → shuffle_list false v start end_ seed = Some (v, seed))
  ∧ (∃ v', shuffle_list_all false v seed
           = Some (v', Nat.iter (length v - 1) Prng.next_seed seed)
           ∧ v' ≡ₚ v)
  ∧ (∀ start' seed', shuffle_list false v start' start' seed' = None)
  ∧ (∀ seed', shuffle_list_all false [] seed' = None).
Proof.
  intros Hse Hend Hsize.
  assert (Hwin : ∀ a b, 0 ≤ a < b → b ≤ Z.of_nat (length v) →
    ∃ v', shuffle_list false v a b seed
          = Some (v', Nat.iter (Z.to_nat (b - a - 1)) Prng.next_seed seed)
          ∧ rearranged_within (Z.to_nat a) (Z.to_nat b) v v').
  { intros a b Hab Hb. unfold shuffle_list.
    rewrite (u64_small (b - a)) by lia.
    rewrite (u64_small (b - a - 1)) by lia.
    destruct (shuffle_loop_within (Z.to_nat (b - a - 1)) (Z.to_nat a)
                (Z.to_nat b) v seed) as (v' & seed' & Hloop & Hre);
      [lia..|].
    rewrite Z2Nat.id in Hloop by lia.
    apply shuffle_loop_seed in Hloop as Hseed. exists v'.
    by rewrite Hloop, Hseed. }
  split; [|split; [|split; [|split]]].
  - destruct (Hwin start end_ Hse Hend) as (v' & Hrun & _). by exists v'.
  - intros ->. unfold shuffle_list.
    replace (start + 1 - start) with 1 by lia. done.
  - destruct (Hwin 0 (Z.of_nat (length v)) ltac:(lia) ltac:(lia))
      as (v' & Hrun & Hlen & _ & _ & Hperm).
    exists v'. unfold shuffle_list_all. rewrite Hrun. split.
    + by replace (Z.to_nat (Z.of_nat (length v) - 0 - 1))
        with (length v - 1)%nat by lia.
    + rewrite Z2Nat.inj_0, Nat2Z.id, Nat.sub_0_r, !drop_0 in Hperm.
      rewrite <- Hlen in Hperm at 1. by rewrite !firstn_all in Hperm.
  - intros start' seed'. apply shuffle_list_empty_window.
  - intros seed'. apply (shuffle_list_empty_window [] 0).
Qed.

Lemma shuffle_list_draws_witness :
  let a := Node 1 "a" false false [] in
  let b := Node 2 "b" false false [] in
  let c := Node 3 "c" false false [] in
  (∃ v', shuffle_list false [a; b; c] 0 3 7
         = Some (v', Prng.next_seed (Prng.next_seed 7)))
  ∧ shuffle_list false [a; b; c] 1 2 7 = Some ([a; b; c], 7).
Proof.
  intros a b c. split.
  - exact (proj1 (shuffle_list_draws [a; b; c] 0 3 7 ltac:(lia)
                    ltac:(simpl; lia) ltac:(by vm_compute))).
  - exact (proj1 (proj2 (shuffle_list_draws [a; b; c] 1 2 7 ltac:(lia)
                           ltac:(simpl; lia) ltac:(by vm_compute)))
             eq_refl).
Defined.

(** ** First-occurrence numbering *)

Lemma extends_by_refl (r : registry) : extends_by 0 r r.
Proof. intros Hr. split; [done|]. split; [lia|done]. Qed.

Lemma extends_by_trans (k1 k2 : Z) (r1 r2 r3 : registry) :
  extends_by k1 r1 r2 → extends_by k2 r2 r3 →
  extends_by (k1 + k2) r1 r3.
Proof.
  intros H1 H2 Hr. destruct (H1 Hr) as (S1 & N1 & K1).
  destruct (H2 S1) as (S2 & N2 & K2).
  split; [done|]. split; [lia|auto].
Qed.

Lemma extends_by_mono (k k' : Z) (r r' : registry) :
  k ≤ k' → extends_by k r r' → extends_by k' r r'.
Proof.
  intros Hk H Hr. destruct (H Hr) as (S & N & K).
  split; [done|]. split; [lia|done].
Qed.

Lemma set_new_name_sorted_extends (n : string) (r : registry) :
  next_name_id r + 1 < two64 →
  extends_by 1 r (set_new_name_sorted n r).
Proof.
  intros Hnext Hr. rewrite set_new_name_sorted_same.
  destruct (run_op_sound r (OpDeclare n) Hnext Hr) as [Hs Hn].
  split; [done|]. split; [done|].
  intros s v. apply set_new_name_keeps.
Qed.

(** The first loop of [assign_num]. *)
Lemma assign_children_extends (cs : list node) :
  ∀ r, next_name_id r + Z.of_nat (length cs) < two64 →
    extends_by (Z.of_nat (length cs)) r
      (foldl (λ r c, if names_variable c
                     then set_new_name_sorted (symbol c) r else r) r cs).
Proof.
  induction cs as [|c cs IH]; intros r Hnext; [apply extends_by_refl|].
  cbn [foldl length] in *. intros Hr.
  assert (H1 : extends_by 1 r
                 (if names_variable c
                  then set_new_name_sorted (symbol c) r else r)).
  { destruct (names_variable c).
    - apply set_new_name_sorted_extends. lia.
    - eapply extends_by_mono; [|apply extends_by_refl]. lia. }
  destruct (H1 Hr) as (S1 & N1 & K1).
  replace (Z.of_nat (S (length cs))) with (1 + Z.of_nat (length cs)) by lia.
  eapply extends_by_trans; [exact H1|apply IH; lia|exact Hr].
Qed.

Lemma stack_size_length (cs : list node) :
  (length cs ≤ stack_size cs)%nat.
Proof.
  induction cs as [|c cs IH]; simpl; [lia|].
  rewrite (node_size_children c). unfold stack_size in *. lia.
Qed.

(** [assign_num] hands out at most one identifier per node below the
    root, and keeps a sound registry sound. *)
Lemma assign_num_extends (n : node) :
  ∀ r, next_name_id r + (Z.of_nat (node_size n) - 1) < two64 →
    extends_by (Z.of_nat (node_size n) - 1) r (assign_num n r).
Proof.
  induction n as [a s i p cs IH] using node_tree_ind. intros r Hnext.
  rewrite node_size_children in *. cbn [children] in *.
  cbn [assign_num children].
  pose proof (stack_size_length cs) as Hlen.
  set (r1 := foldl _ r cs). intros Hr.
  destruct (assign_children_extends cs r ltac:(lia) Hr) as (S1 & N1 & K1).
  fold r1 in S1, N1, K1.
  replace (Z.of_nat (S (stack_size cs)) - 1)
    with (Z.of_nat (length cs)
          + (Z.of_nat (stack_size cs) - Z.of_nat (length cs))) by lia.
  eapply extends_by_trans;
    [apply assign_children_extends; lia| |exact Hr].
  fold r1.
  assert (Hn1 : next_name_id r1
                + (Z.of_nat (stack_size cs) - Z.of_nat (length cs)) < two64)
    by lia.
  clear Hnext Hr S1 N1 K1 Hlen. revert Hn1. generalize r1. clear r1 r.
  generalize (descends (Node a s i p cs)). intros g. generalize 0%nat.
  induction IH as [|c cs Hc _ IHcs]; intros k r2 Hn2.
  - apply extends_by_refl.
  - pose proof (stack_size_length cs) as Hl.
    assert (Hst : stack_size (c :: cs)
                  = (node_size c + stack_size cs)%nat) by done.
    pose proof (node_size_children c) as Hc1.
    rewrite Hst in *. cbn [length] in *.
    replace (Z.of_nat (node_size c + stack_size cs)
             - Z.of_nat (S (length cs)))
      with ((Z.of_nat (node_size c) - 1)
            + (Z.of_nat (stack_size cs) - Z.of_nat (length cs))) by lia.
    intros Hr2.
    assert (H1 : extends_by (Z.of_nat (node_size c) - 1) r2
                   (if g k then assign_num c r2 else r2)).
    { destruct (g k).
      - apply Hc. lia.
      - eapply extends_by_mono; [|apply extends_by_refl]. lia. }
    destruct (H1 Hr2) as (S1 & N1 & K1).
    eapply extends_by_trans; [exact H1|apply IHcs; lia|exact Hr2].
Qed.

Lemma first_occurrences_extends (v : list node) :
  ∀ r, next_name_id r + Z.of_nat (stack_size v) < two64 →
    extends_by (Z.of_nat (stack_size v)) r (first_occurrences v r).
Proof.
  unfold first_occurrences.
  induction v as [|c v IH]; intros r Hnext; [apply extends_by_refl|].
  assert (Hst : stack_size (c :: v) = (node_size c + stack_size v)%nat)
    by done.
  rewrite Hst in *. cbn [foldl]. intros Hr.
  assert (H1 : extends_by (Z.of_nat (node_size c)) r
                 (if is_assert c then assign_num c r else r)).
  { destruct (is_assert c).
    - eapply extends_by_mono; [|apply assign_num_extends; lia]. lia.
    - eapply extends_by_mono; [|apply extends_by_refl]. lia. }
  destruct (H1 Hr) as (S1 & N1 & K1).
  rewrite Nat2Z.inj_add.
  eapply extends_by_trans; [exact H1|apply IH; lia|exact Hr].
Qed.

Lemma make_name_inj (x y : Z) : make_name x = make_name y → x = y.
Proof.
  unfold make_name. intros H. apply String.app_inj in H.
  by apply pretty_Z_inj in H.
Qed.

(** What the printer writes for a leaf that is a name: the symbol as it
    is spelled when the first-occurrence registry shows 0 for it, and the
    uniform name of its identifier otherwise. *)
Lemma print_name_leaf (o : options) (keep : annotation_mode) (a : Z)
    (sym : string) (s : state) :
  no_scramble o = false → special_word sym = false →
  printed (print_node_sorted o keep (Node a sym true false []) s)
  = Some (cout s +:+ (if shown_id (names_sorted s) (unquote sym) =? 0
                      then sym
                      else make_name (shown_id (names_sorted s)
                                        (unquote sym)))).
Proof.
  intros Hno Hsp. unfold special_word in Hsp.
  apply orb_false_iff in Hsp as [Hsp Hcheck].
  apply orb_false_iff in Hsp as [Hsp Hassert].
  apply orb_false_iff in Hsp as [Hne Hbang].
  cbn [print_node_sorted symbol is_name needs_parens children].
  rewrite Hbang, Hne, Hno, Hassert, Hcheck, andb_false_r.
  cbn [andb orb negb when_ String.eqb].
  pose proof (get_name_id_value sym (names_sorted s)) as Hval.
  rewrite <- get_name_id_sorted_same in Hval.
  cbv beta iota zeta delta [bind ret lookup_sorted gets modify emit when_].
  destruct (get_name_id_sorted sym (names_sorted s)) as [id r'].
  cbn [fst] in Hval. subst id. cbv beta iota.
  set (id := shown_id (names_sorted s) (unquote sym)).
  destruct (id =? 0); reflexivity.
Qed.

(** X12: the numbering by first occurrence.  From a sound registry, and
    with fewer nodes in the buffer than identifiers left, the second loop
    of [print_ranked] gives a sound registry again: the symbols that had
    an identifier keep it, and at most one identifier per node is handed
    out.  With scrambling enabled, two name leaves of which the first has
    been numbered are printed alike only if they are the same symbol, or
    if the second has no number and is itself spelled as the uniform name
    of the first: a symbol without a number is printed as it is spelled,
    and in the buffer [(assert (> y 0))] the names [y], numbered 1, and
    [x1], not numbered, are both printed as [x1]. *)
Theorem first_occurrence_numbering_sound (v : list node) (r : registry) :
  registry_sound r →
  next_name_id r + Z.of_nat (stack_size v) < two64 →
  registry_sound (first_occurrences v r)
  ∧ (∀ s id, name_ids r !! s = Some id →
       name_ids (first_occurrences v r) !! s = Some id)
  ∧ next_name_id r ≤ next_name_id (first_occurrences v r)
    ≤ next_name_id r + Z.of_nat (stack_size v)
  ∧ (∀ o keep a1 a2 sym1 sym2 s,
       names_sorted s = first_occurrences v r →
       no_scramble o = false →
       special_word sym1 = false → special_word sym2 = false →
       shown_id (first_occurrences v r) (unquote sym1) ≠ 0 →
       printed (print_node_sorted o keep (Node a1 sym1 true false []) s)
       = printed (print_node_sorted o keep (Node a2 sym2 true false []) s) →
       unquote sym1 = unquote sym2
       ∨ (shown_id (first_occurrences v r) (unquote sym2) = 0
          ∧ sym2 = make_name (shown_id (first_occurrences v r)
                                (unquote sym1))))
  ∧ (let v0 := [Node 1 "assert" false true
                  [Node 2 ">" false true
                     [Node 3 "y" true false []; Node 4 "0" false false []]]] in
     let s0 := set_names_sorted (first_occurrences v0 registry_init)
                 initial_state in
     let o0 := Options false false false false None in
     shown_id (names_sorted s0) "y" = 1
     ∧ shown_id (names_sorted s0) "x1" = 0
     ∧ printed (print_node_sorted o0 all (Node 5 "y" true false []) s0)
       = Some "x1"%string
     ∧ printed (print_node_sorted o0 all (Node 6 "x1" true false []) s0)
       = Some "x1"%string)
  ∧ ∀ s, assign_pass (set_names_sorted r (set_commands v s))
         = Ok (tt, set_names_sorted (first_occurrences v r)
                     (set_commands v s)).
Proof.
  intros Hr Hnext.
  destruct (first_occurrences_extends v r Hnext Hr) as (Hs & Hn & Hk).
  split; [done|]. split; [done|]. split; [done|].
  split; [|split; [by vm_compute|done]].
  intros o keep a1 a2 sym1 sym2 s Hreg Hno Hsp1 Hsp2 Hnz.
  rewrite !print_name_leaf by done. rewrite Hreg.
  set (R := first_occurrences v r) in *.
  destruct (Z.eqb_spec (shown_id R (unquote sym1)) 0) as [|_]; [done|].
  destruct (Z.eqb_spec (shown_id R (unquote sym2)) 0) as [H0|Hnz2];
    intros [= Heq]; apply String.app_inj in Heq.
  - right. by split.
  - left. apply make_name_inj in Heq.
    destruct Hs as (_ & _ & Hinj). unfold shown_id in *.
    destruct (name_ids R !! unquote sym1) as [v1|] eqn:H1; [|done].
    destruct (name_ids R !! unquote sym2) as [v2|] eqn:H2; [|done].
    simpl in *. subst v2. by apply (Hinj _ _ v1).
Qed.

Lemma first_occurrence_numbering_sound_witness :
  let v := [Node 1 "assert" false true
              [Node 2 ">" false true
                 [Node 3 "y" true false []; Node 4 "x" true false []]]] in
  let s := set_names_sorted (first_occurrences v registry_init)
             initial_state in
  let o := Options false false false false None in
  registry_sound (first_occurrences v registry_init)
  ∧ (printed (print_node_sorted o all (Node 5 "|y|" true false []) s)
     = Some "x1"%string
     ∧ printed (print_node_sorted o all (Node 6 "x1" true false []) s)
       = Some "x1"%string)
  ∧ (unquote "|y|" = unquote "x1"
     ∨ (shown_id (first_occurrences v registry_init) (unquote "x1") = 0
        ∧ "x1"%string
          = make_name (shown_id (first_occurrences v registry_init)
                         (unquote "|y|")))).
Proof.
  intros v s o.
  destruct (first_occurrence_numbering_sound v registry_init
              registry_sound_init ltac:(by vm_compute))
    as (H1 & _ & _ & H4 & _).
  split; [exact H1|]. split; [by vm_compute|].
  apply (H4 o all 5 6 "|y|"%string "x1"%string s); by vm_compute.
Defined.

(** ** The benchmark's logic and its cached queries *)

Lemma results_current_init : results_current logic_init.
Proof. repeat split; by left. Qed.

Lemma cached_unset (found : string → bool) (x : Z) :
  cached found "" x → x = -1.
Proof. by intros [?|[? _]]. Qed.

(** A query on a logic state whose [result]s are current: with the logic
    set it answers for the logic, and the [result]s stay current; with no
    logic set it leaves through [exit(1)]. *)
Ltac query_current :=
  let st := fresh "st" in let Hc := fresh "Hc" in let Hl := fresh "Hl" in
  intros st Hc Hl; unfold logic_query;
  destruct Hc as ([H1|[_ H1]] & [H2|[_ H2]] & [H3|[_ H3]] & [H4|[_ H4]]);
  cbn [result_dl result_arith result_bv result_fp logic];
  apply String.eqb_neq in Hl as Hl'; rewrite ?Hl';
  rewrite ?H1, ?H2, ?H3, ?H4; cbn [Z.eqb Pos.eqb];
  repeat match goal with
         | |- context [if ?b then 1 else 0] => destruct b eqn:?
         end;
  cbn [Z.eqb Pos.eqb];
  (eexists; split; [reflexivity|]; split; [reflexivity|]);
  unfold results_current, cached;
  cbn [result_dl result_arith result_bv result_fp logic];
  repeat match goal with
         | H : _ = true |- _ => rewrite H
         | H : _ = false |- _ => rewrite H
         end;
  repeat split; auto.

Lemma logic_is_dl_current :
  ∀ st, results_current st → logic st ≠ "" →
    ∃ st', logic_is_dl st
           = Returns (contains "IDL" (logic st) || contains "RDL" (logic st),
                      st')
           ∧ logic st' = logic st ∧ results_current st'.
Proof. unfold logic_is_dl. query_current. Qed.

Lemma logic_is_arith_current :
  ∀ st, results_current st → logic st ≠ "" →
    ∃ st', logic_is_arith st
           = Returns (contains "IA" (logic st) || contains "RA" (logic st),
                      st')
           ∧ logic st' = logic st ∧ results_current st'.
Proof. unfold logic_is_arith. query_current. Qed.

Lemma logic_is_bv_current :
  ∀ st, results_current st → logic st ≠ "" →
    ∃ st', logic_is_bv st = Returns (contains "BV" (logic st), st')
           ∧ logic st' = logic st ∧ results_current st'.
Proof. unfold logic_is_bv. query_current. Qed.

Lemma logic_is_fp_current :
  ∀ st, results_current st → logic st ≠ "" →
    ∃ st', logic_is_fp st = Returns (contains "FP" (logic st), st')
           ∧ logic st' = logic st ∧ results_current st'.
Proof. unfold logic_is_fp. query_current. Qed.

(** With no logic set, a query leaves through [exit(1)]. *)
Lemma logic_query_unset (get : logic_state → Z)
    (put : Z → logic_state → logic_state) (found : string → bool)
    (st : logic_state) :
  get st = -1 → logic st = "" → logic_query get put found st = Exits 1.
Proof. intros Hg Hl. unfold logic_query. by rewrite Hg, Hl. Qed.

Lemma results_current_unset (st : logic_state) :
  results_current st → logic st = "" →
  result_dl st = -1 ∧ result_arith st = -1 ∧ result_bv st = -1
  ∧ result_fp st = -1.
Proof.
  intros (H1 & H2 & H3 & H4) Hl. rewrite Hl in *.
  repeat split; by eapply cached_unset.
Qed.

Lemma run_call_current (c : logic_call) (st : logic_state) (x : option bool)
    (st' : logic_state) :
  results_current st →
  run_call c st = Returns (x, st') →
  results_current st'
  ∧ (logic st ≠ "" → logic st' = logic st)
  ∧ match c with
    | SetLogic l => logic st = "" ∧ logic st' = l ∧ x = None
    | _ => logic st ≠ "" ∧ x = answer_in (logic st) c
    end.
Proof.
  intros Hc.
  destruct (decide (logic st = "")) as [Hl|Hl].
  - destruct (results_current_unset st Hc Hl) as (H1 & H2 & H3 & H4).
    destruct c as [l| | | |]; cbn [run_call]; unfold rbind.
    + unfold set_logic. rewrite Hl. cbn [String.eqb negb].
      intros [= <- <-]. split; [|by split].
      unfold results_current, cached.
      cbn [result_dl result_arith result_bv result_fp logic].
      rewrite H1, H2, H3, H4. repeat split; by left.
    + unfold logic_is_dl. by rewrite logic_query_unset.
    + unfold logic_is_arith. by rewrite logic_query_unset.
    + unfold logic_is_bv. by rewrite logic_query_unset.
    + unfold logic_is_fp. by rewrite logic_query_unset.
  - destruct c as [l| | | |]; cbn [run_call]; unfold rbind.
    + unfold set_logic. apply String.eqb_neq in Hl. by rewrite Hl.
    + destruct (logic_is_dl_current st Hc Hl) as (st1 & -> & Hl1 & Hc1).
      unfold rret. intros [= <- <-]. split; [done|]. split; [done|]. by split.
    + destruct (logic_is_arith_current st Hc Hl) as (st1 & -> & Hl1 & Hc1).
      unfold rret. intros [= <- <-]. split; [done|]. split; [done|]. by split.
    + destruct (logic_is_bv_current st Hc Hl) as (st1 & -> & Hl1 & Hc1).
      unfold rret. intros [= <- <-]. split; [done|]. split; [done|]. by split.
    + destruct (logic_is_fp_current st Hc Hl) as (st1 & -> & Hl1 & Hc1).
      unfold rret. intros [= <- <-]. split; [done|]. split; [done|]. by split.
Qed.

Lemma run_calls_current (cs : list logic_call) :
  ∀ st answers st',
    results_current st →
    run_calls cs st = Returns (answers, st') →
    results_current st'
    ∧ (logic st ≠ "" → logic st' = logic st)
    ∧ Forall2 (λ c a, a = answer_in (logic st') c) cs answers
    ∧ Forall (sets_only (logic st')) cs.
Proof.
  induction cs as [|c cs IH]; intros st answers st' Hc; cbn [run_calls].
  - unfold rret. intros [= <- <-]. split; [done|]. split; [done|].
    by split.
  - unfold rbind at 1.
    destruct (run_call c st) as [[x st1]| | | |] eqn:Hrun; try done.
    unfold rbind, rret.
    destruct (run_calls cs st1) as [[xs st2]| | | |] eqn:Hruns; try done.
    intros [= <- <-].
    destruct (run_call_current c st x st1 Hc Hrun) as (Hc1 & Hk1 & Hx).
    destruct (IH st1 xs st2 Hc1 Hruns) as (Hc2 & Hk2 & Hall & Hsets).
    assert (Hkeep : logic st ≠ "" → logic st2 = logic st).
    { intros Hl. specialize (Hk1 Hl). rewrite Hk2; congruence. }
    split; [done|]. split; [done|].
    split; constructor; try done.
    + destruct c as [l| | | |];
        try (destruct Hx as [Hl ->]; by rewrite (Hkeep Hl)).
      by destruct Hx as (_ & _ & ->).
    + destruct c as [l| | | |]; try done. simpl.
      destruct Hx as (_ & Hl1 & _).
      destruct (decide (l = "")) as [?|Hl]; [by left|right].
      rewrite Hk2; congruence.
Qed.

(** X13: the queries never answer for a stale logic.  In a run of calls
    of [set_logic] and of the four queries that starts at program start
    and in which every call returns, every query has answered for the
    logic the run ends with, and every [set_logic] in it has set that
    logic or the empty name: once a logic with a name is set, a further
    [set_logic] leaves through [exit(1)], and so does a query made before
    a logic is set. *)
Theorem logic_queries_agree (cs : list logic_call)
    (answers : list (option bool)) (st' : logic_state) :
  run_calls cs logic_init = Returns (answers, st') →
  Forall2 (λ c a, a = answer_in (logic st') c) cs answers
  ∧ Forall (sets_only (logic st')) cs
  ∧ (logic st' ≠ "" → ∀ l, run_calls (cs ++ [SetLogic l]) logic_init = Exits 1)
  ∧ (logic st' = "" →
     ∀ c, run_calls (cs ++ [c]) logic_init = Exits 1
          ∨ ∃ l, c = SetLogic l).
Proof.
  intros Hrun.
  destruct (run_calls_current cs logic_init answers st'
              results_current_init Hrun) as (Hc & _ & Hall & Hsets).
  split; [done|]. split; [done|].
  assert (Happ : ∀ c, run_calls (cs ++ [c]) logic_init
                      = match run_call c st' with
                        | Returns (x, st2) => Returns (answers ++ [x], st2)
                        | Exits status => Exits status
                        | Aborts => Aborts
                        | Faults => Faults
                        | Unfinished => Unfinished
                        end).
  { intros c. clear Hc Hall Hsets. revert Hrun. generalize logic_init.
    revert answers.
    induction cs as [|c0 cs IH]; intros answers st0; cbn [run_calls app].
    - unfold rret. intros [= <- <-]. unfold rbind, rret.
      by destruct (run_call c st0) as [[x st2]| | | |].
    - unfold rbind at 1 3.
      destruct (run_call c0 st0) as [[x st1]| | | |]; try done.
      unfold rbind.
      destruct (run_calls cs st1) as [[xs st2]| | | |] eqn:Hruns; try done.
      unfold rret at 1. intros [= <- <-]. rewrite (IH xs st1 Hruns).
      unfold rret. by destruct (run_call c st2) as [[y st3]| | | |]. }
  split.
  - intros Hl l. rewrite Happ. cbn [run_call]. unfold rbind, set_logic.
    apply String.eqb_neq in Hl. by rewrite Hl.
  - intros Hl c. rewrite Happ.
    destruct (results_current_unset st' Hc Hl) as (H1 & H2 & H3 & H4).
    destruct c as [l| | | |]; [right; by exists l|left..];
      cbn [run_call]; unfold rbind.
    + unfold logic_is_dl. by rewrite logic_query_unset.
    + unfold logic_is_arith. by rewrite logic_query_unset.
    + unfold logic_is_bv. by rewrite logic_query_unset.
    + unfold logic_is_fp. by rewrite logic_query_unset.
Qed.

Lemma logic_queries_agree_witness :
  let run := [SetLogic "QF_ABV"; IsBv; IsDl; IsBv; IsArith] in
  ∃ st',
    run_calls run logic_init
    = Returns ([None; Some true; Some false; Some true; Some false], st')
    ∧ logic st' = "QF_ABV"
    ∧ ∀ l, run_calls (run ++ [SetLogic l]) logic_init = Exits 1.
Proof.
  intros run.
  eexists. split; [reflexivity|]. split; [reflexivity|].
  by apply (logic_queries_agree run _ _ eq_refl).
Defined.

(** ** Commutative operators and operators that are flipped *)

Lemma operator_symbol_cases (n : node) :
  (∃ s, s ≠ "" ∧ ∀ st, operator_symbol n st = Returns (s, st))
  ∨ (∀ st, operator_symbol n st = Aborts).
Proof.
  unfold operator_symbol, rbind.
  destruct (String.eqb (symbol n) "as").
  - destruct (children n) as [|c cs]; [by right|]. unfold rret.
    destruct (String.eqb_spec (symbol c) "") as [He|Hne]; [by right|].
    left. by exists (symbol c).
  - unfold rret.
    destruct (String.eqb_spec (symbol n) "") as [He|Hne]; [by right|].
    left. by exists (symbol n).
Qed.

(** The three tables are involutions without fixed points, apart from
    each other, and hold no operator [is_commutative] knows. *)
Lemma flipped_by_cases (arith bv fp : bool) (s s' : string) :
  flipped_by arith bv fp s = Some s' →
  flipped_by arith bv fp s' = Some s
  ∧ s' ≠ s
  ∧ String.eqb s' "" = false
  ∧ String.eqb s' "as" = false
  ∧ one_of ["and"; "or"; "xor"; "distinct"; "="; "*"; "+"; "bvand"; "bvor";
            "bvxor"; "bvnand"; "bvnor"; "bvcomp"; "bvadd"; "bvmul";
            "fp.eq"; "fp.add"; "fp.mul"] s = false.
Proof.
  unfold flipped_by, flip_arith, flip_bv, flip_fp.
  destruct arith, bv, fp;
    repeat match goal with
           | |- context [String.eqb s ?c] =>
               destruct (String.eqb_spec s c) as [->|?]
           end;
    intros [= <-]; done.
Qed.

(** Under current [result]s and with the logic set, the three queries of
    [flip_antisymm] answer for the logic. *)
Lemma flip_antisymm_by_logic (fresh : Z) (n : node) (seed_ : Z)
    (st : logic_state) (s : string) :
  results_current st → logic st ≠ "" →
  operator_symbol n st = Returns (s, st) →
  Z.shiftr (Prng.next_seed seed_) 16 mod 2 ≠ 0 →
  ∃ st',
    flip_antisymm false fresh n seed_ st
    = Returns (((λ s', make_node fresh (Some s') None None)
                <$> flipped_in (logic st) s,
                Prng.next_seed seed_), st')
    ∧ logic st' = logic st ∧ results_current st'.
Proof.
  intros Hc Hl Hop Hdraw. unfold flip_antisymm.
  rewrite next_rand_int_draw by lia.
  destruct (Z.eqb_spec (Z.shiftr (Prng.next_seed seed_) 16 mod 2) 0)
    as [?|_]; [done|].
  unfold rbind at 1. rewrite Hop.
  destruct (logic_is_arith_current st Hc Hl) as (st1 & E1 & L1 & C1).
  unfold rbind at 1. rewrite E1.
  unfold flipped_in, flipped_by.
  destruct (if contains "IA" (logic st) || contains "RA" (logic st)
            then flip_arith s else None) as [s'|].
  { exists st1. by split. }
  destruct (logic_is_bv_current st1 C1 ltac:(congruence))
    as (st2 & E2 & L2 & C2).
  unfold rbind at 1. rewrite E2, L1.
  destruct (if contains "BV" (logic st) then flip_bv s else None) as [s'|].
  { exists st2. split; [done|]. split; [congruence|done]. }
  destruct (logic_is_fp_current st2 C2 ltac:(congruence))
    as (st3 & E3 & L3 & C3).
  unfold rbind. rewrite E3, L2, L1.
  exists st3. split; [|split; [congruence|done]].
  by destruct (if contains "FP" (logic st) then flip_fp s else None).
Qed.

(** An operator that is flipped is none [is_commutative] knows. *)
Lemma is_commutative_flipped (n : node) (st : logic_state) (s s' : string) :
  results_current st → logic st ≠ "" →
  operator_symbol n st = Returns (s, st) →
  flipped_in (logic st) s = Some s' →
  ∃ st', is_commutative n st = Returns (-1, st')
         ∧ logic st' = logic st ∧ results_current st'.
Proof.
  intros Hc Hl Hop Hflip.
  apply flipped_by_cases in Hflip as (_ & _ & _ & _ & Hnone).
  unfold one_of in Hnone. cbn [existsb] in Hnone.
  repeat (apply orb_false_iff in Hnone as [? Hnone]).
  unfold is_commutative. unfold rbind at 1. rewrite Hop.
  unfold one_of. cbn [existsb].
  destruct (logic_is_dl_current st Hc Hl) as (st1 & E1 & L1 & C1).
  destruct (logic_is_arith_current st1 C1 ltac:(congruence))
    as (st2 & E2 & L2 & C2).
  destruct (logic_is_bv_current st2 C2 ltac:(congruence))
    as (st3 & E3 & L3 & C3).
  destruct (logic_is_fp_current st3 C3 ltac:(congruence))
    as (st4 & E4 & L4 & C4).
  repeat match goal with H : String.eqb s _ = false |- _ =>
    rewrite H; clear H end.
  cbn [orb]. unfold rbind at 1. rewrite E1. rewrite andb_false_r.
  unfold rbind at 1. rewrite E2. rewrite andb_false_r.
  unfold rbind at 1. rewrite E3. rewrite andb_false_r.
  unfold rbind. rewrite E4. rewrite !andb_false_r.
  exists st4. split; [done|]. split; [congruence|done].
Qed.

Lemma operator_symbol_leaf (fresh : Z) (s : string) (i p : bool)
    (st : logic_state) :
  String.eqb s "" = false → String.eqb s "as" = false →
  operator_symbol (Node fresh s i p []) st = Returns (s, st).
Proof.
  intros H1 H2. unfold operator_symbol, rbind. cbn [symbol].
  rewrite H2. unfold rret. by rewrite H1.
Qed.

(** X14: a flip can be taken back, and touches no commutative operator.
    When [flip_antisymm], with scrambling enabled and queries whose
    [result]s are current, returns [true], it has drawn exactly one
    number, the node it hands out is a fresh leaf that carries another
    operator than the node it was called on, [is_commutative] answers -1
    for both, and a call on the new node whose draw is not 0 hands out
    the operator of the first node again.  With [no_scramble] set the
    function returns [false] without a draw and without a query. *)
Theorem flip_antisymm_reversible (fresh : Z) (n : node) (seed_ : Z)
    (st : logic_state) (m : node) (seed' : Z) (st' : logic_state) :
  results_current st →
  flip_antisymm false fresh n seed_ st = Returns ((Some m, seed'), st') →
  (∃ s,
     operator_symbol n st = Returns (s, st)
     ∧ m = Node fresh (symbol m) false false []
     ∧ symbol m ≠ s
     ∧ seed' = Prng.next_seed seed_
     ∧ logic st' = logic st ∧ results_current st'
     ∧ (∃ st2, is_commutative n st' = Returns (-1, st2))
     ∧ (∃ st2, is_commutative m st' = Returns (-1, st2))
     ∧ ∀ fresh2 seed2,
         Z.shiftr (Prng.next_seed seed2) 16 mod 2 ≠ 0 →
         ∃ m2 st2,
           flip_antisymm false fresh2 m seed2 st'
           = Returns ((Some m2, Prng.next_seed seed2), st2)
           ∧ symbol m2 = s)
  ∧ ∀ fresh0 n0 seed0 st0,
      flip_antisymm true fresh0 n0 seed0 st0 = Returns ((None, seed0), st0).
Proof.
  intros Hc Hrun. split; [|done].
  pose proof Hrun as Hrun0. unfold flip_antisymm in Hrun.
  rewrite next_rand_int_draw in Hrun by lia.
  destruct (Z.eqb_spec (Z.shiftr (Prng.next_seed seed_) 16 mod 2) 0)
    as [?|Hdraw]; [done|].
  destruct (operator_symbol_cases n) as [(s & Hs & Hop)|Hab].
  2:{ unfold rbind at 1 in Hrun. by rewrite Hab in Hrun. }
  assert (Hl : logic st ≠ "").
  { intros Hl. unfold rbind at 1 in Hrun. rewrite Hop in Hrun.
    destruct (results_current_unset st Hc Hl) as (_ & H2 & _).
    unfold rbind at 1, logic_is_arith in Hrun.
    by rewrite logic_query_unset in Hrun. }
  clear Hrun.
  destruct (flip_antisymm_by_logic fresh n seed_ st s Hc Hl (Hop st) Hdraw)
    as (st1 & Hspec & L1 & C1).
  rewrite Hspec in Hrun0.
  destruct (flipped_in (logic st) s) as [s'|] eqn:Hflip; [|done].
  injection Hrun0 as <- <- <-.
  pose proof Hflip as Hcases.
  apply flipped_by_cases in Hcases as (Hback & Hne & He & Has & _).
  assert (Hm : make_node fresh (Some s') None None
               = Node fresh s' false false []).
  { unfold make_node. cbn [default pushed app from_option id].
    by rewrite He. }
  rewrite Hm. cbn [symbol].
  exists s. split; [done|]. split; [done|]. split; [done|].
  split; [done|]. split; [done|]. split; [done|].
  split; [|split].
  - destruct (is_commutative_flipped n st1 s s' C1 ltac:(congruence)
                (Hop st1) ltac:(by rewrite L1)) as (st2 & E & _).
    by exists st2.
  - destruct (is_commutative_flipped (Node fresh s' false false []) st1
                s' s C1 ltac:(congruence)
                (operator_symbol_leaf _ _ _ _ _ He Has)
                ltac:(by rewrite L1)) as (st2 & E & _).
    by exists st2.
  - intros fresh2 seed2 Hdraw2.
    destruct (flip_antisymm_by_logic fresh2 (Node fresh s' false false [])
                seed2 st1 s' C1 ltac:(congruence)
                (operator_symbol_leaf _ _ _ _ _ He Has) Hdraw2)
      as (st2 & E & _).
    rewrite L1 in E. unfold flipped_in in E. rewrite Hback in E.
    by eexists _, st2.
Qed.

Lemma flip_antisymm_reversible_witness :
  let n := Node 1 "<" false true [] in
  let st := LogicState "QF_LIA" (-1) (-1) (-1) (-1) in
  let st1 := LogicState "QF_LIA" (-1) 1 (-1) (-1) in
  ∃ m2 st2,
    run_calls [SetLogic "QF_LIA"] logic_init = Returns ([None], st)
    ∧ flip_antisymm false 2 n 2 st
      = Returns ((Some (Node 2 ">" false false []), Prng.next_seed 2), st1)
    ∧ flip_antisymm false 3 (Node 2 ">" false false []) 4 st1
      = Returns ((Some m2, Prng.next_seed 4), st2)
    ∧ symbol m2 = "<".
Proof.
  intros n st st1.
  assert (Hc : results_current st) by (repeat split; by left).
  destruct (flip_antisymm_reversible 2 n 2 st
              (Node 2 ">" false false []) (Prng.next_seed 2) st1 Hc eq_refl)
    as [(s & Hop & _ & _ & _ & _ & _ & _ & _ & Hback) _].
  injection Hop as <-.
  destruct (Hback 3 4 ltac:(by vm_compute)) as (m2 & st2 & Hrun & Hsym).
  exists m2, st2. split; [reflexivity|]. split; [reflexivity|]. by split.
Defined.

(** With the logic set and current [result]s, [is_commutative] answers
    for the logic. *)
Lemma is_commutative_by_logic (n : node) (st : logic_state) (s : string) :
  results_current st → logic st ≠ "" →
  operator_symbol n st = Returns (s, st) →
  ∃ st', is_commutative n st = Returns (commutative_in (logic st) s, st')
         ∧ logic st' = logic st ∧ results_current st'.
Proof.
  intros Hc Hl Hop.
  unfold is_commutative, commutative_in, commutative_by.
  unfold rbind at 1. rewrite Hop.
  destruct (one_of ["and"; "or"; "xor"; "distinct"] s); [by exists st|].
  destruct (logic_is_dl_current st Hc Hl) as (st1 & E1 & L1 & C1).
  unfold rbind at 1. rewrite E1.
  destruct (negb _ && String.eqb s "=");
    [exists st1; by split|].
  destruct (logic_is_arith_current st1 C1 ltac:(congruence))
    as (st2 & E2 & L2 & C2).
  unfold rbind at 1. rewrite E2, L1.
  destruct (_ && one_of ["*"; "+"] s);
    [exists st2; split; [done|]; split; [congruence|done]|].
  destruct (logic_is_bv_current st2 C2 ltac:(congruence))
    as (st3 & E3 & L3 & C3).
  unfold rbind at 1. rewrite E3, L2, L1.
  destruct (contains "BV" (logic st) && one_of _ s);
    [exists st3; split; [done|]; split; [congruence|done]|].
  destruct (logic_is_fp_current st3 C3 ltac:(congruence))
    as (st4 & E4 & L4 & C4).
  unfold rbind. rewrite E4, L3, L2, L1.
  exists st4. split; [|split; [congruence|done]].
  destruct (contains "FP" (logic st) && String.eqb s "fp.eq"); [done|].
  by destruct (contains "FP" (logic st) && one_of _ s).
Qed.

Lemma commutative_by_range (dl arith bv fp : bool) (s : string) :
  commutative_by dl arith bv fp s = -1
  ∨ commutative_by dl arith bv fp s = 0
  ∨ commutative_by dl arith bv fp s = 1.
Proof.
  unfold commutative_by.
  repeat match goal with
         | |- context [if ?b then _ else _] => destruct b
         end; auto.
Qed.

(** With no logic set, [is_commutative] answers for the four connectives
    it knows in every logic, and leaves through [exit(1)] for any other
    operator. *)
Lemma is_commutative_unset (n : node) (st : logic_state) (s : string) :
  results_current st → logic st = "" →
  operator_symbol n st = Returns (s, st) →
  is_commutative n st
  = if one_of ["and"; "or"; "xor"; "distinct"] s then Returns (0, st)
    else Exits 1.
Proof.
  intros Hc Hl Hop. unfold is_commutative. unfold rbind at 1. rewrite Hop.
  destruct (one_of _ s); [done|].
  destruct (results_current_unset st Hc Hl) as (H1 & _).
  unfold rbind, logic_is_dl. by rewrite logic_query_unset.
Qed.

(** X15: the answer of [is_commutative] is a property of the operator and
    the logic.  A call that returns, on current [result]s, answers -1, 0
    or 1, leaves the logic and keeps the [result]s current, and a later
    call on any node with the same operator, a qualified identifier
    [(as f sort)] counting as [f], gives the same answer.  With no logic
    set the function leaves through [exit(1)] for every operator other
    than [and], [or], [xor] and [distinct]; on a node [as] without
    children, and on a node without symbol, an [assert] fails. *)
Theorem is_commutative_answers_by_operator (n : node) (st : logic_state)
    (r : Z) (st' : logic_state) :
  results_current st →
  is_commutative n st = Returns (r, st') →
  (r = -1 ∨ r = 0 ∨ r = 1)
  ∧ logic st' = logic st ∧ results_current st'
  ∧ (∀ n2, operator_symbol n2 st = operator_symbol n st →
       ∃ st2, is_commutative n2 st' = Returns (r, st2))
  ∧ (∀ a i p c cs, String.eqb (symbol c) "as" = false →
       is_commutative (Node a "as" i p (c :: cs)) st
       = is_commutative (Node a (symbol c) i p []) st)
  ∧ (∀ s, logic st = "" → operator_symbol n st = Returns (s, st) →
       one_of ["and"; "or"; "xor"; "distinct"] s = true)
  ∧ (∀ a i p st0, is_commutative (Node a "as" i p []) st0 = Aborts)
  ∧ (∀ a i p cs st0, is_commutative (Node a "" i p cs) st0 = Aborts).
Proof.
  intros Hc Hrun.
  destruct (operator_symbol_cases n) as [(s & Hs & Hop)|Hab].
  2:{ unfold is_commutative, rbind in Hrun. by rewrite Hab in Hrun. }
  assert (Hsame : ∀ n2 st0, operator_symbol n2 st = operator_symbol n st →
                    operator_symbol n2 st0 = Returns (s, st0)).
  { intros n2 st0 Heq. rewrite Hop in Heq.
    destruct (operator_symbol_cases n2) as [(s2 & _ & Hop2)|Hab2].
    - rewrite Hop2 in Heq. injection Heq as ->. apply Hop2.
    - by rewrite Hab2 in Heq. }
  assert (Hmain : (r = -1 ∨ r = 0 ∨ r = 1)
    ∧ logic st' = logic st ∧ results_current st'
    ∧ (∀ n2, operator_symbol n2 st = operator_symbol n st →
         ∃ st2, is_commutative n2 st' = Returns (r, st2))
    ∧ (∀ s0, logic st = "" → operator_symbol n st = Returns (s0, st) →
         one_of ["and"; "or"; "xor"; "distinct"] s0 = true)).
  { destruct (decide (logic st = "")) as [Hl|Hl].
    - rewrite (is_commutative_unset n st s Hc Hl (Hop st)) in Hrun.
      destruct (one_of _ s) eqn:Hcore; [|done].
      injection Hrun as <- <-.
      split; [auto|]. split; [done|]. split; [done|]. split.
      + intros n2 Heq. exists st.
        rewrite (is_commutative_unset n2 st s Hc Hl (Hsame n2 st Heq)).
        by rewrite Hcore.
      + intros s0 _ Hop0. rewrite Hop in Hop0. by injection Hop0 as <-.
    - destruct (is_commutative_by_logic n st s Hc Hl (Hop st))
        as (st1 & E & L1 & C1).
      rewrite E in Hrun. injection Hrun as <- <-.
      split; [apply commutative_by_range|]. split; [done|].
      split; [done|]. split; [|done].
      intros n2 Heq.
      destruct (is_commutative_by_logic n2 st1 s C1 ltac:(congruence)
                  (Hsame n2 st1 Heq)) as (st2 & E2 & _).
      exists st2. by rewrite E2, L1. }
  destruct Hmain as (H1 & H2 & H3 & H4 & H5).
  split; [done|]. split; [done|]. split; [done|]. split; [done|].
  split; [|split; [done|split; [done|]]].
  - intros a i p c cs Has. unfold is_commutative, operator_symbol, rbind.
    cbn [symbol children String.eqb Ascii.eqb Bool.eqb]. by rewrite Has.
  - intros a i p cs st0. reflexivity.
Qed.

Lemma is_commutative_answers_by_operator_witness :
  let st := LogicState "QF_FP" (-1) (-1) (-1) (-1) in
  let f := Node 2 "fp.add" true false [] in
  let n := Node 1 "as" false true [f; Node 3 "Float32" false false []] in
  ∃ st', is_commutative n st = Returns (1, st')
         ∧ ∃ st2, is_commutative f st' = Returns (1, st2).
Proof.
  intros st f n.
  assert (Hc : results_current st) by (repeat split; by left).
  eexists. split; [reflexivity|].
  destruct (is_commutative_answers_by_operator n st 1 _ Hc eq_refl)
    as (_ & _ & _ & Hsame & _).
  exact (Hsame f eq_refl).
Defined.

(** ** The random permutation of name ids *)

Lemma swap_at_permutation {A : Type} (v v' : list A) (i j : Z) :
  swap_at v i j = Some v' →
  v' ≡ₚ v ∧ length v' = length v
  ∧ ∀ p, (p ≤ Z.to_nat i)%nat → (p ≤ Z.to_nat j)%nat →
         take p v' = take p v.
Proof.
  unfold swap_at.
  destruct (at_ v i) as [x|] eqn:Hx; [|done].
  destruct (at_ v j) as [y|] eqn:Hy; [|done].
  intros [= <-].
  apply at_Some in Hx as [_ Hx]. apply at_Some in Hy as [_ Hy].
  split; [by apply Permutation_insert_swap|].
  split; [by rewrite !length_insert|].
  intros p Hi Hj. by rewrite !take_insert_ge by lia.
Qed.

Lemma push_ids_spec (k : nat) :
  ∀ table, Z.of_nat (length table) + Z.of_nat k < two64 →
    push_ids k (Z.of_nat (length table)) table
    = Returns (table ++ seqZ (Z.of_nat (length table)) (Z.of_nat k)).
Proof.
  induction k as [|k IH]; intros table Hsize.
  - simpl. by rewrite app_nil_r.
  - cbn [push_ids].
    assert (Hat : at_ (table ++ [Z.of_nat (length table)])
                      (Z.of_nat (length table))
                  = Some (Z.of_nat (length table))).
    { apply at_Some. split; [lia|]. rewrite Nat2Z.id.
      by rewrite lookup_app_r, Nat.sub_diag by lia. }
    rewrite Hat, Z.eqb_refl. rewrite u64_small by lia.
    replace (Z.of_nat (length table) + 1)
      with (Z.of_nat (length (table ++ [Z.of_nat (length table)])))
      by (rewrite length_app; simpl; lia).
    rewrite IH by (rewrite length_app; simpl; lia).
    rewrite <- app_assoc. do 2 f_equal.
    rewrite length_app. cbn [length app].
    rewrite (seqZ_cons _ (Z.of_nat (S k))) by lia.
    do 2 f_equal; lia.
Qed.

Lemma knuth_shuffle_spec (k : nat) :
  ∀ (i next_ : Z) (table : list Z) (seed_ : Z),
    0 ≤ i → (k = 0%nat ∨ i + Z.of_nat k = next_ - 1) →
    Z.of_nat (length table) = next_ → next_ < two64 →
    ∃ table',
      knuth_shuffle k i next_ table seed_
      = Returns (table', Nat.iter k Prng.next_seed seed_)
      ∧ table' ≡ₚ table
      ∧ length table' = length table
      ∧ take (Z.to_nat i) table' = take (Z.to_nat i) table.
Proof.
  induction k as [|k IH]; intros i next_ table seed_ Hi Hk Hlen Hnext.
  - exists table. by split.
  - destruct Hk as [?|Hk]; [done|]. cbn [knuth_shuffle].
    rewrite (u64_small (next_ - i)) by lia.
    rewrite next_rand_int_draw by lia.
    set (r := Z.shiftr (Prng.next_seed seed_) 16 mod (next_ - i)).
    assert (Hr : 0 ≤ r < next_ - i) by (apply Z.mod_pos_bound; lia).
    rewrite (u64_small (i + r)) by lia.
    destruct (swap_at_defined table i (i + r)) as [table1 Hswap]; [lia..|].
    rewrite Hswap.
    destruct (swap_at_permutation _ _ _ _ Hswap) as (P1 & L1 & T1).
    rewrite (u64_small (i + 1)) by lia.
    destruct (IH (i + 1) next_ table1 (Prng.next_seed seed_))
      as (table' & Hrun & P2 & L2 & T2); [lia|lia|lia|lia|].
    exists table'. rewrite Hrun, Nat.iter_succ_r.
    split; [done|]. split; [by rewrite P2|]. split; [congruence|].
    rewrite <- (T1 (Z.to_nat i)) by lia.
    apply (f_equal (take (Z.to_nat i))) in T2.
    rewrite !take_take in T2.
    by replace (Z.to_nat i `min` Z.to_nat (i + 1))%nat with (Z.to_nat i)
      in T2 by lia.
Qed.

(** In a table that extends a permutation table to a longer one, the
    new slots hold the new name ids. *)
Lemma permutation_table_split (table table' : list Z) (next_ : Z) :
  table ≡ₚ seqZ 0 (Z.of_nat (length table)) →
  table' ≡ₚ seqZ 0 next_ →
  take (length table) table' = table →
  Z.of_nat (length table) ≤ next_ →
  ∀ i x, table' !! i = Some x →
    0 ≤ x < next_
    ∧ ((length table ≤ i)%nat ↔ Z.of_nat (length table) ≤ x).
Proof.
  intros Hold Hnew Htake Hle i x Hi.
  set (old := length table) in *.
  assert (Hrest : drop old table' ≡ₚ seqZ (Z.of_nat old) (next_ - Z.of_nat old)).
  { apply (Permutation_app_inv_l (seqZ 0 (Z.of_nat old))).
    replace (seqZ 0 (Z.of_nat old)
             ++ seqZ (Z.of_nat old) (next_ - Z.of_nat old))
      with (seqZ 0 next_).
    2:{ replace next_ with (Z.of_nat old + (next_ - Z.of_nat old)) at 1
          by lia.
        rewrite seqZ_app by lia. by rewrite Z.add_0_l. }
    rewrite <- Hnew, <- Hold, <- Htake at 1. by rewrite take_drop. }
  destruct (decide (i < old)%nat) as [Hlt|Hge].
  - assert (Hx : x ∈ table).
    { rewrite <- Htake. apply list_elem_of_lookup. exists i.
      by rewrite lookup_take_lt. }
    rewrite Hold in Hx. apply elem_of_seqZ in Hx. lia.
  - assert (Hx : x ∈ drop old table').
    { apply list_elem_of_lookup. exists (i - old)%nat.
      rewrite lookup_drop. by replace (old + (i - old))%nat with i by lia. }
    rewrite Hrest in Hx. apply elem_of_seqZ in Hx. lia.
Qed.

(** Called on a permutation table that is not longer than
    [next_name_id], the block returns a permutation table of length
    [next_name_id] that keeps the old entries. *)
Lemma extend_permutation_spec (table : list Z) (next_ seed_ : Z) :
  permutation_table table →
  Z.of_nat (length table) ≤ next_ →
  1 ≤ next_ < two64 →
  ∃ table',
    extend_permutation table next_ seed_
    = Returns (table',
               Nat.iter
                 (Z.to_nat (next_ - 1 - Z.max 1 (Z.of_nat (length table))))
                 Prng.next_seed seed_)
    ∧ permutation_table table'
    ∧ Z.of_nat (length table') = next_
    ∧ take (length table) table' = table
    ∧ table' !! 0%nat = Some 0
    ∧ NoDup table'
    ∧ ∀ i x, table' !! i = Some x →
        0 ≤ x < next_
        ∧ ((length table ≤ i)%nat ↔ Z.of_nat (length table) ≤ x).
Proof.
  intros [Hperm Hzero] Hle Hnext.
  set (old := Z.of_nat (length table)) in *.
  assert (Hfinish : ∀ table' seed',
    table' ≡ₚ seqZ 0 next_ → Z.of_nat (length table') = next_ →
    take (length table) table' = table → table' !! 0%nat = Some 0 →
    extend_permutation table next_ seed_ = Returns (table', seed') →
    seed' = Nat.iter (Z.to_nat (next_ - 1 - Z.max 1 old)) Prng.next_seed
              seed_ →
    ∃ table'0,
      extend_permutation table next_ seed_
      = Returns (table'0,
                 Nat.iter (Z.to_nat (next_ - 1 - Z.max 1 old))
                   Prng.next_seed seed_)
      ∧ permutation_table table'0
      ∧ Z.of_nat (length table'0) = next_
      ∧ take (length table) table'0 = table
      ∧ table'0 !! 0%nat = Some 0
      ∧ NoDup table'0
      ∧ ∀ i x, table'0 !! i = Some x →
          0 ≤ x < next_ ∧ ((length table ≤ i)%nat ↔ old ≤ x)).
  { intros table' seed' Hp Hl Ht H0 Hrun ->. exists table'.
    split; [done|]. split; [split; [by rewrite Hl|by right]|].
    split; [done|]. split; [done|]. split; [done|]. split.
    - rewrite Hp. apply NoDup_seqZ.
    - by apply permutation_table_split. }
  assert (Hunfold : extend_permutation table next_ seed_
    = if old <? next_ then
        match push_ids (Z.to_nat (next_ - old)) old table with
        | Returns table1 =>
            if negb (Z.of_nat (length table1) =? next_) then Aborts
            else knuth_shuffle
                   (Z.to_nat (u64 (next_ - 1)
                              - (if old =? 0 then 1 else old)))
                   (if old =? 0 then 1 else old) next_ table1 seed_
        | Exits status => Exits status
        | Aborts => Aborts
        | Faults => Faults
        | Unfinished => Unfinished
        end
      else Returns (table, seed_)).
  { unfold extend_permutation. fold old.
    by destruct (Z.leb_spec old next_) as [_|?]; [|lia]. }
  destruct (Z.ltb_spec old next_) as [Hlt|Hge].
  - pose proof (push_ids_spec (Z.to_nat (next_ - old)) table
                  ltac:(lia)) as Hpush.
    fold old in Hpush. rewrite Z2Nat.id in Hpush by lia.
    set (table1 := table ++ seqZ old (next_ - old)) in *.
    assert (Hlen1 : Z.of_nat (length table1) = next_).
    { unfold table1. rewrite length_app, length_seqZ. lia. }
    assert (Hperm1 : table1 ≡ₚ seqZ 0 next_).
    { unfold table1. rewrite Hperm at 1.
      replace next_ with (old + (next_ - old)) at 2 by lia.
      rewrite seqZ_app by lia. by rewrite Z.add_0_l. }
    assert (Hold' : (if old =? 0 then 1 else old) = Z.max 1 old).
    { destruct (Z.eqb_spec old 0); lia. }
    destruct (knuth_shuffle_spec
                (Z.to_nat (u64 (next_ - 1) - Z.max 1 old)) (Z.max 1 old)
                next_ table1 seed_)
      as (table' & Hrun & P & L & T); [lia| |done|lia|].
    { rewrite u64_small by lia.
      destruct (decide (next_ - 1 - Z.max 1 old ≤ 0)); [left|right]; lia. }
    assert (Hzero1 : table1 !! 0%nat = Some 0).
    { unfold table1. destruct Hzero as [->|Hz].
      - simpl. apply lookup_seqZ_lt. simpl in *. lia.
      - by apply lookup_app_l_Some. }
    eapply (Hfinish table'); [by rewrite P|lia| | | |].
    + destruct (decide (old = 0)) as [H0|H0].
      * assert (table = []) as -> by (apply length_zero_iff_nil; lia).
        done.
      * apply (f_equal (take (length table))) in T.
        rewrite !take_take in T.
        replace (length table `min` Z.to_nat (Z.max 1 old))%nat
          with (length table) in T by lia.
        rewrite T. unfold table1. by rewrite take_app_length.
    + apply (f_equal (λ l, l !! 0%nat)) in T.
      rewrite !lookup_take_lt in T by lia. congruence.
    + rewrite Hunfold, Hpush, Hlen1, Z.eqb_refl. cbn [negb].
      rewrite Hold'. exact Hrun.
    + by rewrite u64_small by lia.
  - assert (Heq : old = next_) by lia.
    eapply (Hfinish table); [by rewrite <- Heq|done| | |exact Hunfold|].
    + by rewrite firstn_all.
    + destruct Hzero as [->|?]; [simpl in *; lia|done].
    + by replace (Z.to_nat (next_ - 1 - Z.max 1 old)) with 0%nat by lia.
Qed.

(** X16: the table of permuted name ids stays a permutation and is only
    ever extended.  Called on a permutation table that is not longer
    than [next_name_id], the block returns (no [assert] fails, no index
    is out of range) a permutation table of length [next_name_id]: no
    two name ids share a uniform name, index 0 stays 0, the entries the
    table had are unchanged, so a name printed before keeps its uniform
    name, and the new name ids are permuted among themselves.  The
    generator is advanced once per new name id but the last (and index 0
    is not counted).  On a table that is longer than
    [next_name_id] the first [assert] fails. *)
Theorem extend_permutation_extends (table : list Z) (next_ seed_ : Z) :
  permutation_table table →
  Z.of_nat (length table) ≤ next_ →
  1 ≤ next_ < two64 →
  (∃ table',
     extend_permutation table next_ seed_
     = Returns (table',
                Nat.iter
                  (Z.to_nat (next_ - 1 - Z.max 1 (Z.of_nat (length table))))
                  Prng.next_seed seed_)
     ∧ permutation_table table'
     ∧ Z.of_nat (length table') = next_
     ∧ take (length table) table' = table
     ∧ table' !! 0%nat = Some 0
     ∧ NoDup table'
     ∧ ∀ i x, table' !! i = Some x →
         0 ≤ x < next_
         ∧ ((length table ≤ i)%nat ↔ Z.of_nat (length table) ≤ x))
  ∧ ∀ longer, next_ < Z.of_nat (length longer) →
      extend_permutation longer next_ seed_ = Aborts.
Proof.
  intros Htable Hle Hnext.
  split; [by apply extend_permutation_spec|].
  intros longer Hlong. unfold extend_permutation.
  by destruct (Z.leb_spec (Z.of_nat (length longer)) next_); [lia|].
Qed.

Lemma extend_permutation_extends_witness :
  ∃ table',
    extend_permutation [0; 2; 1] 6 7
    = Returns (table', Prng.next_seed (Prng.next_seed 7))
    ∧ take 3 table' = [0; 2; 1]
    ∧ NoDup table'.
Proof.
  destruct (extend_permutation_extends [0; 2; 1] 6 7)
    as [(table' & H1 & _ & _ & H4 & _ & H6 & _) _].
  - split; [|by right]. change ([0; 2; 1] ≡ₚ [0; 1; 2]).
    apply perm_skip, perm_swap.
  - simpl. lia.
  - by vm_compute.
  - by exists table'.
Defined.

(** ** The scrambling print pass *)

Lemma scrambled_frame_refl (o : options) (s : Scrambled.state) :
  scrambled_frame o s s.
Proof.
  unfold scrambled_frame; split_and!; try done. exists "". by rewrite string_app_nil_r.
Qed.

Lemma scrambled_frame_trans (o : options) (s1 s2 s3 : Scrambled.state) :
  scrambled_frame o s1 s2 → scrambled_frame o s2 s3 →
  scrambled_frame o s1 s3.
Proof.
  intros (A1 & B1 & C1 & [t1 D1] & E1 & F1 & G1 & H1 & I1)
         (A2 & B2 & C2 & [t2 D2] & E2 & F2 & G2 & H2 & I2).
  unfold scrambled_frame; split_and!; try congruence.
  - exists (t1 +:+ t2). by rewrite D2, D1, string_app_assoc.
  - auto.
  - intros Hu. by rewrite H2, H1.
  - intros Hn. by rewrite I2, I1.
Qed.

Lemma table_covers_frame (o : options) (s s' : Scrambled.state) :
  table_covers o s → scrambled_frame o s s' → table_covers o s'.
Proof.
  intros [Hno|[Hs Hlen]] (_ & Ht & _ & _ & _ & Hn & Hsound & _);
    [by left|right].
  split; [auto|]. by rewrite Hn, Ht.
Qed.

(** Sequencing under the frame of the printer. *)
Lemma printer_bind {A B : Type} (o : options) (m : run Scrambled.state A)
    (k : A → run Scrambled.state B) (s : Scrambled.state) :
  table_covers o s →
  run_returns (scrambled_frame o) m s →
  (∀ x s', table_covers o s' → run_returns (scrambled_frame o) (k x) s') →
  run_returns (scrambled_frame o) (rbind m k) s.
Proof.
  intros Hpre (x & s1 & Hm & H1) Hk.
  destruct (Hk x s1 (table_covers_frame o s s1 Hpre H1))
    as (y & s2 & Hkx & H2).
  exists y, s2. unfold rbind. rewrite Hm. split; [done|].
  by apply scrambled_frame_trans with s1.
Qed.

Lemma printer_ret {A : Type} (o : options) (x : A) (s : Scrambled.state) :
  run_returns (scrambled_frame o) (rret x) s.
Proof. exists x, s. split; [done|apply scrambled_frame_refl]. Qed.

Lemma printer_when (o : options) (b : bool) (m : run Scrambled.state unit)
    (s : Scrambled.state) :
  (b = true → run_returns (scrambled_frame o) m s) →
  run_returns (scrambled_frame o) (Scrambled.when_ b m) s.
Proof. destruct b; [auto|intros _; apply printer_ret]. Qed.

Lemma printer_emit (o : options) (t : string) (s : Scrambled.state) :
  run_returns (scrambled_frame o) (Scrambled.emit t) s.
Proof.
  eexists tt, _. split; [reflexivity|].
  unfold scrambled_frame; split_and!; try done. by exists t.
Qed.

Lemma printer_make_annotation_name (o : options) (s : Scrambled.state) :
  gen_ucore o = true →
  run_returns (scrambled_frame o) Scrambled.make_annotation_name s.
Proof.
  intros Hu. eexists _, _. split; [reflexivity|].
  unfold scrambled_frame; split_and!; try done.
  - exists "". by rewrite string_app_nil_r.
  - congruence.
Qed.

(** A name is looked up and printed: the identifier the registry shows is
    inside the table, so the [assert] holds. *)
Lemma printer_name (o : options) (sym : string) (s : Scrambled.state) :
  no_scramble o = false → table_covers o s →
  run_returns (scrambled_frame o)
    (call name_id <- Scrambled.lookup sym;
     if name_id =? 0 then Scrambled.emit sym
     else Scrambled.emit_permuted name_id) s.
Proof.
  intros Hno [?|[Hsound Hlen]]; [congruence|].
  unfold run_returns, Scrambled.lookup, rbind, Scrambled.gets,
    Scrambled.modify, rret. cbv beta.
  pose proof (get_name_id_value sym (Scrambled.names s)) as Hval.
  pose proof (λ x, get_name_id_shown sym x (Scrambled.names s)) as Hshown.
  pose proof (run_op_sound (Scrambled.names s) (OpLookup sym)) as Hop.
  cbn [run_op] in Hop.
  assert (Hnext : next_name_id (get_name_id sym (Scrambled.names s)).2
                  = next_name_id (Scrambled.names s)).
  { unfold get_name_id.
    by destruct (name_ids (Scrambled.names s) !! unquote sym). }
  assert (Hkeep : registry_sound (Scrambled.names s) →
                  registry_sound (get_name_id sym (Scrambled.names s)).2).
  { intros Hs. unfold get_name_id.
    destruct (name_ids (Scrambled.names s) !! unquote sym) eqn:Hn; [done|].
    destruct Hs as (H1 & H2 & H3). split; [done|]. split; simpl.
    - intros x v Hx. apply lookup_insert_Some in Hx as [[_ <-]|[_ Hx]];
        [lia|by apply (H2 x)].
    - intros s1 s2 v Hs1 Hs2 Hv.
      apply lookup_insert_Some in Hs1 as [[<- <-]|[Hne1 Hs1]]; [done|].
      apply lookup_insert_Some in Hs2 as [[<- <-]|[Hne2 Hs2]]; [done|].
      by apply (H3 s1 s2 v). }
  assert (Hid : 0 ≤ (get_name_id sym (Scrambled.names s)).1
                < next_name_id (Scrambled.names s)).
  { rewrite Hval. unfold shown_id.
    destruct Hsound as (H1 & H2 & _).
    destruct (name_ids (Scrambled.names s) !! unquote sym) as [v|] eqn:Hn;
      simpl; [by apply (H2 (unquote sym))|lia]. }
  destruct (get_name_id sym (Scrambled.names s)) as [id r'].
  cbn [fst snd] in *.
  assert (Hframe : scrambled_frame o s (Scrambled.set_names r' s)).
  { unfold scrambled_frame; split_and!; try done.
    - exists "". by rewrite string_app_nil_r.
    - congruence. }
  destruct (Z.eqb_spec id 0) as [->|Hnz].
  - eexists tt, _. split; [reflexivity|].
    eapply scrambled_frame_trans; [exact Hframe|].
    unfold scrambled_frame; split_and!; try done. by exists sym.
  - unfold Scrambled.emit_permuted, rbind, Scrambled.gets.
    cbn [Scrambled.permuted_name_ids Scrambled.set_names].
    destruct (Z.ltb_spec id
                (Z.of_nat (length (Scrambled.permuted_name_ids s))))
      as [Hlt|?]; [|lia].
    cbn [negb].
    destruct (at_in_range (Scrambled.permuted_name_ids s) id ltac:(lia))
      as [x ->].
    eexists tt, _. split; [reflexivity|].
    eapply scrambled_frame_trans; [exact Hframe|].
    unfold scrambled_frame; split_and!; try done. by eexists.
Qed.

(** Takes a computation of the scrambling printer apart along its
    binds. *)
Ltac step_printer :=
  repeat first
    [ apply printer_emit
    | apply printer_ret
    | apply printer_bind; [assumption| |intros]
    | apply printer_when; intros ].

(** Run on a tree whose annotation nodes have a body, with a table that
    covers the registry, [print_node] returns: no [assert] fails and no
    index is out of range. *)
Lemma print_node_returns (o : options) (keep : annotation_mode) (n : node) :
  annotations_have_body n = true →
  ∀ s, table_covers o s →
    run_returns (scrambled_frame o) (Scrambled.print_node o keep n) s.
Proof.
  induction n as [a sym i p cs IH] using node_tree_ind. intros Hb.
  pose proof (annotations_have_body_children _ _ _ _ _ Hb) as Hcs.
  cbn [Scrambled.print_node children symbol is_name needs_parens].
  destruct (String.eqb sym "!" && negb (keep_annotation _ keep)) eqn:Hann.
  - apply andb_true_iff in Hann as [Hsym _].
    cbn [annotations_have_body children symbol] in Hb. rewrite Hsym in Hb.
    destruct cs as [|c cs]; [done|].
    inversion IH; subst. inversion Hcs; subst. auto.
  - intros s Hpre. step_printer.
    + destruct (no_scramble o) eqn:Hno; cbn [orb]; [apply printer_emit|].
      destruct (negb i); [apply printer_emit|].
      by apply printer_name.
    + destruct (gen_ucore o) eqn:Hu; cbn [andb]; [|apply printer_ret].
      destruct (String.eqb sym "assert");
        [by apply printer_make_annotation_name|apply printer_ret].
    + clear Hb Hann. generalize (descends (Node a sym i p cs)). intros g.
      match goal with
      | H : table_covers o ?st |- run_returns _ _ ?st =>
          revert H; generalize st
      end.
      generalize 0%nat.
      induction IH as [|c cs Hc _ IHcs]; intros k st Hst;
        [apply printer_ret|].
      inversion Hcs; subst. step_printer; auto.
Qed.

Lemma print_all_scrambled_returns (o : options) (keep : annotation_mode)
    (v : list node) :
  Forall (λ c, annotations_have_body c = true) v →
  ∀ s, table_covers o s →
    run_returns (scrambled_frame o) (Scrambled.print_all o keep v) s.
Proof.
  induction 1 as [|c v Hc _ IH]; intros s Hpre; cbn [Scrambled.print_all].
  - apply printer_ret.
  - unfold Scrambled.print_command. step_printer; auto.
    by apply print_node_returns.
Qed.

Lemma rearranged_within_same_places (p : node → bool) (v v' : list node)
    (i j : nat) :
  (i ≤ j ≤ length v)%nat →
  Forall (λ c, p c = true) (take (j - i) (drop i v)) →
  rearranged_within i j v v' →
  same_places p v v'.
Proof.
  intros Hij Hall (Hlen & Htake & Hdrop & Hperm).
  assert (Hv' : v' = take i v ++ take (j - i) (drop i v') ++ drop j v).
  { rewrite <- Htake, <- Hdrop.
    rewrite <- (take_drop i v') at 1. f_equal.
    rewrite <- (take_drop (j - i) (drop i v')) at 1. f_equal.
    rewrite drop_drop. f_equal. lia. }
  rewrite Hv'. by apply same_places_splice.
Qed.

(** With scrambling enabled, a loop of [print_scrambled] that shuffles
    runs returns; it has rearranged the commands that satisfy [p] inside
    their runs, advanced the generator, and changed nothing else. *)
Lemma shuffle_runs_spec (o : options) (p : node → bool) (fuel : nat) :
  no_scramble o = false →
  ∀ (i : nat) (s : Scrambled.state),
    (length (Scrambled.commands s) - i ≤ fuel)%nat →
    Z.of_nat (length (Scrambled.commands s)) < two64 →
    ∃ v' x,
      Scrambled.shuffle_runs o p fuel i s
      = Returns (tt, Scrambled.set_seed_and_commands x v' s)
      ∧ same_places p (Scrambled.commands s) v'.
Proof.
  intros Hno.
  assert (Hid : ∀ s, Scrambled.set_seed_and_commands (Scrambled.seed s)
                       (Scrambled.commands s) s = s) by by intros [].
  induction fuel as [|fuel IH]; intros i s Hfuel Hsize;
    cbn [Scrambled.shuffle_runs]; unfold rbind at 1, Scrambled.gets.
  - destruct (Scrambled.commands s !! i) eqn:Hi.
    { apply lookup_lt_Some in Hi. lia. }
    exists (Scrambled.commands s), (Scrambled.seed s). rewrite Hid.
    split; [done|apply same_places_refl].
  - destruct (Scrambled.commands s !! i) as [ci|] eqn:Hi.
    2:{ exists (Scrambled.commands s), (Scrambled.seed s). rewrite Hid.
        split; [done|apply same_places_refl]. }
    destruct (p ci) eqn:Hci; [|apply IH; [lia|done]].
    destruct (run_end_spec p (Scrambled.commands s) i ci Hi Hci)
      as [Hj Hall].
    pose proof (run_end_gt p (Scrambled.commands s) i) as Hgt.
    set (j := run_end p (Scrambled.commands s) i) in *.
    unfold rbind. destruct (1 <? j - i)%nat eqn:Hlong;
      cbn [Scrambled.when_].
    + apply Nat.ltb_lt in Hlong.
      unfold Scrambled.shuffle_commands, shuffle_list. rewrite Hno.
      rewrite (u64_small (Z.of_nat j - Z.of_nat i)) by lia.
      rewrite (u64_small (Z.of_nat j - Z.of_nat i - 1)) by lia.
      destruct (shuffle_loop_within (Z.to_nat (Z.of_nat j - Z.of_nat i - 1))
                  i j (Scrambled.commands s) (Scrambled.seed s))
        as (v1 & x1 & -> & Hre); [lia..|].
      assert (Hv1 : same_places p (Scrambled.commands s) v1).
      { eapply rearranged_within_same_places; [|exact Hall|exact Hre]. lia. }
      assert (Hlen : length v1 = length (Scrambled.commands s)).
      { destruct Hv1 as [Hp _]. by rewrite Hp. }
      destruct (IH j (Scrambled.set_seed_and_commands x1 v1 s))
        as (v' & x & Hrun & Hv').
      { cbn [Scrambled.commands Scrambled.set_seed_and_commands]. lia. }
      { cbn [Scrambled.commands Scrambled.set_seed_and_commands]. lia. }
      exists v', x. rewrite Hrun. split; [done|].
      eapply same_places_trans; [exact Hv1|exact Hv'].
    + unfold rret. apply IH; [lia|done].
Qed.

(** X17: with scrambling enabled, on a sound registry, a permutation
    table that is not longer than [next_name_id], a buffer that fits a
    [size_t] index and trees whose annotation nodes have a body,
    [print_scrambled] returns: no [assert] fails, no index is out of
    range.  It prints, one after the other, the commands of a buffer [v2]
    obtained by rearranging [declare-fun] commands inside their runs
    (giving [v1]) and then assertions inside their runs; every other
    command keeps its place.  The table is extended to a permutation
    table of length [next_name_id] that keeps its old entries; the
    buffer is empty afterwards. *)
Theorem print_scrambled_returns (o : options) (keep : annotation_mode)
    (s : Scrambled.state) :
  no_scramble o = false →
  registry_sound (Scrambled.names s) →
  permutation_table (Scrambled.permuted_name_ids s) →
  Z.of_nat (length (Scrambled.permuted_name_ids s))
    ≤ next_name_id (Scrambled.names s) →
  next_name_id (Scrambled.names s) < two64 →
  Z.of_nat (length (Scrambled.commands s)) < two64 →
  Forall (λ c, annotations_have_body c = true) (Scrambled.commands s) →
  ∃ v1 v2 table' x s',
    same_places Scrambled.is_declare_fun (Scrambled.commands s) v1
    ∧ same_places is_assert v1 v2
    ∧ permutation_table table'
    ∧ Z.of_nat (length table') = next_name_id (Scrambled.names s)
    ∧ take (length (Scrambled.permuted_name_ids s)) table'
      = Scrambled.permuted_name_ids s
    ∧ Scrambled.print_all o keep v2
        (Scrambled.State x (Scrambled.names s) table'
           (Scrambled.annotation_n s) v2 (Scrambled.cout s))
      = Returns (tt, s')
    ∧ scrambled_frame o
        (Scrambled.State x (Scrambled.names s) table'
           (Scrambled.annotation_n s) v2 (Scrambled.cout s)) s'
    ∧ Scrambled.print_scrambled o keep s
      = Returns (tt, Scrambled.set_commands [] s').
Proof.
  intros Hno Hsound Htable Hlen Hnext Hsize Hbody.
  destruct (shuffle_runs_spec o Scrambled.is_declare_fun
              (length (Scrambled.commands s)) Hno 0 s)
    as (v1 & x1 & Hrun1 & Hv1); [lia|done|].
  assert (Hlen1 : length v1 = length (Scrambled.commands s)).
  { destruct Hv1 as [Hp _]. by rewrite Hp. }
  set (s1 := Scrambled.set_seed_and_commands x1 v1 s) in *.
  destruct (shuffle_runs_spec o is_assert (length v1) Hno 0 s1)
    as (v2 & x2 & Hrun2 & Hv2).
  { cbn [Scrambled.commands s1 Scrambled.set_seed_and_commands]. lia. }
  { cbn [Scrambled.commands s1 Scrambled.set_seed_and_commands]. lia. }
  cbn [Scrambled.commands s1 Scrambled.set_seed_and_commands] in Hv2.
  assert (H1 : 1 ≤ next_name_id (Scrambled.names s)) by by destruct Hsound.
  destruct (extend_permutation_spec (Scrambled.permuted_name_ids s)
              (next_name_id (Scrambled.names s)) x2 Htable Hlen
              ltac:(lia))
    as (table' & Hext & Htable' & Hlen' & Htake & _).
  set (x3 := Nat.iter _ Prng.next_seed x2) in Hext.
  set (s3 := Scrambled.State x3 (Scrambled.names s) table'
               (Scrambled.annotation_n s) v2 (Scrambled.cout s)).
  assert (Hbody2 : Forall (λ c, annotations_have_body c = true) v2).
  { destruct Hv1 as [P1 _]. destruct Hv2 as [P2 _]. by rewrite P2, P1. }
  destruct (print_all_scrambled_returns o keep v2 Hbody2 s3)
    as ([] & s' & Hprint & Hframe).
  { right. cbn [Scrambled.names Scrambled.permuted_name_ids s3].
    split; [done|lia]. }
  exists v1, v2, table', x3, s'.
  split; [done|]. split; [done|]. split; [done|]. split; [done|].
  split; [done|]. split; [done|]. split; [done|].
  unfold Scrambled.print_scrambled. rewrite Hno. cbn [negb Scrambled.when_].
  unfold rbind at 1. unfold rbind at 1, Scrambled.gets.
  unfold rbind at 1. rewrite Hrun1.
  unfold rbind at 1. unfold rbind at 1.
  cbn [Scrambled.commands Scrambled.set_seed_and_commands].
  fold s1. change (Scrambled.commands s1) with v1. rewrite Hrun2.
  unfold Scrambled.extend_table.
  cbn [Scrambled.permuted_name_ids Scrambled.names Scrambled.seed s1
       Scrambled.set_seed_and_commands].
  rewrite Hext.
  unfold rbind at 1. unfold rbind.
  cbn [Scrambled.commands Scrambled.set_table Scrambled.names
       Scrambled.annotation_n Scrambled.cout s1
       Scrambled.set_seed_and_commands].
  change (Scrambled.set_table x3 table'
            (Scrambled.set_seed_and_commands x2 v2 s1)) with s3.
  by rewrite Hprint.
Qed.

Lemma print_scrambled_returns_witness :
  let o := Options false false false false None in
  let s := Scrambled.State 7 (declare_all ["f"; "g"] registry_init) []
             1 split_runs "" in
  ∃ v1 v2 table' x s',
    same_places Scrambled.is_declare_fun split_runs v1
    ∧ same_places is_assert v1 v2
    ∧ permutation_table table'
    ∧ Z.of_nat (length table') = 3
    ∧ Scrambled.print_all o all v2
        (Scrambled.State x (declare_all ["f"; "g"] registry_init) table'
           1 v2 "")
      = Returns (tt, s')
    ∧ Scrambled.print_scrambled o all s
      = Returns (tt, Scrambled.set_commands [] s').
Proof.
  intros o s.
  destruct (print_scrambled_returns o all s)
    as (v1 & v2 & table' & x & s' & H1 & H2 & H3 & H4 & _ & H6 & _ & H8).
  - reflexivity.
  - pose proof (run_ops_sound [OpDeclare "f"; OpDeclare "g"] registry_init
                  ltac:(by vm_compute) registry_sound_init) as [Hs _].
    exact Hs.
  - split; [done|by left].
  - by vm_compute.
  - by vm_compute.
  - by vm_compute.
  - repeat constructor.
  - exists v1, v2, table', x, s'.
    exact (conj H1 (conj H2 (conj H3 (conj H4 (conj H6 H8))))).
Defined.

(** X18: with [no_scramble] set, [print_scrambled] prints the commands in
    the order they have in the buffer and empties it; it draws no
    number and touches neither the registry nor the table, whatever
    they hold. *)
Theorem print_scrambled_plain (o : options) (keep : annotation_mode)
    (s : Scrambled.state) :
  no_scramble o = true →
  Forall (λ c, annotations_have_body c = true) (Scrambled.commands s) →
  ∃ s',
    Scrambled.print_all o keep (Scrambled.commands s) s = Returns (tt, s')
    ∧ Scrambled.print_scrambled o keep s
      = Returns (tt, Scrambled.set_commands [] s')
    ∧ Scrambled.seed s' = Scrambled.seed s
    ∧ Scrambled.names s' = Scrambled.names s
    ∧ Scrambled.permuted_name_ids s' = Scrambled.permuted_name_ids s
    ∧ (∃ text, Scrambled.cout s' = Scrambled.cout s +:+ text)
    ∧ (gen_ucore o = false →
       Scrambled.annotation_n s' = Scrambled.annotation_n s).
Proof.
  intros Hno Hbody.
  destruct (print_all_scrambled_returns o keep (Scrambled.commands s) Hbody
              s ltac:(by left))
    as ([] & s' & Hprint & (A & B & C & D & E & F & G & H & I)).
  exists s'. split; [done|]. split.
  - unfold Scrambled.print_scrambled. rewrite Hno.
    cbn [negb Scrambled.when_]. unfold rbind at 1, rret.
    unfold rbind at 1, Scrambled.gets. unfold rbind. by rewrite Hprint.
  - split; [done|]. split; [auto|]. split; [done|]. by split.
Qed.

Lemma print_scrambled_plain_witness :
  let o := Options true false false false None in
  let s := Scrambled.State 7 registry_init [] 1 split_runs "" in
  ∃ s',
    Scrambled.print_scrambled o all s
    = Returns (tt, Scrambled.set_commands [] s')
    ∧ Scrambled.seed s' = 7
    ∧ Scrambled.cout s' = split_runs_text.
Proof.
  intros o s.
  destruct (print_scrambled_plain o all s eq_refl ltac:(repeat constructor))
    as (s' & H1 & H2 & H3 & _).
  exists s'. split; [done|]. split; [done|].
  vm_compute in H1. by injection H1 as <-.
Defined.

(** ** The command line *)

Lemma option_step_known (read_int : string → option Z) (opt value : string)
    (st st' : Main.settings) :
  Main.option_step read_int opt value st = inr st' →
  opt ∈ Main.option_names
  ∧ (Main.no_scramble st' = true
     ↔ Main.no_scramble st = true
       ∨ (opt = "-seed" ∧ read_int value = Some 0))
  ∧ (opt ≠ "-seed" → Main.seed st' = Main.seed st).
Proof.
  destruct st as [ka cc cf sd ns gi gu gm gp sn sz ca rf].
  unfold Main.option_step, Main.read_flag, Main.option_names.
  destruct (String.eqb_spec opt "-seed") as [->|Hseed].
  - destruct (read_int value) as [x|]; [|done].
    destruct (Z.leb_spec 0 x); [|done].
    destruct (Z.ltb_spec 0 x); intros [= <-];
      cbn [Main.no_scramble Main.seed]; (split; [set_solver|]);
      (split; [|done]).
    + split; [by left|]. intros [?|[_ [= ?]]]; [done|lia].
    + split; [|done]. intros _. right. split; [done|]. f_equal. lia.
  - repeat match goal with
           | |- context [String.eqb opt ?c] =>
               destruct (String.eqb_spec opt c) as [->|?]
           end;
      repeat match goal with
             | |- context [String.eqb value ?c] =>
                 destruct (String.eqb value c)
             end;
      intros H; try discriminate H; injection H as <-;
      cbn [Main.no_scramble Main.seed];
      (split; [set_solver|]); (split; [|done]);
      (split; [by left|by intros [?|[? _]]]).
Qed.

(** Induction on a list taken two elements at a time. *)
Lemma list_pair_ind {A : Type} (P : list A → Prop) :
  P [] → (∀ x, P [x]) → (∀ x y l, P l → P (x :: y :: l)) → ∀ l, P l.
Proof.
  intros H0 H1 H2. fix IH 1. intros [|x [|y l]]; [done..|].
  apply H2, IH.
Qed.

(** A run of the loop that does not end the process has consumed pairs
    of a known option and a value. *)
Lemma parse_arguments_pairs (read_int : string → option Z)
    (args : list string) :
  ∀ st st',
    Main.parse_arguments read_int args st = inr st' →
    Nat.Even (length args)
    ∧ (∀ k opt value, Main.pair_at args k opt value →
         opt ∈ Main.option_names)
    ∧ (Main.no_scramble st' = true
       ↔ Main.no_scramble st = true
         ∨ ∃ k value, Main.pair_at args k "-seed" value
                      ∧ read_int value = Some 0).
Proof.
  induction args as [|opt|opt value rest IH] using list_pair_ind;
    intros st st'; cbn [Main.parse_arguments].
  - intros [= <-]. split; [by exists 0%nat|]. split.
    + intros k opt value [Hk _]. by rewrite lookup_nil in Hk.
    + split; [by left|]. intros [?|(k & value & [Hk _] & _)]; [done|].
      by rewrite lookup_nil in Hk.
  - done.
  - destruct (Main.option_step read_int opt value st) as [e|st1] eqn:Hstep;
      [done|].
    intros Hrun.
    destruct (option_step_known read_int opt value st st1 Hstep)
      as (Hknown & Hns & _).
    destruct (IH st1 st' Hrun) as ([n Hn] & Hpairs & Hns').
    split; [exists (S n); simpl; lia|]. split.
    + intros [|k] o v [Ho Hv].
      * simpl in Ho. by injection Ho as <-.
      * apply (Hpairs k o v). split.
        -- by replace (2 * S k)%nat with (S (S (2 * k))) in Ho by lia.
        -- by replace (2 * S k + 1)%nat with (S (S (2 * k + 1))) in Hv
             by lia.
    + rewrite Hns', Hns. split.
      * intros [[?|[-> Hzero]]|(k & v & [Ho Hv] & Hzero)].
        -- by left.
        -- right. exists 0%nat, value. by split.
        -- right. exists (S k), v. split; [|done]. split.
           ++ by replace (2 * S k)%nat with (S (S (2 * k))) by lia.
           ++ by replace (2 * S k + 1)%nat with (S (S (2 * k + 1))) by lia.
      * intros [?|([|k] & v & [Ho Hv] & Hzero)].
        -- by left; left.
        -- simpl in Ho, Hv. injection Ho as ->. injection Hv as ->.
           left. right. by split.
        -- right. exists k, v. split; [|done]. split.
           ++ by replace (2 * S k)%nat with (S (S (2 * k))) in Ho by lia.
           ++ by replace (2 * S k + 1)%nat with (S (S (2 * k + 1))) in Hv
                by lia.
Qed.

Lemma parse_arguments_lone (read_int : string → option Z)
    (args : list string) (extra : string) :
  ∀ st st',
    Main.parse_arguments read_int args st = inr st' →
    Main.parse_arguments read_int (args ++ [extra]) st
    = inl (Main.Usage "9").
Proof.
  induction args as [|opt|opt value rest IH] using list_pair_ind;
    intros st st'; cbn [Main.parse_arguments app]; [done..|].
  destruct (Main.option_step read_int opt value st) as [e|st1]; [done|].
  apply IH.
Qed.

(** X19: what a command line that is accepted looks like, and that
    [-seed 0] cannot be taken back.  When the loop over the arguments
    does not end the process, the arguments are pairs of one of the
    eleven options and a value, and one more argument after them leads
    to [usage]: an option in last place has no value.  Scrambling is
    disabled afterwards exactly if it was disabled before or some
    [-seed] has a value that reads as 0; a later [-seed N] with [N > 0]
    seeds the generator but leaves scrambling disabled. *)
Theorem parse_arguments_accepts_pairs (read_int : string → option Z)
    (args : list string) (st st' : Main.settings) :
  Main.parse_arguments read_int args st = inr st' →
  Nat.Even (length args)
  ∧ (∀ k opt value, Main.pair_at args k opt value →
       opt ∈ Main.option_names)
  ∧ (Main.no_scramble st' = true
     ↔ Main.no_scramble st = true
       ∨ ∃ k value, Main.pair_at args k "-seed" value
                    ∧ read_int value = Some 0)
  ∧ (∀ extra, Main.parse_arguments read_int (args ++ [extra]) st
              = inl (Main.Usage "9"))
  ∧ (∀ zero n x,
       read_int zero = Some 0 → read_int n = Some x → 0 < x →
       ∃ st2,
         Main.parse_arguments read_int ["-seed"; zero; "-seed"; n] st
         = inr st2
         ∧ Main.no_scramble st2 = true
         ∧ Main.seed st2 = Prng.set_seed x).
Proof.
  intros Hrun.
  destruct (parse_arguments_pairs read_int args st st' Hrun)
    as (Heven & Hpairs & Hns).
  split; [done|]. split; [done|]. split; [done|]. split.
  - intros extra. by eapply parse_arguments_lone.
  - intros zero n x Hzero Hn Hx.
    destruct st as [ka cc cf sd ns gi gu gm gp sn sz ca rf].
    cbn [Main.parse_arguments Main.option_step String.eqb Ascii.eqb
         Bool.eqb].
    rewrite Hzero. cbn [Z.leb Z.ltb Z.compare].
    cbn [Main.option_step String.eqb Ascii.eqb Bool.eqb].
    rewrite Hn.
    destruct (Z.leb_spec 0 x); [|lia]. destruct (Z.ltb_spec 0 x); [|lia].
    by eexists.
Qed.

Lemma parse_arguments_accepts_pairs_witness :
  let read_int := λ text : string,
    if String.eqb text "0" then Some 0
    else if String.eqb text "42" then Some 42 else None in
  let args := ["-seed"; "0"; "-gen-proof"; "true"; "-seed"; "42"] in
  ∃ st',
    Main.parse_arguments read_int args (Main.initial 1000) = inr st'
    ∧ Main.no_scramble st' = true
    ∧ Main.seed st' = 42
    ∧ Main.parse_arguments read_int (args ++ ["-core"]) (Main.initial 1000)
      = inl (Main.Usage "9").
Proof.
  intros read_int args. eexists. split; [reflexivity|].
  split; [reflexivity|]. split; [reflexivity|].
  exact (proj1 (proj2 (proj2 (proj2
           (parse_arguments_accepts_pairs read_int args (Main.initial 1000)
              _ eq_refl)))) "-core").
Defined.

(** ** Core files that are rejected *)

Lemma skip_ws_split (b : string) :
  ∃ ws, all_space ws = true ∧ b = ws +:+ skip_ws b
        ∧ starts_blank (skip_ws b) = (String.eqb (skip_ws b) "").
Proof.
  induction b as [|ch b (ws & Hws & Hb & Hs)].
  - by exists ""%string.
  - cbn [skip_ws]. destruct (isspace ch) eqn:Hch.
    + exists (String ch ws). cbn [all_space String.append].
      rewrite Hch, Hws. split; [done|]. split; [by rewrite <- Hb|done].
    + exists ""%string. split; [done|]. split; [done|].
      cbn [starts_blank]. by rewrite Hch.
Qed.

Lemma read_word_split (b : string) :
  b = (read_word b).1 +:+ (read_word b).2
  ∧ no_space (read_word b).1 = true
  ∧ starts_blank (read_word b).2 = true.
Proof.
  induction b as [|ch b (Hb & Hw & Hr)]; [done|].
  cbn [read_word]. destruct (isspace ch) eqn:Hch.
  - cbn [fst snd String.append no_space starts_blank]. by rewrite Hch.
  - destruct (read_word b) as [w rest]. cbn [fst snd] in *.
    cbn [String.append no_space]. rewrite Hch, Hw. by rewrite <- Hb.
Qed.

(** The first extraction from a file that is open: it fails on a file of
    white space, and otherwise reads the first word. *)
Lemma extract_first (name file : string) :
  (all_space file = true
   ∧ extract name (IStream file false false)
     = (name, IStream "" true true))
  ∨ ∃ ws0 w rest,
      file = ws0 +:+ w +:+ rest
      ∧ all_space ws0 = true ∧ w ≠ ""%string ∧ no_space w = true
      ∧ starts_blank rest = true
      ∧ extract name (IStream file false false)
        = (w, IStream rest (String.eqb rest "") false).
Proof.
  destruct (skip_ws_split file) as (ws0 & Hws0 & Hfile & Hs).
  unfold extract. cbn [good eofbit failbit buffer negb andb].
  destruct (skip_ws file) as [|ch b] eqn:Hskip.
  - left. split; [|done]. rewrite Hfile.
    clear -Hws0. induction ws0 as [|c ws0 IH]; [done|].
    cbn [all_space String.append] in *.
    apply andb_true_iff in Hws0 as [-> H]. by apply IH.
  - right.
    destruct (read_word_split (String ch b)) as (Hb & Hw & Hr).
    destruct (read_word (String ch b)) as [w rest] eqn:Hread.
    cbn [fst snd] in *.
    exists ws0, w, rest. rewrite Hfile, Hb.
    split; [done|]. split; [done|]. split; [|by split].
    intros ->. cbn [String.append] in Hb. subst rest.
    cbn [starts_blank] in Hs, Hr. rewrite Hr in Hs. done.
Qed.

(** The loop that looks for the opening parenthesis, on a stream that is
    good: it gets through exactly if white space and a parenthesis
    come next. *)
Lemma skip_to_paren_cases (b : string) :
  ∀ (fuel : nat) (c : ascii),
    (String.length b < fuel)%nat →
    (∃ ws rest, b = ws +:+ "(" +:+ rest ∧ all_space ws = true
                ∧ skip_to_paren fuel c (IStream b false false)
                  = Some (inr (IStream rest false false)))
    ∨ skip_to_paren fuel c (IStream b false false) = Some (inl tt)
    ∨ ∃ src, skip_to_paren fuel c (IStream b false false) = Some (inr src)
             ∧ ok src = false.
Proof.
  induction b as [|ch b IH]; intros fuel c Hfuel;
    (destruct fuel as [|fuel]; [simpl in Hfuel; lia|]).
  - right. right. by eexists.
  - cbn [skip_to_paren get_char good eofbit failbit negb andb buffer ok].
    destruct (Ascii.eqb_spec ch "(") as [->|Hne]; cbn [negb].
    + left. exists ""%string, b. by split.
    + destruct (isspace ch) eqn:Hch; cbn [negb]; [|by right; left].
      destruct (IH fuel ch ltac:(simpl in Hfuel; lia))
        as [(ws & rest & -> & Hws & Hrun)|[Hrun|(src & Hrun & Hok)]].
      * left. exists (String ch ws), rest. cbn [String.append all_space].
        rewrite Hch, Hws. by split.
      * by right; left.
      * right. right. by exists src.
Qed.

Lemma string_length_app (s t : string) :
  String.length (s +:+ t) = (String.length s + String.length t)%nat.
Proof. induction s as [|ch s IH]; simpl; [done|by rewrite IH]. Qed.

(** A file of the accepted shape is accepted. *)
Lemma parse_core_accepts_shape (file : string) (out : gset string) :
  core_shape file →
  ∃ out', parse_core (open_file (Some file)) out = Some (true, out')
          ∧ out ⊆ out'.
Proof.
  intros (ws0 & ws & rest & -> & Hws0 & Hws & Hne).
  destruct (parse_core_total
              (open_file (Some (ws0 +:+ "unsat" +:+ ws +:+ "(" +:+ rest)))
              out) as [[b out'] Hrun].
  exists out'. revert Hrun. unfold parse_core, open_file. cbn [buffer].
  assert (Hblank : starts_blank (ws +:+ "(" +:+ rest) = true).
  { destruct ws as [|ch ws]; [done|]. cbn [all_space] in Hws.
    cbn [String.append starts_blank].
    by apply andb_true_iff in Hws as [-> _]. }
  assert (Hnz : String.eqb (ws +:+ "(" +:+ rest) "" = false)
    by (by destruct ws).
  rewrite (extract_word "" ws0 "unsat" (ws +:+ "(" +:+ rest) Hws0
             ltac:(done) eq_refl Hblank).
  rewrite Hnz. cbn [ok failbit negb orb].
  change (String.eqb "unsat" "unsat") with true. cbn [negb].
  rewrite skip_to_paren_blank; [|done|].
  - cbn [ok failbit negb]. intros Hrun. pose proof Hrun as Hr.
    apply read_names_accepts in Hr as [-> Hsub]; [done|by left].
  - rewrite !string_length_app. lia.
Qed.

(** What [parse_core] does with a file that is open, by the way it
    ends. *)
Lemma parse_core_cases (file : string) (out : gset string) (b : bool)
    (out' : gset string) :
  parse_core (open_file (Some file)) out = Some (b, out') →
  (b = true ∧ core_shape file) ∨ (b = false ∧ out' = out).
Proof.
  unfold parse_core, open_file. cbn [buffer].
  destruct (extract_first "" file)
    as [[Hall ->]|(ws0 & w & rest1 & Hfile & Hws0 & Hw & Hnw & Hblank & ->)].
  { cbn [ok failbit negb orb]. intros [= <- <-]. by right. }
  cbn [ok failbit negb orb].
  destruct (String.eqb_spec w "unsat") as [->|Hne]; cbn [negb].
  2:{ intros [= <- <-]. by right. }
  destruct rest1 as [|ch rest1].
  { cbn [String.eqb].
    destruct (String.length file) as [|n];
      cbn [skip_to_paren get_char good eofbit failbit negb andb ok buffer];
      intros [= <- <-]; by right. }
  change (String.eqb (String ch rest1) "") with false.
  destruct (skip_to_paren_cases (String ch rest1)
              (S (S (String.length file))) "000"%char)
    as [(ws & rest & Hrest & Hws & ->)|[->|(src & -> & Hok)]].
  { rewrite Hfile, !string_length_app. lia. }
  - cbn [ok failbit negb]. intros Hrun. left.
    apply read_names_accepts in Hrun as [-> _]; [|by left].
    split; [done|]. exists ws0, ws, rest. rewrite Hfile, Hrest.
    split; [done|]. split; [done|]. split; [done|].
    intros ->. cbn [String.append] in Hrest. injection Hrest as -> _.
    done.
  - intros [= <- <-]. by right.
  - rewrite Hok. cbn [negb]. intros [= <- <-]. by right.
Qed.

(** X20: the core files [parse_core] accepts are exactly those that hold,
    after white space, the word [unsat], white space and an opening
    parenthesis.  Every other file is rejected with [out] as it was - an
    empty file, a file that starts with another word, [unsat] followed
    by the end of the file or by anything but a parenthesis - and so is
    a file that cannot be opened.  The function never removes a name
    from [out]. *)
Theorem parse_core_accepts_exactly (file : string) (out : gset string) :
  (∃ b out',
     parse_core (open_file (Some file)) out = Some (b, out')
     ∧ (b = true ↔ core_shape file)
     ∧ (b = false → out' = out)
     ∧ out ⊆ out')
  ∧ parse_core (open_file None) out = Some (false, out)
  ∧ parse_core (open_file (Some "")) out = Some (false, out)
  ∧ parse_core (open_file (Some "unsat")) out = Some (false, out)
  ∧ parse_core (open_file (Some "unsat(a)")) out = Some (false, out)
  ∧ parse_core (open_file (Some "sat (a)")) out = Some (false, out).
Proof.
  split; [|by repeat split].
  destruct (parse_core_total (open_file (Some file)) out)
    as [[b out'] Hrun].
  exists b, out'. split; [done|].
  destruct (parse_core_cases file out b out' Hrun)
    as [[-> Hshape]|[-> ->]].
  - split; [done|]. split; [done|].
    destruct (parse_core_accepts_shape file out Hshape)
      as (out2 & Hrun2 & Hsub).
    rewrite Hrun in Hrun2. by injection Hrun2 as ->.
  - split; [|done]. split; [done|]. intros Hshape.
    destruct (parse_core_accepts_shape file out Hshape)
      as (out2 & Hrun2 & _).
    rewrite Hrun in Hrun2. done.
Qed.

(** ** Names of annotations *)

Lemma annotation_names_spec (k : nat) :
  ∀ s, 0 ≤ annotation_n s →
    annotation_n s + Z.of_nat k < two64 →
    annotation_names k s
    = Ok ((λ i, "smtcomp" +:+ pretty i)
          <$> seqZ (annotation_n s) (Z.of_nat k),
          set_annotation_n (u64 (annotation_n s + Z.of_nat k)) s).
Proof.
  induction k as [|k IH]; intros s Hn Hk.
  - cbn [annotation_names]. unfold ret. f_equal. f_equal.
    rewrite Z.add_0_r. destruct s as [sd nm ns an cm co].
    unfold set_annotation_n. cbn [annotation_n] in *.
    by rewrite u64_small by lia.
  - cbn [annotation_names]. unfold bind at 1, make_annotation_name.
    unfold bind at 1, gets. unfold bind at 1, modify. unfold ret at 1.
    unfold bind at 1.
    rewrite IH; cbn [annotation_n set_annotation_n];
      rewrite (u64_small (annotation_n s + 1)) by lia; [|lia..].
    unfold ret. f_equal. f_equal.
    + rewrite (seqZ_cons _ (Z.of_nat (S k))) by lia.
      cbn [fmap list_fmap]. do 3 f_equal; lia.
    + unfold set_annotation_n. cbn. do 2 f_equal. lia.
Qed.

(** X21: the names [make_annotation_name] hands out are fresh.  As long
    as its counter does not wrap around, the names returned by any
    number of calls are pairwise different; each call advances the
    counter by one and changes nothing else. *)
Theorem annotation_names_fresh (k : nat) (s : state) :
  0 ≤ annotation_n s →
  annotation_n s + Z.of_nat k < two64 →
  ∃ names_,
    annotation_names k s
    = Ok (names_, set_annotation_n (u64 (annotation_n s + Z.of_nat k)) s)
    ∧ NoDup names_
    ∧ length names_ = k
    ∧ ∀ i name, names_ !! i = Some name →
        name = "smtcomp" +:+ pretty (annotation_n s + Z.of_nat i).
Proof.
  intros Hn Hk. eexists. split; [by apply annotation_names_spec|].
  split; [|split].
  - apply NoDup_fmap_2; [|apply NoDup_seqZ].
    intros x y Hxy. apply String.app_inj in Hxy.
    by apply pretty_Z_inj in Hxy.
  - rewrite length_fmap, length_seqZ. lia.
  - intros i name Hi. rewrite list_lookup_fmap in Hi.
    destruct (seqZ (annotation_n s) (Z.of_nat k) !! i) as [x|] eqn:Hx;
      [|done].
    apply lookup_seqZ in Hx as [-> _]. by injection Hi as <-.
Qed.

Lemma annotation_names_fresh_witness :
  ∃ names_,
    annotation_names 3 initial_state
    = Ok (names_, set_annotation_n (u64 (1 + 3)) initial_state)
    ∧ NoDup names_.
Proof.
  destruct (annotation_names_fresh 3 initial_state)
    as (names_ & H1 & H2 & _).
  - by vm_compute.
  - by vm_compute.
  - by exists names_.
Defined.

(** ** What the sort and the numbering leave open *)

Lemma rev_sort_contract : sort_contract rev_sort.
Proof.
  intros A lt l Hswo. unfold rev_sort.
  destruct (ref_sort_contract A lt (rev l) Hswo) as [Hperm Hsorted].
  split; [|done]. rewrite Hperm. symmetry. apply Permutation_rev.
Qed.

(** X22: the order of assertions with equal ranks is not fixed by the
    code.  [std::sort] need not keep equivalent elements in their order,
    and when the rank file cannot be opened every rank is 0: one sorting
    function that meets the contract then leaves two assertions as they
    are, another one exchanges them, and [print_ranked] prints them in
    the one order or the other. *)
Theorem rank_ties_leave_order_open :
  sort_contract ref_sort ∧ sort_contract rev_sort
  ∧ (∀ n, get_ranks None n = replicate n 0%Q)
  ∧ (∀ A B : node,
       shuffle_list_ranks ref_sort [A; B] 0 2 (get_ranks None 2)
       = Some [A; B]
       ∧ shuffle_list_ranks rev_sort [A; B] 0 2 (get_ranks None 2)
         = Some [B; A])
  ∧ (let o := Options false false false false None in
     let p := Node 1 "assert" false true [Node 2 "p" false false []] in
     let q := Node 3 "assert" false true [Node 4 "q" false false []] in
     printed (scramble ref_sort o all 1 [p; q] initial_state)
     = Some ("(assert p)" +:+ endl +:+ "(assert q)" +:+ endl)
     ∧ printed (scramble rev_sort o all 1 [p; q] initial_state)
       = Some ("(assert q)" +:+ endl +:+ "(assert p)" +:+ endl)).
Proof.
  split; [apply ref_sort_contract|]. split; [apply rev_sort_contract|].
  split; [done|]. split; [done|]. split; vm_compute; reflexivity.
Qed.

(** ** Names that are not numbered *)

Lemma set_new_name_sorted_other (n s : string) (r : registry) :
  unquote n ≠ s →
  name_ids (set_new_name_sorted n r) !! s = name_ids r !! s.
Proof.
  intros Hne. unfold set_new_name_sorted.
  destruct (name_ids r !! unquote n); [done|]. simpl.
  by rewrite lookup_insert_ne.
Qed.

(** [assign_num] leaves the entry of a symbol that does not occur below
    the node as it was. *)
Lemma assign_num_other (s : string) (n : node) :
  occurs_below s n = false →
  ∀ r, name_ids (assign_num n r) !! s = name_ids r !! s.
Proof.
  induction n as [a sym i p cs IH] using node_tree_ind. intros Hocc r.
  cbn [assign_num children]. cbn [occurs_below children] in Hocc.
  assert (Hfirst : ∀ r0,
    name_ids (foldl (λ r c, if names_variable c
                            then set_new_name_sorted (symbol c) r else r)
                r0 cs) !! s = name_ids r0 !! s).
  { clear IH. induction cs as [|c cs IHcs]; intros r0; [done|].
    apply orb_false_iff in Hocc as [Hc Hocc].
    apply orb_false_iff in Hc as [Hc _].
    cbn [foldl]. rewrite IHcs by done.
    destruct (names_variable c); [|done]. cbn [andb] in Hc.
    apply set_new_name_sorted_other. by apply String.eqb_neq. }
  rewrite <- (Hfirst r). set (r1 := foldl _ r cs). clearbody r1.
  clear Hfirst r. revert r1.
  generalize (descends (Node a sym i p cs)). intros g. generalize 0%nat.
  induction IH as [|c cs Hc _ IHcs]; intros k r1; [done|].
  apply orb_false_iff in Hocc as [Hc1 Hocc].
  apply orb_false_iff in Hc1 as [_ Hc1].
  rewrite IHcs by done. destruct (g k); [by apply Hc|done].
Qed.

Lemma first_occurrences_other (s : string) (v : list node) :
  Forall (λ c, is_assert c = true → occurs_below s c = false) v →
  ∀ r, name_ids (first_occurrences v r) !! s = name_ids r !! s.
Proof.
  unfold first_occurrences.
  induction 1 as [|c v Hc _ IH]; intros r; [done|].
  cbn [foldl]. rewrite IH. destruct (is_assert c); [|done].
  by apply assign_num_other, Hc.
Qed.

(** X23: a name is renamed only if an assertion mentions it.  The
    numbering pass leaves the entry of every symbol that does not occur
    below an assertion as it was; and the printer, with scrambling
    enabled, prints a name for which the registry shows 0 under its
    original spelling, and a name for which it shows [id] as [x<id>]
    (the name being none of the words the printer treats specially).  A
    symbol that is declared but used in no assertion of the buffer thus
    keeps its name in the output. *)
Theorem unmentioned_names_keep_their_name (o : options)
    (keep : annotation_mode) (v : list node) (sym : string) (a : Z)
    (s : state) :
  Forall (λ c, is_assert c = true → occurs_below (unquote sym) c = false)
         v →
  no_scramble o = false →
  String.eqb sym "" = false → String.eqb sym "!" = false →
  String.eqb sym "assert" = false → String.eqb sym "check-sat" = false →
  (∀ r, name_ids (first_occurrences v r) !! unquote sym
        = name_ids r !! unquote sym)
  ∧ (shown_id (names_sorted s) (unquote sym) = 0 →
     printed (print_node_sorted o keep (Node a sym true false []) s)
     = Some (cout s +:+ sym))
  ∧ (shown_id (names_sorted s) (unquote sym) ≠ 0 →
     printed (print_node_sorted o keep (Node a sym true false []) s)
     = Some (cout s +:+ make_name (shown_id (names_sorted s)
                                     (unquote sym)))).
Proof.
  intros Hv Hno Hne Hbang Hassert Hcheck.
  split; [by apply first_occurrences_other|].
  assert (Hprint : printed (print_node_sorted o keep
                              (Node a sym true false []) s)
    = Some (cout s +:+ (if shown_id (names_sorted s) (unquote sym) =? 0
                        then sym
                        else make_name (shown_id (names_sorted s)
                                          (unquote sym))))).
  { cbn [print_node_sorted symbol is_name needs_parens children].
    rewrite Hbang, Hne, Hno, Hassert, Hcheck, andb_false_r.
    cbn [andb orb negb when_ String.eqb].
    pose proof (get_name_id_value sym (names_sorted s)) as Hval.
    rewrite <- get_name_id_sorted_same in Hval.
    cbv beta iota zeta
        delta [bind ret lookup_sorted gets modify emit when_].
    destruct (get_name_id_sorted sym (names_sorted s)) as [id r'].
    cbn [fst] in Hval. subst id. cbv beta iota.
    set (id := shown_id (names_sorted s) (unquote sym)).
    destruct (id =? 0); reflexivity. }
  split; intros Hid; rewrite Hprint.
  - by rewrite Hid.
  - by destruct (Z.eqb_spec (shown_id (names_sorted s) (unquote sym)) 0).
Qed.

Lemma unmentioned_names_keep_their_name_witness :
  let o := Options false false false false None in
  name_ids (first_occurrences split_runs registry_init) !! "f"%string = None
  ∧ printed (print_node_sorted o all (Node 101 "f" true false [])
               initial_state)
    = Some "f"%string.
Proof.
  intros o.
  destruct (unmentioned_names_keep_their_name o all split_runs "f" 101
              initial_state)
    as (H1 & H2 & _); try reflexivity.
  - unfold split_runs.
    repeat (constructor;
            [intros H; first [discriminate H|reflexivity]|]).
    constructor.
  - split; [exact (H1 registry_init)|exact (H2 eq_refl)].
Defined.
